(** * A red-black tree with parent pointers (package rbtree)

    The Go package stores its nodes on the heap and links them with
    [Parent], [Left] and [Right] pointers.  The embedding keeps that shape:
    a heap is a finite map from addresses to node records, a pointer is an
    optional address ([None] is Go's [nil]), and every method of the package
    is a computation in a small state-and-failure monad whose failure
    [Panic] is a nil dereference.  Loops carry fuel; the public operations
    supply an amount of fuel computed from the number of heap cells. *)

From Stdlib Require Import ZArith String Ascii List Lia.
From stdpp Require Import base option gmap strings list sorting.

Local Open Scope Z_scope.
#[local] Set Warnings "-clear-no-such-hyp".

(** ** Colors, pointers, nodes *)

(** [type Color bool] with [red = true] and [black = false]. *)
Definition color := bool.
Definition red : color := true.
Definition black : color := false.

(** A [*Node]; [None] is [nil]. *)
Definition ptr := option positive.

Definition ptr_eqb (p q : ptr) : bool := bool_decide (p = q).

(** Go compares strings bytewise; [key < cur.Key] is [String.ltb]. *)
Definition key_lt (a b : string) : bool := String.ltb a b.

(** Go's [int] on a 64-bit platform: signed wrap-around. *)
Definition wrap_int (z : Z) : Z := (z + 2 ^ 63) mod 2 ^ 64 - 2 ^ 63.

Inductive result (A : Type) : Type :=
| Ok (a : A)
| Panic
| OutOfFuel.
Arguments Ok {A} a.
Arguments Panic {A}.
Arguments OutOfFuel {A}.

(** ** The monad

    A computation reads and writes a state and ends with a value, with a
    panic, or without fuel. *)

Definition Comp (S A : Type) : Type := S → result (A * S).

Definition ret {S A} (a : A) : Comp S A := λ s, Ok (a, s).

Definition bind {S A B} (m : Comp S A) (k : A → Comp S B) : Comp S B :=
  λ s, match m s with
       | Ok (a, s') => k a s'
       | Panic => Panic
       | OutOfFuel => OutOfFuel
       end.

Definition out_of_fuel {S A} : Comp S A := λ _, OutOfFuel.

Notation "'let*' x ':=' m 'in' k" := (bind m (λ x, k))
  (at level 10, x name, m at level 100, k at level 200).
Notation "m ';;' k" := (bind m (λ _, k))
  (at level 100, k at level 200, right associativity).

Section RBTree.

(** The payload type ([interface{}] in the source). *)
Context {V : Type}.

Record Node : Type := mkNode {
  Key : string;
  Value : V;
  Color : color;
  Parent : ptr;
  Left : ptr;
  Right : ptr
}.

(** The memory together with the [Tree] struct that lives in it. *)
Record State : Type := mkState {
  heap : gmap positive Node;
  root : ptr;
  size : Z
}.

Local Abbreviation M := (Comp State).

(** Dereferencing: a nil (or dangling) pointer panics. *)
Definition load (p : ptr) : M Node :=
  λ s, match p with
       | None => Panic
       | Some a => match heap s !! a with
                   | Some n => Ok (n, s)
                   | None => Panic
                   end
       end.

Definition store (p : ptr) (f : Node → Node) : M unit :=
  λ s, match p with
       | None => Panic
       | Some a => match heap s !! a with
                   | Some n => Ok (tt, mkState (<[a := f n]> (heap s)) (root s) (size s))
                   | None => Panic
                   end
       end.

(** [&Node{...}]: a cell at an address not in use. *)
Definition alloc (n : Node) : M ptr :=
  λ s, let a := fresh (dom (heap s)) in
       Ok (Some a, mkState (<[a := n]> (heap s)) (root s) (size s)).

Definition get {A} (field : Node → A) (p : ptr) : M A :=
  let* n := load p in ret (field n).

Definition setValue (p : ptr) (v : V) : M unit :=
  store p (λ n, mkNode (Key n) v (Color n) (Parent n) (Left n) (Right n)).
Definition setColor (p : ptr) (c : color) : M unit :=
  store p (λ n, mkNode (Key n) (Value n) c (Parent n) (Left n) (Right n)).
Definition setParent (p : ptr) (q : ptr) : M unit :=
  store p (λ n, mkNode (Key n) (Value n) (Color n) q (Left n) (Right n)).
Definition setLeft (p : ptr) (q : ptr) : M unit :=
  store p (λ n, mkNode (Key n) (Value n) (Color n) (Parent n) q (Right n)).
Definition setRight (p : ptr) (q : ptr) : M unit :=
  store p (λ n, mkNode (Key n) (Value n) (Color n) (Parent n) (Left n) q).

Definition getRoot : M ptr := λ s, Ok (root s, s).
Definition setRoot (p : ptr) : M unit :=
  λ s, Ok (tt, mkState (heap s) p (size s)).
Definition getSize : M Z := λ s, Ok (size s, s).
Definition setSize (z : Z) : M unit :=
  λ s, Ok (tt, mkState (heap s) (root s) z).

(** ** Helpers of the package *)

Definition colorOf (node : ptr) : M color :=
  match node with
  | None => ret black
  | Some _ => get Color node
  end.

Definition leftOf (node : ptr) : M ptr :=
  match node with
  | None => ret None
  | Some _ => get Left node
  end.

Definition rightOf (node : ptr) : M ptr :=
  match node with
  | None => ret None
  | Some _ => get Right node
  end.

(** [for node.Left != nil { node = node.Left }] *)
Fixpoint minimum (fuel : nat) (node : ptr) : M ptr :=
  match fuel with
  | O => out_of_fuel
  | S fuel' =>
      let* l := get Left node in
      match l with
      | None => ret node
      | Some _ => minimum fuel' l
      end
  end.

(** ** Rotations and transplant *)

Definition rotateLeft (node : ptr) : M unit :=
  let* right := get Right node in
  let* rl := get Left right in
  setRight node rl ;;
  (let* rl' := get Left right in
   match rl' with
   | None => ret tt
   | Some _ => setParent rl' node
   end) ;;
  let* np := get Parent node in
  setParent right np ;;
  (let* np' := get Parent node in
   match np' with
   | None => setRoot right
   | Some _ =>
       let* npl := get Left np' in
       if ptr_eqb node npl then setLeft np' right else setRight np' right
   end) ;;
  setLeft right node ;;
  setParent node right.

Definition rotateRight (node : ptr) : M unit :=
  let* left := get Left node in
  let* lr := get Right left in
  setLeft node lr ;;
  (let* lr' := get Right left in
   match lr' with
   | None => ret tt
   | Some _ => setParent lr' node
   end) ;;
  let* np := get Parent node in
  setParent left np ;;
  (let* np' := get Parent node in
   match np' with
   | None => setRoot left
   | Some _ =>
       let* npr := get Right np' in
       if ptr_eqb node npr then setRight np' left else setLeft np' left
   end) ;;
  setRight left node ;;
  setParent node left.

Definition transplant (u v : ptr) : M unit :=
  (let* up := get Parent u in
   match up with
   | None => setRoot v
   | Some _ =>
       let* upl := get Left up in
       if ptr_eqb u upl then setLeft up v else setRight up v
   end) ;;
  match v with
  | None => ret tt
  | Some _ => let* up := get Parent u in setParent v up
  end.

(** ** Search *)

Fixpoint search_loop (fuel : nat) (key : string) (cur : ptr) : M ptr :=
  match fuel with
  | O => out_of_fuel
  | S fuel' =>
      match cur with
      | None => ret None
      | Some _ =>
          let* k := get Key cur in
          if key_lt key k then
            let* l := get Left cur in search_loop fuel' key l
          else
            let* k' := get Key cur in
            if key_lt k' key then
              let* r := get Right cur in search_loop fuel' key r
            else ret cur
      end
  end.

(** Fuel for the loops of one public call: more than twice the number of
    cells of the heap. *)
Definition fuel_of (s : State) : nat := (2 * base.size (heap s) + 4)%nat.

Definition with_fuel {A} (body : nat → M A) : M A :=
  λ s, body (fuel_of s) s.

Definition Search (key : string) : M ptr :=
  with_fuel (λ fuel, let* cur := getRoot in search_loop fuel key cur).

Definition Size : M Z := getSize.
Definition Root : M ptr := getRoot.

(** [New()]: no node, size zero.  The memory may already hold other cells;
    [New] itself is the empty memory. *)
Definition New : State := mkState ∅ None 0.

(** ** Insert *)

(** Outcome of the descent of [Insert]: the key was found and its value
    overwritten (the method returned), or the descent fell off the tree
    below [parent]. *)
Inductive descent : Type :=
| Updated
| Attach (parent : ptr).

Fixpoint insert_descend (fuel : nat) (key : string) (value : V)
    (parent cur : ptr) : M descent :=
  match fuel with
  | O => out_of_fuel
  | S fuel' =>
      match cur with
      | None => ret (Attach parent)
      | Some _ =>
          let parent := cur in
          let* k := get Key cur in
          if key_lt key k then
            let* l := get Left cur in insert_descend fuel' key value parent l
          else
            let* k' := get Key cur in
            if key_lt k' key then
              let* r := get Right cur in insert_descend fuel' key value parent r
            else
              setValue cur value ;; ret Updated
      end
  end.

Definition insertFixup_body (node : ptr) : M ptr :=
  let* p := get Parent node in
  let* g := get Parent p in
  let* gl := get Left g in
  if ptr_eqb p gl then
    let* uncle := get Right g in
    let* uc := colorOf uncle in
    if uc then
      (let* p := get Parent node in setColor p black) ;;
      setColor uncle black ;;
      (let* p := get Parent node in
       let* g := get Parent p in setColor g red) ;;
      let* p := get Parent node in
      get Parent p
    else
      let* node :=
        (let* p := get Parent node in
         let* g := get Parent p in
         let* gr := get Right g in
         if ptr_eqb node gr then
           let* node := get Parent node in
           rotateLeft node ;; ret node
         else ret node) in
      (let* p := get Parent node in setColor p black) ;;
      (let* p := get Parent node in
       let* g := get Parent p in setColor g red) ;;
      (let* p := get Parent node in
       let* g := get Parent p in rotateRight g) ;;
      ret node
  else
    let* p := get Parent node in
    let* g := get Parent p in
    let* uncle := get Left g in
    let* uc := colorOf uncle in
    if uc then
      (let* p := get Parent node in setColor p black) ;;
      setColor uncle black ;;
      (let* p := get Parent node in
       let* g := get Parent p in setColor g red) ;;
      let* p := get Parent node in
      get Parent p
    else
      let* node :=
        (let* p := get Parent node in
         let* pl := get Left p in
         if ptr_eqb node pl then
           let* node := get Parent node in
           rotateRight node ;; ret node
         else ret node) in
      (let* p := get Parent node in setColor p black) ;;
      (let* p := get Parent node in
       let* g := get Parent p in setColor g red) ;;
      (let* p := get Parent node in
       let* g := get Parent p in rotateLeft g) ;;
      ret node.

(** [for node != t.root && colorOf(node.Parent) == red { ... }]; the
    conjunction is evaluated left to right and stops at the first false. *)
Fixpoint insertFixup_loop (fuel : nat) (node : ptr) : M unit :=
  match fuel with
  | O => out_of_fuel
  | S fuel' =>
      let* r := getRoot in
      if ptr_eqb node r then ret tt
      else
        let* p := get Parent node in
        let* pc := colorOf p in
        if pc then
          let* node' := insertFixup_body node in
          insertFixup_loop fuel' node'
        else ret tt
  end.

Definition insertFixup (fuel : nat) (node : ptr) : M unit :=
  insertFixup_loop fuel node ;;
  let* r := getRoot in
  setColor r black.

Definition Insert (key : string) (value : V) : M unit :=
  with_fuel (λ fuel,
    let* cur := getRoot in
    let* d := insert_descend fuel key value None cur in
    match d with
    | Updated => ret tt
    | Attach parent =>
        let* node := alloc (mkNode key value red parent None None) in
        (match parent with
         | None => setRoot node
         | Some _ =>
             let* nk := get Key node in
             let* pk := get Key parent in
             if key_lt nk pk then setLeft parent node
             else setRight parent node
         end) ;;
        insertFixup fuel node ;;
        let* n := getSize in
        setSize (wrap_int (n + 1))
    end).

(** ** Delete *)

Definition deleteFixup_body (x parent : ptr) : M (ptr * ptr) :=
  let* pl := leftOf parent in
  if ptr_eqb x pl then
    let* sibling := rightOf parent in
    let* sc := colorOf sibling in
    let* sibling :=
      (if sc then
         setColor sibling black ;;
         setColor parent red ;;
         rotateLeft parent ;;
         rightOf parent
       else ret sibling) in
    let* sl := get Left sibling in
    let* slc := colorOf sl in
    let* both :=
      (if slc then ret false
       else
         let* sr := get Right sibling in
         let* src := colorOf sr in
         ret (negb src)) in
    if both then
      setColor sibling red ;;
      let x := parent in
      let* parent := get Parent x in
      ret (x, parent)
    else
      let* sr := get Right sibling in
      let* src := colorOf sr in
      let* sibling :=
        (if src then ret sibling
         else
           (let* sl := get Left sibling in
            match sl with
            | None => ret tt
            | Some _ => setColor sl black
            end) ;;
           setColor sibling red ;;
           rotateRight sibling ;;
           rightOf parent) in
      (let* pc := colorOf parent in setColor sibling pc) ;;
      setColor parent black ;;
      (let* sr := get Right sibling in
       match sr with
       | None => ret tt
       | Some _ => setColor sr black
       end) ;;
      rotateLeft parent ;;
      let* x := getRoot in
      ret (x, None)
  else
    let* sibling := leftOf parent in
    let* sc := colorOf sibling in
    let* sibling :=
      (if sc then
         setColor sibling black ;;
         setColor parent red ;;
         rotateRight parent ;;
         leftOf parent
       else ret sibling) in
    let* sl := get Left sibling in
    let* slc := colorOf sl in
    let* both :=
      (if slc then ret false
       else
         let* sr := get Right sibling in
         let* src := colorOf sr in
         ret (negb src)) in
    if both then
      setColor sibling red ;;
      let x := parent in
      let* parent := get Parent x in
      ret (x, parent)
    else
      let* sl := get Left sibling in
      let* slc := colorOf sl in
      let* sibling :=
        (if slc then ret sibling
         else
           (let* sr := get Right sibling in
            match sr with
            | None => ret tt
            | Some _ => setColor sr black
            end) ;;
           setColor sibling red ;;
           rotateLeft sibling ;;
           leftOf parent) in
      (let* pc := colorOf parent in setColor sibling pc) ;;
      setColor parent black ;;
      (let* sl := get Left sibling in
       match sl with
       | None => ret tt
       | Some _ => setColor sl black
       end) ;;
      rotateRight parent ;;
      let* x := getRoot in
      ret (x, None).

(** [for (x != t.root) && colorOf(x) == black { ... }] *)
Fixpoint deleteFixup_loop (fuel : nat) (x parent : ptr) : M ptr :=
  match fuel with
  | O => out_of_fuel
  | S fuel' =>
      let* r := getRoot in
      if ptr_eqb x r then ret x
      else
        let* xc := colorOf x in
        if xc then ret x
        else
          let* xp := deleteFixup_body x parent in
          deleteFixup_loop fuel' (fst xp) (snd xp)
  end.

Definition deleteFixup (fuel : nat) (x parent : ptr) : M unit :=
  let* x := deleteFixup_loop fuel x parent in
  match x with
  | None => ret tt
  | Some _ => setColor x black
  end.

(** The part of [Delete] between the lookup and the fixup decision: it
    unlinks [node] and returns the recorded original color, the replacement
    [x] and [replacementParent]. *)
Definition delete_splice (fuel : nat) (node : ptr) : M (color * ptr * ptr) :=
  let* originalColor := get Color node in
  let* nl := get Left node in
  match nl with
  | None =>
      let* x := get Right node in
      let* replacementParent := get Parent node in
      (let* nr := get Right node in transplant node nr) ;;
      ret (originalColor, x, replacementParent)
  | Some _ =>
      let* nr := get Right node in
      match nr with
      | None =>
          let* x := get Left node in
          let* replacementParent := get Parent node in
          (let* nl := get Left node in transplant node nl) ;;
          ret (originalColor, x, replacementParent)
      | Some _ =>
          let* successor := (let* nr := get Right node in minimum fuel nr) in
          let* originalColor := get Color successor in
          let* x := get Right successor in
          let* sp := get Parent successor in
          let* replacementParent :=
            (if ptr_eqb sp node then
               match x with
               | None => ret tt
               | Some _ => setParent x successor
               end ;;
               ret successor
             else
               let* replacementParent := get Parent successor in
               (let* sr := get Right successor in transplant successor sr) ;;
               (let* nr := get Right node in setRight successor nr) ;;
               (let* sr := get Right successor in setParent sr successor) ;;
               ret replacementParent) in
          transplant node successor ;;
          (let* nl := get Left node in setLeft successor nl) ;;
          (let* sl := get Left successor in setParent sl successor) ;;
          (let* nc := get Color node in setColor successor nc) ;;
          ret (originalColor, x, replacementParent)
      end
  end.

Definition Delete (key : string) : M bool :=
  let* node := Search key in
  match node with
  | None => ret false
  | Some _ =>
      with_fuel (λ fuel,
        let* sp := delete_splice fuel node in
        let '(originalColor, x, replacementParent) := sp in
        (if originalColor then ret tt
         else deleteFixup fuel x replacementParent) ;;
        let* n := getSize in
        setSize (wrap_int (n - 1)) ;;
        ret true)
  end.

(** ** Traversal and printing *)

(** The visitor is a caller-supplied effect; it is modelled as a transformer
    of the caller's own state [A]. *)
Fixpoint inOrder {A} (fuel : nat) (h : gmap positive Node) (node : ptr)
    (fn : string → V → A → A) (acc : A) : result A :=
  match fuel with
  | O => OutOfFuel
  | S fuel' =>
      match node with
      | None => Ok acc
      | Some a =>
          match h !! a with
          | None => Panic
          | Some n =>
              match inOrder fuel' h (Left n) fn acc with
              | Ok acc1 => inOrder fuel' h (Right n) fn (fn (Key n) (Value n) acc1)
              | Panic => Panic
              | OutOfFuel => OutOfFuel
              end
          end
      end
  end.

Definition InOrder {A} (fn : string → V → A → A) (acc : A) (s : State) : result A :=
  inOrder (fuel_of s) (heap s) (root s) fn acc.

Definition colorString (c : color) : string :=
  if c then "R"%string else "B"%string.

(** [strings.Repeat("  ", depth)] *)
Fixpoint repeat_indent (depth : nat) : string :=
  match depth with
  | O => ""%string
  | S d => ("  " ++ repeat_indent d)%string
  end.

(** [%v] formatting of a value is the caller's; [show] stands for it.  The
    writer is modelled by the text written to it. *)
Fixpoint printNode (show : V → string) (fuel : nat) (h : gmap positive Node)
    (node : ptr) (depth : nat) (out : string) : result string :=
  match fuel with
  | O => OutOfFuel
  | S fuel' =>
      match node with
      | None => Ok out
      | Some a =>
          match h !! a with
          | None => Panic
          | Some n =>
              match printNode show fuel' h (Right n) (S depth) out with
              | Ok out1 =>
                  let line :=
                    (repeat_indent depth ++ "[" ++ colorString (Color n) ++ "] "
                       ++ Key n ++ " => " ++ show (Value n)
                       ++ String (ascii_of_nat 10) "")%string in
                  printNode show fuel' h (Left n) (S depth) (out1 ++ line)%string
              | Panic => Panic
              | OutOfFuel => OutOfFuel
              end
          end
      end
  end.

Definition Print (show : V → string) (out : string) (s : State) : result string :=
  match root s with
  | None => Ok (out ++ "(empty)" ++ String (ascii_of_nat 10) "")%string
  | Some _ => printNode show (fuel_of s) (heap s) (root s) 0 out
  end.

End RBTree.

Arguments Node V : clear implicits.
Arguments State V : clear implicits.

(** ** Sequences of operations *)

Inductive op (V : Type) : Type :=
| OpInsert (key : string) (value : V)
| OpDelete (key : string).
Arguments OpInsert {V} key value.
Arguments OpDelete {V} key.

Definition step {V} (o : op V) (s : State V) : result (State V) :=
  match o with
  | OpInsert k v => match Insert k v s with
                    | Ok (_, s') => Ok s'
                    | Panic => Panic
                    | OutOfFuel => OutOfFuel
                    end
  | OpDelete k => match Delete k s with
                  | Ok (_, s') => Ok s'
                  | Panic => Panic
                  | OutOfFuel => OutOfFuel
                  end
  end.

Fixpoint run {V} (ops : list (op V)) (s : State V) : result (State V) :=
  match ops with
  | [] => Ok s
  | o :: ops' => match step o s with
                 | Ok s' => run ops' s'
                 | Panic => Panic
                 | OutOfFuel => OutOfFuel
                 end
  end.


(** * The tree a heap represents *)

Section Abstraction.

Context {V : Type}.

(** A binary tree whose nodes carry the address of their cell. *)
Inductive tree : Type :=
| Leaf
| Br (a : positive) (c : color) (l : tree) (k : string) (v : V) (r : tree).

Definition rootp (t : tree) : ptr :=
  match t with
  | Leaf => None
  | Br a _ _ _ _ _ => Some a
  end.

(** The color read through [colorOf]: a missing child is black. *)
Definition color_of (t : tree) : color :=
  match t with
  | Leaf => black
  | Br _ c _ _ _ _ => c
  end.

Fixpoint addrs (t : tree) : list positive :=
  match t with
  | Leaf => []
  | Br a _ l _ _ r => a :: addrs l ++ addrs r
  end.

(** The in-order sequence of (key, value). *)
Fixpoint elems (t : tree) : list (string * V) :=
  match t with
  | Leaf => []
  | Br _ _ l k v r => elems l ++ (k, v) :: elems r
  end.

Definition keys (t : tree) : list string := (elems t).*1.

(** [repr h t pp]: the cells of [h] at the addresses of [t] hold the nodes
    of [t], the root of [t] having parent pointer [pp]. *)
Fixpoint repr (h : gmap positive (Node V)) (t : tree) (pp : ptr) : Prop :=
  match t with
  | Leaf => True
  | Br a c l k v r =>
      h !! a = Some (mkNode k v c pp (rootp l) (rootp r))
      ∧ repr h l (Some a) ∧ repr h r (Some a)
  end.

(** The state holds the tree [t]: its cells represent [t] from the root
    pointer down, and no cell is used twice. *)
Definition Repr (s : State V) (t : tree) : Prop :=
  repr (heap s) t None ∧ root s = rootp t ∧ NoDup (addrs t).

(** ** Zippers *)

Inductive dir : Type := DL | DR.

(** One step of a path from the root: the node passed, the side taken
    ([fdir]) and the subtree on the other side. *)
Record frame : Type := mkFrame {
  fdir : dir;
  faddr : positive;
  fcolor : color;
  fkey : string;
  fval : V;
  fsib : tree
}.

Definition fill (f : frame) (t : tree) : tree :=
  match fdir f with
  | DL => Br (faddr f) (fcolor f) t (fkey f) (fval f) (fsib f)
  | DR => Br (faddr f) (fcolor f) (fsib f) (fkey f) (fval f) t
  end.

(** A context lists the frames from the hole upwards. *)
Fixpoint plug (ctx : list frame) (t : tree) : tree :=
  match ctx with
  | [] => t
  | f :: ctx' => plug ctx' (fill f t)
  end.

Definition ctx_parent (ctx : list frame) : ptr :=
  match ctx with
  | [] => None
  | f :: _ => Some (faddr f)
  end.

Fixpoint ctx_root (ctx : list frame) (p : ptr) : ptr :=
  match ctx with
  | [] => p
  | f :: ctx' => ctx_root ctx' (Some (faddr f))
  end.

Definition ctx_color (ctx : list frame) : color :=
  match ctx with
  | [] => black
  | f :: _ => fcolor f
  end.

Fixpoint ctx_addrs (ctx : list frame) : list positive :=
  match ctx with
  | [] => []
  | f :: ctx' => faddr f :: addrs (fsib f) ++ ctx_addrs ctx'
  end.

Fixpoint ctx_before (ctx : list frame) : list (string * V) :=
  match ctx with
  | [] => []
  | f :: ctx' =>
      ctx_before ctx' ++
      match fdir f with
      | DL => []
      | DR => elems (fsib f) ++ [(fkey f, fval f)]
      end
  end.

Fixpoint ctx_after (ctx : list frame) : list (string * V) :=
  match ctx with
  | [] => []
  | f :: ctx' =>
      match fdir f with
      | DL => (fkey f, fval f) :: elems (fsib f)
      | DR => []
      end ++ ctx_after ctx'
  end.

Definition frame_node (f : frame) (pp child : ptr) : Node V :=
  match fdir f with
  | DL => mkNode (fkey f) (fval f) (fcolor f) pp child (rootp (fsib f))
  | DR => mkNode (fkey f) (fval f) (fcolor f) pp (rootp (fsib f)) child
  end.

Fixpoint repr_ctx (h : gmap positive (Node V)) (ctx : list frame) (child : ptr) : Prop :=
  match ctx with
  | [] => True
  | f :: ctx' =>
      h !! faddr f = Some (frame_node f (ctx_parent ctx') child)
      ∧ repr h (fsib f) (Some (faddr f))
      ∧ repr_ctx h ctx' (Some (faddr f))
  end.

(** ** The red-black invariants *)

(** Number of black nodes on the leftmost path. *)
Fixpoint bh (t : tree) : nat :=
  match t with
  | Leaf => O
  | Br _ c l _ _ _ => (bh l + (if c then 0 else 1))%nat
  end.

Fixpoint balanced (t : tree) : Prop :=
  match t with
  | Leaf => True
  | Br _ _ l _ _ r => bh l = bh r ∧ balanced l ∧ balanced r
  end.

(** [black_paths t n]: every path from the root of [t] down to a missing
    child passes through exactly [n] black nodes. *)
Inductive black_paths : tree → nat → Prop :=
| bp_leaf : black_paths Leaf O
| bp_red a l k v r n :
    black_paths l n → black_paths r n → black_paths (Br a red l k v r) n
| bp_black a l k v r n :
    black_paths l n → black_paths r n → black_paths (Br a black l k v r) (S n).

Fixpoint noRedRed (t : tree) : Prop :=
  match t with
  | Leaf => True
  | Br _ c l _ _ r =>
      (c = red → color_of l = black ∧ color_of r = black)
      ∧ noRedRed l ∧ noRedRed r
  end.

Definition str_lt (a b : string) : Prop := key_lt a b = true.

Definition sorted_keys (t : tree) : Prop := StronglySorted str_lt (keys t).

(** The invariants 2 to 5 of the package (invariant 1 is the type of
    [Color]). *)
Definition rb_tree (t : tree) : Prop :=
  color_of t = black ∧ noRedRed t ∧ (∃ n, black_paths t n) ∧ sorted_keys t.

Definition blacken (t : tree) : tree :=
  match t with
  | Leaf => Leaf
  | Br a _ l k v r => Br a black l k v r
  end.

Definition redden (t : tree) : tree :=
  match t with
  | Leaf => Leaf
  | Br a _ l k v r => Br a red l k v r
  end.

Fixpoint noRedRed_ctx (ctx : list frame) : Prop :=
  match ctx with
  | [] => True
  | f :: ctx' =>
      noRedRed (fsib f)
      ∧ (fcolor f = red → color_of (fsib f) = black ∧ ctx_color ctx' = black)
      ∧ noRedRed_ctx ctx'
  end.

(** [balanced_ctx ctx n]: the context is balanced around a hole of black
    height [n]. *)
Fixpoint balanced_ctx (ctx : list frame) (n : nat) : Prop :=
  match ctx with
  | [] => True
  | f :: ctx' =>
      bh (fsib f) = n ∧ balanced (fsib f)
      ∧ balanced_ctx ctx' (n + (if fcolor f then 0 else 1))%nat
  end.

(** The color of the root of [plug ctx t] when [ctx] is not empty. *)
Fixpoint ctx_root_color (ctx : list frame) : color :=
  match ctx with
  | [] => black
  | [f] => fcolor f
  | _ :: ctx' => ctx_root_color ctx'
  end.

(** ** The loop of [insertFixup] *)

(** What holds of the tree around [insertFixup]'s [node] (the root of [t])
    at the head of each iteration: the only possible defects are that [t]
    and its parent are both red, or that [t] is a red root. *)
Definition ins_inv (ctx : list frame) (t : tree) : Prop :=
  color_of t = red ∧ noRedRed t ∧ noRedRed_ctx ctx
  ∧ balanced t ∧ balanced_ctx ctx (bh t)
  ∧ (ctx ≠ [] → ctx_root_color ctx = black).

(** The iterations left are bounded by this measure of the path above
    [node]. *)
Definition fix_measure (ctx : list frame) : nat :=
  (2 * length ctx +
   match ctx with
   | f1 :: f2 :: _ =>
       match fdir f1, fdir f2 with
       | DR, DL => 1
       | _, _ => 0
       end
   | _ => 0
   end)%nat.

(** ** Descent by key *)

Fixpoint height (t : tree) : nat :=
  match t with
  | Leaf => O
  | Br _ _ l _ _ r => S (Nat.max (height l) (height r))
  end.

(** The path taken by the descent of [Search] and [Insert] below a context,
    and the subtree where it stops: the node with the key, or the missing
    child where the key belongs. *)
Fixpoint descend (key : string) (ctx : list frame) (t : tree) : list frame * tree :=
  match t with
  | Leaf => (ctx, Leaf)
  | Br a c l k v r =>
      if key_lt key k then descend key (mkFrame DL a c k v r :: ctx) l
      else if key_lt k key then descend key (mkFrame DR a c k v l :: ctx) r
      else (ctx, t)
  end.

(** The key lies between what is left and what is right of the hole. *)
Definition ctx_bounds (key : string) (ctx : list frame) : Prop :=
  Forall (λ kv, str_lt kv.1 key) (ctx_before ctx)
  ∧ Forall (λ kv, str_lt key kv.1) (ctx_after ctx).

(** The value stored under a key. *)
Fixpoint tree_lookup (key : string) (t : tree) : option V :=
  match t with
  | Leaf => None
  | Br _ _ l k v r =>
      if key_lt key k then tree_lookup key l
      else if key_lt k key then tree_lookup key r
      else Some v
  end.

(** ** The sorted association list a tree stands for *)

(** Insertion into a list sorted by key; an equal key has its value
    replaced. *)
Fixpoint list_put (key : string) (value : V) (l : list (string * V)) : list (string * V) :=
  match l with
  | [] => [(key, value)]
  | (k, v) :: l' =>
      if key_lt key k then (key, value) :: l
      else if key_lt k key then (k, v) :: list_put key value l'
      else (key, value) :: l'
  end.

Definition list_remove (key : string) (l : list (string * V)) : list (string * V) :=
  filter (λ kv, kv.1 ≠ key) l.

(** ** The loop of [deleteFixup] *)

(** What [deleteFixup_body] does once the sibling is known to be black,
    for [x] on the left and on the right of [parent]. *)
Definition del_rest_left (parent sibling : ptr) : Comp (State V) (ptr * ptr) :=
  let* sl := get Left sibling in
  let* slc := colorOf sl in
  let* both :=
    (if slc then ret false
     else
       let* sr := get Right sibling in
       let* src := colorOf sr in
       ret (negb src)) in
  if both then
    setColor sibling red ;;
    let x := parent in
    let* parent := get Parent x in
    ret (x, parent)
  else
    let* sr := get Right sibling in
    let* src := colorOf sr in
    let* sibling :=
      (if src then ret sibling
       else
         (let* sl := get Left sibling in
          match sl with
          | None => ret tt
          | Some _ => setColor sl black
          end) ;;
         setColor sibling red ;;
         rotateRight sibling ;;
         rightOf parent) in
    (let* pc := colorOf parent in setColor sibling pc) ;;
    setColor parent black ;;
    (let* sr := get Right sibling in
     match sr with
     | None => ret tt
     | Some _ => setColor sr black
     end) ;;
    rotateLeft parent ;;
    let* x := getRoot in
    ret (x, None).

Definition del_rest_right (parent sibling : ptr) : Comp (State V) (ptr * ptr) :=
  let* sl := get Left sibling in
  let* slc := colorOf sl in
  let* both :=
    (if slc then ret false
     else
       let* sr := get Right sibling in
       let* src := colorOf sr in
       ret (negb src)) in
  if both then
    setColor sibling red ;;
    let x := parent in
    let* parent := get Parent x in
    ret (x, parent)
  else
    let* sl := get Left sibling in
    let* slc := colorOf sl in
    let* sibling :=
      (if slc then ret sibling
       else
         (let* sr := get Right sibling in
          match sr with
          | None => ret tt
          | Some _ => setColor sr black
          end) ;;
         setColor sibling red ;;
         rotateLeft sibling ;;
         leftOf parent) in
    (let* pc := colorOf parent in setColor sibling pc) ;;
    setColor parent black ;;
    (let* sl := get Left sibling in
     match sl with
     | None => ret tt
     | Some _ => setColor sl black
     end) ;;
    rotateRight parent ;;
    let* x := getRoot in
    ret (x, None).

(** What holds at the head of each iteration of [deleteFixup]: the subtree
    [x] is one black node short of what the context needs; [x] may be red
    below a red parent. *)
Definition del_inv (ctx : list frame) (x : tree) : Prop :=
  noRedRed_ctx ctx ∧ noRedRed (blacken x)
  ∧ balanced x ∧ balanced_ctx ctx (S (bh x))
  ∧ (ctx ≠ [] → ctx_root_color ctx = black).

Definition del_measure (ctx : list frame) (x : tree) : nat :=
  (2 * length ctx + (if color_of x then 0 else 1))%nat.

(** ** Unlinking a node *)

(** The leftmost node of a tree with the path to it: what [minimum]
    walks. *)
Fixpoint min_ctx (ctx : list frame) (t : tree) : list frame * tree :=
  match t with
  | Leaf => (ctx, Leaf)
  | Br a c l k v r =>
      match l with
      | Leaf => (ctx, t)
      | Br _ _ _ _ _ _ => min_ctx (mkFrame DL a c k v r :: ctx) l
      end
  end.

(** What the structural part of [Delete] does to the subtree [t] found
    below [ctx]: the recorded original color, and the context and the
    subtree [x] that takes the place of the node that leaves its
    position. *)
Definition splice_out (ctx : list frame) (t : tree) : color * list frame * tree :=
  match t with
  | Leaf => (black, ctx, Leaf)
  | Br a c l k v r =>
      match l, r with
      | Leaf, _ => (c, ctx, r)
      | _, Leaf => (c, ctx, l)
      | _, _ =>
          match min_ctx [] r with
          | (sctx, Br sa sc _ sk sv sr) =>
              (sc, sctx ++ mkFrame DR sa c sk sv l :: ctx, sr)
          | (_, Leaf) => (c, ctx, Leaf)
          end
      end
  end.

(** The invariants 2 to 4 together. *)
Definition rb_shape (t : tree) : Prop :=
  color_of t = black ∧ noRedRed t ∧ balanced t.

(** ** What a sequence of operations should leave in the tree *)

Definition model_step (o : op V) (l : list (string * V)) : list (string * V) :=
  match o with
  | OpInsert k v => list_put k v l
  | OpDelete k => list_remove k l
  end.

Definition model (ops : list (op V)) : list (string * V) :=
  fold_left (λ l o, model_step o l) ops [].

(** ** Nodes reached from the root, and their parent links *)

Inductive reachable (s : State V) : positive → Prop :=
| reach_root a : root s = Some a → reachable s a
| reach_left a n b :
    reachable s a → heap s !! a = Some n → Left n = Some b → reachable s b
| reach_right a n b :
    reachable s a → heap s !! a = Some n → Right n = Some b → reachable s b.

Definition parent_links (s : State V) : Prop :=
  (∀ a, root s = Some a → ∃ n, heap s !! a = Some n ∧ Parent n = None)
  ∧ (∀ a, reachable s a →
       ∃ n, heap s !! a = Some n
         ∧ (∀ b, Left n = Some b → ∃ m, heap s !! b = Some m ∧ Parent m = Some a)
         ∧ (∀ b, Right n = Some b → ∃ m, heap s !! b = Some m ∧ Parent m = Some a)
         ∧ (∀ p, Parent n = Some p →
              ∃ m, heap s !! p = Some m
                ∧ ((Left m = Some a ∧ Right m ≠ Some a)
                   ∨ (Left m ≠ Some a ∧ Right m = Some a)))).

(** ** Counting what the operations did *)

(** The keys that occur in some [Insert] of the sequence, each once. *)
Definition inserted_keys (ops : list (op V)) : list string :=
  remove_dups (omap (λ o, match o with OpInsert k _ => Some k | OpDelete _ => None end) ops).

(** Runs the operations and counts the calls of [Insert] whose key was
    not found by [Search] just before the call, and the calls of [Delete]
    that returned true. *)
Fixpoint run_counts (ops : list (op V)) (s : State V) : result (State V * nat * nat) :=
  match ops with
  | [] => Ok (s, O, O)
  | OpInsert k v :: ops' =>
      match Search k s with
      | Ok (found, _) =>
          match Insert k v s with
          | Ok (_, s') =>
              match run_counts ops' s' with
              | Ok (s'', i, d) =>
                  Ok (s'', ((if found is None then 1 else 0) + i)%nat, d)
              | Panic => Panic
              | OutOfFuel => OutOfFuel
              end
          | Panic => Panic
          | OutOfFuel => OutOfFuel
          end
      | Panic => Panic
      | OutOfFuel => OutOfFuel
      end
  | OpDelete k :: ops' =>
      match Delete k s with
      | Ok (b, s') =>
          match run_counts ops' s' with
          | Ok (s'', i, d) => Ok (s'', i, ((if b then 1 else 0) + d)%nat)
          | Panic => Panic
          | OutOfFuel => OutOfFuel
          end
      | Panic => Panic
      | OutOfFuel => OutOfFuel
      end
  end.

(** The visitor that writes down what it is given. *)
Definition log_visit (k : string) (v : V) (acc : list (string * V)) : list (string * V) :=
  acc ++ [(k, v)].

(** What section 4.3 of the specification says happens once the lookup
    found [node]: the structural part records the original color, the fixup
    runs on (x, replacementParent) exactly when that color is black, and the
    count is decremented.  It is compared with [Delete] itself in C6. *)
Definition delete_found (fuel : nat) (node : ptr) (s : State V) : result (bool * State V) :=
  match delete_splice fuel node s with
  | Ok ((originalColor, x, replacementParent), s1) =>
      if originalColor then
        Ok (true, mkState (heap s1) (root s1) (wrap_int (size s1 - 1)))
      else
        match deleteFixup fuel x replacementParent s1 with
        | Ok (_, s2) => Ok (true, mkState (heap s2) (root s2) (wrap_int (size s2 - 1)))
        | Panic => Panic
        | OutOfFuel => OutOfFuel
        end
  | Panic => Panic
  | OutOfFuel => OutOfFuel
  end.

(** ** Weakest preconditions *)

Definition wp {A} (m : Comp (State V) A) (s : State V) (Q : A → State V → Prop) : Prop :=
  ∃ a s', m s = Ok (a, s') ∧ Q a s'.

End Abstraction.

(** * The history of a key *)

Section Histories.

Context {V : Type}.

(** What one operation does to the binding of [key]: an [Insert] of the
    key binds it to the value, a [Delete] of the key unbinds it, every
    other operation leaves it. *)
Definition binding_step (key : string) (b : option V) (o : op V) : option V :=
  match o with
  | OpInsert k v => if bool_decide (k = key) then Some v else b
  | OpDelete k => if bool_decide (k = key) then None else b
  end.

(** The value most recently inserted under [key] and not deleted since. *)
Definition last_binding (ops : list (op V)) (key : string) : option V :=
  fold_left (binding_step key) ops None.

(** What the callers do with the result of [Search]: read the value of the
    node found ([if node := tree.Search(k); node != nil { ... node.Value }]). *)
Definition search_value (key : string) (s : State V) : result (option V) :=
  match Search key s with
  | Ok (node, s') =>
      match node with
      | None => Ok None
      | Some _ =>
          match get Value node s' with
          | Ok (v, _) => Ok (Some v)
          | Panic => Panic
          | OutOfFuel => OutOfFuel
          end
      end
  | Panic => Panic
  | OutOfFuel => OutOfFuel
  end.

End Histories.

(** * What the relinking code keeps of the memory *)

Section Frames.

Context {V : Type}.

(** A pointer to one of the cells [P], or nil. *)
Definition inP (P : gset positive) (p : ptr) : Prop :=
  match p with
  | None => True
  | Some a => a ∈ P
  end.

(** The state [s] against an earlier state [s0]: the same cells exist, each
    with the key and the value it had, and the root pointer and the links
    of the cells [P] stay within [P]. *)
Definition frame_inv (P : gset positive) (s0 s : State V) : Prop :=
  dom (heap s) = dom (heap s0)
  ∧ (∀ a n, heap s0 !! a = Some n →
       ∃ n', heap s !! a = Some n' ∧ Key n' = Key n ∧ Value n' = Value n)
  ∧ inP P (root s)
  ∧ (∀ a n, a ∈ P → heap s !! a = Some n →
       inP P (Parent n) ∧ inP P (Left n) ∧ inP P (Right n)).

(** [m] keeps [frame_inv] and returns a value in [Q], whenever it
    returns. *)
Definition keeps {A} (P : gset positive) (s0 : State V)
    (m : Comp (State V) A) (Q : A → Prop) : Prop :=
  ∀ s a s', frame_inv P s0 s → m s = Ok (a, s') → frame_inv P s0 s' ∧ Q a.

End Frames.

Section InsertParts.

Context {V : Type}.

(** [Insert] after the allocation of [node] below [parent]: the link from
    the parent (or the root pointer), the fixup and the count. *)
Definition insert_link (fuel : nat) (parent node : ptr) : Comp (State V) unit :=
  (match parent with
   | None => setRoot node
   | Some _ =>
       let* nk := get Key node in
       let* pk := get Key parent in
       if key_lt nk pk then setLeft parent node
       else setRight parent node
   end) ;;
  insertFixup fuel node ;;
  let* n := getSize in
  setSize (wrap_int (n + 1)).

End InsertParts.

Section FixupParts.

Context {V : Type}.

(** The test [node == node.Parent.Parent.Right] that guards Case 2 in the
    left branch of [insertFixup]. *)
Definition case2_test (node : ptr) : Comp (State V) bool :=
  let* p := get Parent node in
  let* g := get Parent p in
  let* gr := get Right g in
  ret (ptr_eqb node gr).

End FixupParts.

Section PrintParts.

Context {V : Type}.

(** The line that [printNode] writes for a node at [depth]. *)
Definition print_line (show : V → string) (depth : nat) (c : color)
    (k : string) (v : V) : string :=
  (repeat_indent depth ++ "[" ++ colorString c ++ "] "
     ++ k ++ " => " ++ show v ++ String (ascii_of_nat 10) "")%string.

(** The nodes of a tree from right to left, each with its depth below
    [depth]. *)
Fixpoint rows (t : @tree V) (depth : nat) : list (nat * color * string * V) :=
  match t with
  | Leaf => []
  | Br _ c l k v r => rows r (S depth) ++ (depth, c, k, v) :: rows l (S depth)
  end.

(** The lines of a list of rows, one after the other. *)
Fixpoint render (show : V → string) (l : list (nat * color * string * V)) : string :=
  match l with
  | [] => ""%string
  | (depth, c, k, v) :: l' => (print_line show depth c k v ++ render show l')%string
  end.

End PrintParts.

(** * A tree of four nodes

    The tree of "b", "a", "c", "d" inserted in that order: a black root "b",
    black children "a" and "c", and the red node "d" below "c". *)

Definition deep_tree : @tree Z :=
  Br 1 black (Br 2 black Leaf "a" 1 Leaf) "b" 2
     (Br 3 black Leaf "c" 3 (Br 4 red Leaf "d" 4 Leaf)).

Definition deep_state : State Z :=
  mkState
    (<[4%positive := mkNode "d" 4 red (Some 3%positive) None None]>
       (<[3%positive := mkNode "c" 3 black (Some 1%positive) None (Some 4%positive)]>
          (<[2%positive := mkNode "a" 1 black (Some 1%positive) None None]>
             (<[1%positive := mkNode "b" 2 black None (Some 2%positive) (Some 3%positive)]> ∅))))
    (Some 1%positive) 4.

(** * Two trees in need of a fixup

    A tree with a red node "a" below a red parent "b", as [Insert] leaves it
    before [insertFixup]; and a tree whose left side is one black node
    short, as [Delete] leaves it before [deleteFixup]. *)

Definition red_red_ctx : list (@frame Z) :=
  [mkFrame DL 2 red "b" 2 Leaf; mkFrame DL 1 black "c" 3 Leaf].

Definition red_red_node : @tree Z := Br 3 red Leaf "a" 1 Leaf.

Definition red_red_state : State Z :=
  mkState
    (<[3%positive := mkNode "a" 1 red (Some 2%positive) None None]>
       (<[2%positive := mkNode "b" 2 red (Some 1%positive) (Some 3%positive) None]>
          (<[1%positive := mkNode "c" 3 black None (Some 2%positive) None]> ∅)))
    (Some 1%positive) 2.

Definition short_ctx : list (@frame Z) :=
  [mkFrame DL 1 black "b" 2 (Br 3 black Leaf "c" 3 Leaf)].

Definition short_state : State Z :=
  mkState
    (<[3%positive := mkNode "c" 3 black (Some 1%positive) None None]>
       (<[1%positive := mkNode "b" 2 black None None (Some 3%positive)]> ∅))
    (Some 1%positive) 2.

(** * A concrete tree

    The tree of "b", "a", "c" inserted in that order, with integer values:
    a black root "b" with two red children.  It serves as the input at which
    the conditional statements below are instantiated. *)

Definition demo_tree : @tree Z :=
  Br 1 black (Br 2 red Leaf "a" 1 Leaf) "b" 2 (Br 3 red Leaf "c" 3 Leaf).

(** The program state that holds it: three cells and a count of 3. *)
Definition demo_state : State Z :=
  mkState
    (<[3%positive := mkNode "c" 3 red (Some 1%positive) None None]>
       (<[2%positive := mkNode "a" 1 red (Some 1%positive) None None]>
          (<[1%positive := mkNode "b" 2 black None (Some 2%positive) (Some 3%positive)]> ∅)))
    (Some 1%positive) 3.

(** Insert, delete and insert again of one key. *)
Definition reinsert_ops : list (op Z) :=
  [OpInsert "a" 1; OpDelete "a"; OpInsert "a" 2].

(** * String order *)

Lemma ascii_compare_refl (a : ascii) : Ascii.compare a a = Eq.
Proof. unfold Ascii.compare. apply N.compare_refl. Qed.

Lemma string_compare_refl (s : string) : String.compare s s = Eq.
Proof. induction s as [|a s IH]; simpl; [done|]. by rewrite ascii_compare_refl. Qed.

Lemma ascii_compare_eq (a b : ascii) : Ascii.compare a b = Eq → a = b.
Proof. apply Ascii.compare_eq_iff. Qed.

Lemma ascii_compare_lt_trans (a b c : ascii) :
  Ascii.compare a b = Lt → Ascii.compare b c = Lt → Ascii.compare a c = Lt.
Proof.
  unfold Ascii.compare. rewrite !N.compare_lt_iff. lia.
Qed.

Lemma string_compare_lt_trans (s1 s2 s3 : string) :
  String.compare s1 s2 = Lt → String.compare s2 s3 = Lt → String.compare s1 s3 = Lt.
Proof.
  revert s2 s3. induction s1 as [|a s1 IH]; intros [|b s2] [|c s3]; simpl; try done.
  destruct (Ascii.compare a b) eqn:Hab; try done.
  - apply ascii_compare_eq in Hab as ->.
    destruct (Ascii.compare b c) eqn:Hbc; try done. apply IH.
  - intros _. destruct (Ascii.compare b c) eqn:Hbc; try done.
    + apply ascii_compare_eq in Hbc as ->. by rewrite Hab.
    + by rewrite (ascii_compare_lt_trans a b c).
Qed.

Lemma str_lt_irrefl (a : string) : ¬ str_lt a a.
Proof. unfold str_lt, key_lt, String.ltb. by rewrite string_compare_refl. Qed.

Lemma str_lt_trans (a b c : string) : str_lt a b → str_lt b c → str_lt a c.
Proof.
  unfold str_lt, key_lt, String.ltb.
  destruct (String.compare a b) eqn:Hab; try done.
  destruct (String.compare b c) eqn:Hbc; try done.
  by rewrite (string_compare_lt_trans a b c).
Qed.

Lemma str_lt_total (a b : string) : key_lt a b = false → key_lt b a = false → a = b.
Proof.
  unfold key_lt, String.ltb. rewrite (String.compare_antisym a b).
  destruct (String.compare b a) eqn:Hba; simpl; try done.
  intros _ _. symmetry. by apply String.compare_eq_iff.
Qed.

Lemma str_lt_asym (a b : string) : str_lt a b → key_lt b a = false.
Proof.
  intros H. destruct (key_lt b a) eqn:E; [|done].
  destruct (str_lt_irrefl a). by apply (str_lt_trans a b a).
Qed.

#[local] Instance str_lt_strict : StrictOrder str_lt.
Proof. split; [intros a; apply str_lt_irrefl | intros a b c; apply str_lt_trans]. Qed.



(** * Rules for the monad *)

Section Rules.

Context {V : Type}.
Implicit Types (s : State V) (h : gmap positive (Node V)) (t l r : @tree V)
  (ctx : list (@frame V)) (p pp : ptr) (a b : positive).

Lemma wp_ret {A} (x : A) s (Q : A → State V → Prop) : Q x s → wp (ret x) s Q.
Proof. intros HQ. by exists x, s. Qed.

Lemma wp_bind {A B} (m : Comp (State V) A) (k : A → Comp (State V) B) s Q :
  wp m s (λ x s', wp (k x) s' Q) → wp (bind m k) s Q.
Proof.
  intros (x & s' & Hm & y & s'' & Hk & HQ). exists y, s''.
  unfold bind. by rewrite Hm.
Qed.

Lemma wp_mono {A} (m : Comp (State V) A) s (Q Q' : A → State V → Prop) :
  wp m s Q → (∀ x s', Q x s' → Q' x s') → wp m s Q'.
Proof. intros (x & s' & Hm & HQ) HQQ. exists x, s'. auto. Qed.

Lemma wp_get {A} (field : Node V → A) a n s Q :
  heap s !! a = Some n → Q (field n) s → wp (get field (Some a)) s Q.
Proof.
  intros Hl HQ. exists (field n), s. split; [|done].
  unfold get, bind, load. by rewrite Hl.
Qed.

Lemma wp_store a n (f : Node V → Node V) s Q :
  heap s !! a = Some n →
  Q tt (mkState (<[a := f n]> (heap s)) (root s) (size s)) →
  wp (store (Some a) f) s Q.
Proof.
  intros Hl HQ. eexists tt, _. split; [|exact HQ].
  unfold store. by rewrite Hl.
Qed.

Lemma wp_getRoot s Q : Q (root s) s → wp getRoot s Q.
Proof. intros HQ. by exists (root s), s. Qed.

Lemma wp_setRoot p s Q :
  Q tt (mkState (heap s) p (size s)) → wp (setRoot p) s Q.
Proof. intros HQ. by eexists tt, _. Qed.

Lemma wp_getSize s Q : Q (size s) s → wp getSize s Q.
Proof. intros HQ. by exists (size s), s. Qed.

Lemma wp_setSize z s Q :
  Q tt (mkState (heap s) (root s) z) → wp (setSize z) s Q.
Proof. intros HQ. by eexists tt, _. Qed.

Lemma wp_colorOf_nil s Q : Q black s → wp (colorOf None) s Q.
Proof. apply wp_ret. Qed.

Lemma wp_colorOf a n s Q :
  heap s !! a = Some n → Q (Color n) s → wp (colorOf (Some a)) s Q.
Proof. apply wp_get. Qed.

(** * Trees and heaps *)

Lemma rootp_addrs t a : rootp t = Some a → a ∈ addrs t.
Proof. destruct t; simpl; [done|]. intros [= ->]. apply list_elem_of_here. Qed.

Lemma rootp_None t : rootp t = None → t = Leaf.
Proof. by destruct t. Qed.

Lemma repr_ext h h' t pp :
  (∀ a, a ∈ addrs t → h' !! a = h !! a) → repr h t pp → repr h' t pp.
Proof.
  revert pp. induction t as [|a c l IHl k v r IHr]; intros pp Hag; simpl; [done|].
  intros (Ha & Hl & Hr). split_and!.
  - rewrite Hag; [done|]. simpl. apply list_elem_of_here.
  - apply IHl; [|done]. intros x Hx. apply Hag. simpl.
    rewrite elem_of_cons, elem_of_app. auto.
  - apply IHr; [|done]. intros x Hx. apply Hag. simpl.
    rewrite elem_of_cons, elem_of_app. auto.
Qed.

Lemma repr_insert_ne h t pp a n :
  a ∉ addrs t → repr h t pp → repr (<[a := n]> h) t pp.
Proof.
  intros Hn. apply repr_ext. intros x Hx. apply lookup_insert_ne. by intros ->.
Qed.

Lemma repr_ctx_ext h h' ctx p :
  (∀ a, a ∈ ctx_addrs ctx → h' !! a = h !! a) → repr_ctx h ctx p → repr_ctx h' ctx p.
Proof.
  revert p. induction ctx as [|f ctx IH]; intros p Hag; simpl; [done|].
  intros (Ha & Hs & Hc). split_and!.
  - rewrite Hag; [done|]. simpl. apply list_elem_of_here.
  - eapply repr_ext; [|done]. intros x Hx. apply Hag. simpl.
    rewrite elem_of_cons, elem_of_app. auto.
  - apply IH; [|done]. intros x Hx. apply Hag. simpl.
    rewrite elem_of_cons, elem_of_app. auto.
Qed.

Lemma repr_ctx_insert_ne h ctx p a n :
  a ∉ ctx_addrs ctx → repr_ctx h ctx p → repr_ctx (<[a := n]> h) ctx p.
Proof.
  intros Hn. apply repr_ctx_ext. intros x Hx. apply lookup_insert_ne. by intros ->.
Qed.

Lemma repr_dom h t pp a : repr h t pp → a ∈ addrs t → is_Some (h !! a).
Proof.
  revert pp. induction t as [|b c l IHl k v r IHr]; intros pp; simpl.
  - intros _ Hx. by apply not_elem_of_nil in Hx.
  - intros (Hb & Hl & Hr) Hx. apply elem_of_cons in Hx as [->|Hx]; [by eexists|].
    apply elem_of_app in Hx as [Hx|Hx]; eauto.
Qed.

Lemma repr_plug h ctx t :
  repr h (plug ctx t) None ↔ repr h t (ctx_parent ctx) ∧ repr_ctx h ctx (rootp t).
Proof.
  revert t. induction ctx as [|f ctx IH]; intros t; simpl; [naive_solver|].
  rewrite IH. unfold fill, frame_node. destruct (fdir f); simpl; naive_solver.
Qed.

Lemma rootp_plug ctx t : rootp (plug ctx t) = ctx_root ctx (rootp t).
Proof.
  revert t. induction ctx as [|f ctx IH]; intros t; simpl; [done|].
  rewrite IH. unfold fill. by destruct (fdir f).
Qed.

Lemma addrs_plug ctx t : addrs (plug ctx t) ≡ₚ addrs t ++ ctx_addrs ctx.
Proof.
  revert t. induction ctx as [|f ctx IH]; intros t; simpl.
  - by rewrite app_nil_r.
  - rewrite IH. unfold fill. destruct (fdir f); simpl; solve_Permutation.
Qed.

Lemma elems_plug ctx t :
  elems (plug ctx t) = ctx_before ctx ++ elems t ++ ctx_after ctx.
Proof.
  revert t. induction ctx as [|f ctx IH]; intros t; simpl.
  - by rewrite app_nil_r.
  - rewrite IH. unfold fill. destruct (fdir f); simpl.
    + rewrite ?app_nil_r, <- ?app_assoc. simpl. by rewrite <- ?app_assoc.
    + rewrite ?app_nil_r, <- ?app_assoc. simpl. by rewrite <- ?app_assoc.
Qed.

Lemma plug_app ctx1 ctx2 t : plug (ctx1 ++ ctx2) t = plug ctx2 (plug ctx1 t).
Proof. revert t. induction ctx1 as [|f ctx1 IH]; intros t; simpl; [done|apply IH]. Qed.

(** Two trees represented at the same pointer are the same tree. *)
Lemma repr_inj h t t' pp pp' :
  repr h t pp → repr h t' pp' → rootp t = rootp t' → t = t'.
Proof.
  revert t' pp pp'. induction t as [|a c l IHl k v r IHr]; intros [|a' c' l' k' v' r'] pp pp'; simpl; try done.
  intros (Ha & Hl & Hr) (Ha' & Hl' & Hr') [= <-].
  rewrite Ha in Ha'. injection Ha' as -> -> -> -> Hrl Hrr.
  f_equal; [eapply IHl|eapply IHr]; eauto.
Qed.

(** * Invariants and contexts *)

Lemma black_paths_bh t n : black_paths t n ↔ balanced t ∧ bh t = n.
Proof.
  split.
  - induction 1 as [|a l k v r n _ [IHl1 IHl2] _ [IHr1 IHr2]|a l k v r n _ [IHl1 IHl2] _ [IHr1 IHr2]]; simpl.
    + done.
    + split_and!; auto; lia.
    + split_and!; auto; lia.
  - revert n. induction t as [|a c l IHl k v r IHr]; intros n; simpl.
    + intros [_ <-]. constructor.
    + intros ((Hb & Hl & Hr) & <-). destruct c.
      * replace (bh l + 0)%nat with (bh l) by lia. constructor; [by apply IHl|apply IHr; split; [done|lia]].
      * replace (bh l + 1)%nat with (S (bh l)) by lia. constructor; [by apply IHl|apply IHr; split; [done|lia]].
Qed.

Lemma balanced_black_paths t : balanced t ↔ ∃ n, black_paths t n.
Proof.
  split.
  - intros H. exists (bh t). by apply black_paths_bh.
  - intros [n H]. by apply black_paths_bh in H as [H _].
Qed.

Lemma balanced_plug ctx t :
  balanced (plug ctx t) ↔ balanced t ∧ balanced_ctx ctx (bh t).
Proof.
  revert t. induction ctx as [|f ctx IH]; intros t; simpl; [naive_solver|].
  rewrite IH. unfold fill. destruct (fdir f); simpl; [naive_solver|].
  split.
  - intros ((Hb & Hl & Hr) & Hc). rewrite Hb in Hc. naive_solver.
  - intros (Hr & Hb & Hl & Hc). rewrite Hb. naive_solver.
Qed.

Lemma noRedRed_plug ctx t :
  noRedRed (plug ctx t) ↔
  noRedRed t ∧ noRedRed_ctx ctx ∧ (ctx_color ctx = red → color_of t = black).
Proof.
  revert t. induction ctx as [|f ctx IH]; intros t; simpl; [naive_solver|].
  rewrite IH. unfold fill, red, black.
  destruct (fdir f); simpl;
    destruct (fcolor f), (ctx_color ctx), (color_of t), (color_of (fsib f));
    intuition discriminate.
Qed.

Lemma color_of_plug ctx t :
  color_of (plug ctx t) = match ctx with [] => color_of t | _ => ctx_root_color ctx end.
Proof.
  revert t. induction ctx as [|f ctx IH]; intros t; simpl; [done|].
  rewrite IH. destruct ctx; [|done]. unfold fill. by destruct (fdir f).
Qed.

End Rules.


Arguments wp : simpl never.

(** * Distinct addresses *)

Lemma NoDup_sub {A} (L M : list A) : NoDup L → M ⊆+ L → NoDup M.
Proof.
  intros Hnd Hsub. apply submseteq_Permutation in Hsub as [K HK].
  rewrite HK in Hnd. by apply NoDup_app in Hnd as [H _].
Qed.

Lemma NoDup_sub_ne {A} (L : list A) (a b : A) : NoDup L → [a; b] ⊆+ L → a ≠ b.
Proof.
  intros Hnd Hsub Heq. subst b.
  pose proof (NoDup_sub _ _ Hnd Hsub) as H.
  apply NoDup_cons in H as [H _]. apply H. apply list_elem_of_here.
Qed.

Lemma NoDup_sub_notin {A} (L M : list A) (a : A) : NoDup L → a :: M ⊆+ L → a ∉ M.
Proof.
  intros Hnd Hsub. pose proof (NoDup_sub _ _ Hnd Hsub) as H.
  by apply NoDup_cons in H as [H _].
Qed.

Lemma ptr_eqb_refl (p : ptr) : ptr_eqb p p = true.
Proof. unfold ptr_eqb. by apply bool_decide_eq_true. Qed.

Lemma ptr_eqb_ne (p q : ptr) : p ≠ q → ptr_eqb p q = false.
Proof. unfold ptr_eqb. by apply bool_decide_eq_false. Qed.

Lemma ptr_eqb_Some_ne (a b : positive) : a ≠ b → ptr_eqb (Some a) (Some b) = false.
Proof. intros H. apply ptr_eqb_ne. congruence. Qed.

Lemma ptr_eqb_Some_None (a : positive) : ptr_eqb (Some a) None = false.
Proof. by apply ptr_eqb_ne. Qed.

Lemma ptr_eqb_None_Some (a : positive) : ptr_eqb None (Some a) = false.
Proof. by apply ptr_eqb_ne. Qed.

Lemma ptr_eqb_rootp {V} (a : positive) (t : @tree V) :
  a ∉ addrs t → ptr_eqb (Some a) (rootp t) = false.
Proof.
  intros H. apply ptr_eqb_ne. intros Heq. symmetry in Heq.
  by apply rootp_addrs in Heq.
Qed.

Lemma ptr_eqb_rootp' {V} (a : positive) (t : @tree V) :
  a ∉ addrs t → ptr_eqb (rootp t) (Some a) = false.
Proof.
  intros H. apply ptr_eqb_ne. intros Heq.
  by apply rootp_addrs in Heq.
Qed.

(** [addr_ne] and [addr_notin] read distinctness off a hypothesis
    [NoDup L], where [L] lists the cells of the tree at hand. *)
Ltac addr_ne :=
  lazymatch goal with
  | H : NoDup ?L |- ?a ≠ ?b =>
      apply (NoDup_sub_ne L a b H); solve_submseteq
  | H : NoDup ?L |- Some ?a ≠ Some ?b =>
      let E := fresh in intros E; injection E; apply (NoDup_sub_ne L a b H); solve_submseteq
  end.

Ltac addr_notin :=
  lazymatch goal with
  | H : NoDup ?L |- ?a ∉ ?M =>
      apply (NoDup_sub_notin L M a H); simpl; solve_submseteq
  end.

Ltac addr_nodup :=
  lazymatch goal with
  | H : NoDup ?L |- NoDup ?M =>
      apply (NoDup_sub L M H); simpl; solve_submseteq
  end.

(** [hlookup] evaluates a lookup in a heap built by insertions. *)
Ltac hlookup :=
  repeat first
    [ rewrite lookup_insert_eq
    | rewrite lookup_insert_ne by addr_ne ];
  first [ eassumption | reflexivity ].

Ltac solve_repr :=
  repeat first
    [ apply repr_insert_ne; [addr_notin|]
    | apply repr_ctx_insert_ne; [addr_notin|] ];
  eassumption.

Ltac ptr_simpl :=
  repeat first
    [ rewrite ptr_eqb_refl
    | rewrite ptr_eqb_Some_None
    | rewrite ptr_eqb_None_Some
    | rewrite ptr_eqb_Some_ne by addr_ne
    | rewrite ptr_eqb_rootp by addr_notin
    | rewrite ptr_eqb_rootp' by addr_notin ].

(** One step of symbolic execution on a heap whose cells are known. *)
Ltac wp_step :=
  lazymatch goal with
  | |- wp (bind _ _) _ _ => apply wp_bind
  | |- wp (ret _) _ _ => apply wp_ret
  | |- wp (get _ (Some _)) _ _ => eapply wp_get; [cbn [heap root size Key Value Color Parent Left Right]; hlookup|cbn [heap root size Key Value Color Parent Left Right]]
  | |- wp (setColor (Some _) _) _ _ => eapply wp_store; [cbn [heap root size Key Value Color Parent Left Right]; hlookup|cbn [heap root size Key Value Color Parent Left Right]]
  | |- wp (setValue (Some _) _) _ _ => eapply wp_store; [cbn [heap root size Key Value Color Parent Left Right]; hlookup|cbn [heap root size Key Value Color Parent Left Right]]
  | |- wp (setParent (Some _) _) _ _ => eapply wp_store; [cbn [heap root size Key Value Color Parent Left Right]; hlookup|cbn [heap root size Key Value Color Parent Left Right]]
  | |- wp (setLeft (Some _) _) _ _ => eapply wp_store; [cbn [heap root size Key Value Color Parent Left Right]; hlookup|cbn [heap root size Key Value Color Parent Left Right]]
  | |- wp (setRight (Some _) _) _ _ => eapply wp_store; [cbn [heap root size Key Value Color Parent Left Right]; hlookup|cbn [heap root size Key Value Color Parent Left Right]]
  | |- wp getRoot _ _ => apply wp_getRoot; cbn [heap root size Key Value Color Parent Left Right]
  | |- wp (setRoot _) _ _ => apply wp_setRoot; cbn [heap root size Key Value Color Parent Left Right]
  | |- wp getSize _ _ => apply wp_getSize; cbn [heap root size Key Value Color Parent Left Right]
  | |- wp (setSize _) _ _ => apply wp_setSize; cbn [heap root size Key Value Color Parent Left Right]
  | |- wp (colorOf None) _ _ => apply wp_colorOf_nil
  | |- wp (colorOf (Some _)) _ _ => eapply wp_colorOf; [cbn [heap root size Key Value Color Parent Left Right]; hlookup|cbn [heap root size Key Value Color Parent Left Right]]
  | |- wp (leftOf None) _ _ => apply wp_ret
  | |- wp (leftOf (Some _)) _ _ => eapply wp_get; [cbn [heap root size Key Value Color Parent Left Right]; hlookup|cbn [heap root size Key Value Color Parent Left Right]]
  | |- wp (rightOf None) _ _ => apply wp_ret
  | |- wp (rightOf (Some _)) _ _ => eapply wp_get; [cbn [heap root size Key Value Color Parent Left Right]; hlookup|cbn [heap root size Key Value Color Parent Left Right]]
  | |- wp (if ptr_eqb _ _ then _ else _) _ _ => progress ptr_simpl
  | |- wp (match rootp ?t with _ => _ end) _ _ => fail "rootp of an abstract tree"
  end.

Ltac wp_steps := repeat wp_step.

Section Primitives.

Context {V : Type}.
Implicit Types (s : State V) (h : gmap positive (Node V)) (t l r : @tree V)
  (ctx : list (@frame V)) (p pp : ptr) (a b : positive).

Lemma Repr_unfold s ctx t :
  Repr s (plug ctx t) ↔
  repr (heap s) t (ctx_parent ctx) ∧ repr_ctx (heap s) ctx (rootp t)
  ∧ root s = ctx_root ctx (rootp t) ∧ NoDup (addrs t ++ ctx_addrs ctx).
Proof.
  unfold Repr. rewrite repr_plug, rootp_plug, addrs_plug. tauto.
Qed.

Lemma Repr_lookup s ctx a c l k v r :
  Repr s (plug ctx (Br a c l k v r)) →
  heap s !! a = Some (mkNode k v c (ctx_parent ctx) (rootp l) (rootp r)).
Proof. rewrite Repr_unfold. simpl. tauto. Qed.

Lemma wp_get_focus {A} (field : Node V → A) s ctx a c l k v r Q :
  Repr s (plug ctx (Br a c l k v r)) →
  Q (field (mkNode k v c (ctx_parent ctx) (rootp l) (rootp r))) s →
  wp (get field (Some a)) s Q.
Proof. intros H HQ. eapply wp_get; [by eapply Repr_lookup|done]. Qed.

Lemma setColor_spec s ctx a c c' l k v r Q :
  Repr s (plug ctx (Br a c l k v r)) →
  (∀ h' (q : ptr), Repr (mkState h' q (size s)) (plug ctx (Br a c' l k v r)) →
            Q tt (mkState h' q (size s))) →
  wp (setColor (Some a) c') s Q.
Proof.
  rewrite Repr_unfold. simpl. intros ((Ha & Hl & Hr) & Hctx & Hroot & Hnd) HQ.
  setoid_rewrite Repr_unfold in HQ.
  eapply wp_store; [done|]. apply HQ. simpl.
  split_and!; try hlookup; try solve_repr; try done.
Qed.

Lemma setValue_spec s ctx a c l k v v' r Q :
  Repr s (plug ctx (Br a c l k v r)) →
  (∀ h' (q : ptr), Repr (mkState h' q (size s)) (plug ctx (Br a c l k v' r)) →
            Q tt (mkState h' q (size s))) →
  wp (setValue (Some a) v') s Q.
Proof.
  rewrite Repr_unfold. simpl. intros ((Ha & Hl & Hr) & Hctx & Hroot & Hnd) HQ.
  setoid_rewrite Repr_unfold in HQ.
  eapply wp_store; [done|]. apply HQ. simpl.
  split_and!; try hlookup; try solve_repr; try done.
Qed.

Lemma rotateLeft_spec s ctx a c l k v b cb bl bk bv br Q :
  Repr s (plug ctx (Br a c l k v (Br b cb bl bk bv br))) →
  (∀ h' (q : ptr), Repr (mkState h' q (size s)) (plug ctx (Br b cb (Br a c l k v bl) bk bv br)) →
            Q tt (mkState h' q (size s))) →
  wp (rotateLeft (Some a)) s Q.
Proof.
  rewrite Repr_unfold. simpl. intros ((Ha & Hl & Hb & Hbl & Hbr) & Hctx & Hroot & Hnd) HQ.
  setoid_rewrite Repr_unfold in HQ.
  unfold rotateLeft.
  destruct bl as [|x xc xl xk xv xr]; simpl in *;
    (destruct ctx as [|[[] g gc gk gv u] ctx]; simpl in *);
    unfold frame_node in *; simpl in *; destruct_and?; wp_steps.
  all: apply HQ; simpl.
  all: split_and!; try hlookup; try solve_repr; try done; try addr_nodup.
Qed.

Lemma rotateRight_spec s ctx a c r k v b cb bl bk bv br Q :
  Repr s (plug ctx (Br a c (Br b cb bl bk bv br) k v r)) →
  (∀ h' (q : ptr), Repr (mkState h' q (size s)) (plug ctx (Br b cb bl bk bv (Br a c br k v r))) →
            Q tt (mkState h' q (size s))) →
  wp (rotateRight (Some a)) s Q.
Proof.
  rewrite Repr_unfold. simpl. intros ((Ha & (Hb & Hbl & Hbr) & Hr) & Hctx & Hroot & Hnd) HQ.
  setoid_rewrite Repr_unfold in HQ.
  unfold rotateRight.
  destruct br as [|x xc xl xk xv xr]; simpl in *;
    (destruct ctx as [|[[] g gc gk gv u] ctx]; simpl in *);
    unfold frame_node in *; simpl in *; destruct_and?; wp_steps.
  all: apply HQ; simpl.
  all: split_and!; try hlookup; try solve_repr; try done; try addr_nodup.
Qed.

End Primitives.






(** * Symbolic execution on a represented tree *)

Ltac find_ctx_in a T ctx :=
  match T with
  | Br a _ _ _ _ _ => constr:(ctx)
  | Br ?b ?c ?l ?k ?v ?r =>
      find_ctx_in a l constr:(mkFrame DL b c k v r :: ctx)
  | Br ?b ?c ?l ?k ?v ?r =>
      find_ctx_in a r constr:(mkFrame DR b c k v l :: ctx)
  end.

Ltac find_ctx a T :=
  lazymatch T with
  | plug ?c ?t => find_ctx_in a t c
  end.

Ltac proj_simpl := cbn [heap root size Key Value Color Parent Left Right fst snd ctx_parent faddr rootp red black negb].

(** [tstep H] runs one primitive on the state of which [H : Repr s T] is
    known; [T] has the form [plug ctx t] with [t] as explicit as the
    primitive needs. *)
Ltac tstep H :=
  lazymatch type of H with
  | Repr ?s ?T =>
    lazymatch goal with
    | |- wp (bind _ _) s _ => apply wp_bind; tstep H
    | |- wp (ret _) s _ => apply wp_ret; proj_simpl
    | |- wp getRoot s _ => apply wp_getRoot; proj_simpl
    | |- wp (get ?f (Some ?a)) s _ =>
        let ctx := find_ctx a T in
        eapply (wp_get_focus f s ctx a); [exact H|proj_simpl]
    | |- wp (colorOf None) s _ => apply wp_colorOf_nil; proj_simpl
    | |- wp (colorOf (Some ?a)) s _ =>
        let ctx := find_ctx a T in
        eapply (wp_get_focus Color s ctx a); [exact H|proj_simpl]
    | |- wp (leftOf None) s _ => apply wp_ret; proj_simpl
    | |- wp (leftOf (Some ?a)) s _ =>
        let ctx := find_ctx a T in
        eapply (wp_get_focus Left s ctx a); [exact H|proj_simpl]
    | |- wp (rightOf None) s _ => apply wp_ret; proj_simpl
    | |- wp (rightOf (Some ?a)) s _ =>
        let ctx := find_ctx a T in
        eapply (wp_get_focus Right s ctx a); [exact H|proj_simpl]
    | |- wp (setColor (Some ?a) ?c) s _ =>
        let ctx := find_ctx a T in
        eapply (setColor_spec s ctx a); [exact H|];
        clear H; intros ? ? H; cbn [heap root size] in H; proj_simpl
    | |- wp (setValue (Some ?a) ?c) s _ =>
        let ctx := find_ctx a T in
        eapply (setValue_spec s ctx a); [exact H|];
        clear H; intros ? ? H; cbn [heap root size] in H; proj_simpl
    | |- wp (rotateLeft (Some ?a)) s _ =>
        let ctx := find_ctx a T in
        eapply (rotateLeft_spec s ctx a); [exact H|];
        clear H; intros ? ? H; cbn [heap root size] in H; proj_simpl
    | |- wp (rotateRight (Some ?a)) s _ =>
        let ctx := find_ctx a T in
        eapply (rotateRight_spec s ctx a); [exact H|];
        clear H; intros ? ? H; cbn [heap root size] in H; proj_simpl
    | |- wp (if ptr_eqb _ _ then _ else _) s _ =>
        let Hnd := fresh "Hnd" in
        pose proof H as Hnd; apply Repr_unfold in Hnd;
        destruct Hnd as (_ & _ & _ & Hnd); simpl in Hnd;
        progress ptr_simpl; clear Hnd
    end
  end.

Ltac tsteps H := repeat (tstep H; cbn [plug fill fdir faddr fcolor fkey fval fsib rootp color_of] in H).

Section InsertFixup.

Context {V : Type}.
Implicit Types (s : State V) (ctx rest : list (@frame V)).

Lemma fix_measure_le ctx : (fix_measure ctx ≤ 2 * length ctx + 1)%nat.
Proof. unfold fix_measure. destruct ctx as [|[[]] [|[[]] ?]]; simpl; lia. Qed.

Lemma fix_measure_ge ctx : (2 * length ctx ≤ fix_measure ctx)%nat.
Proof. unfold fix_measure. lia. Qed.

Lemma ctx_root_in ctx (p : ptr) :
  ctx ≠ [] → ∃ b, ctx_root ctx p = Some b ∧ b ∈ ctx_addrs ctx.
Proof.
  revert p. induction ctx as [|f ctx IH]; intros p Hne; [done|]. simpl.
  destruct ctx as [|f' ctx].
  - exists (faddr f). split; [done|]. apply list_elem_of_here.
  - destruct (IH (Some (faddr f))) as (b & Hb & Hin); [done|].
    exists b. split; [done|]. rewrite elem_of_cons, elem_of_app. auto.
Qed.

Lemma Repr_root_nil s (t : @tree V) : Repr s (plug [] t) → root s = rootp t.
Proof. by intros (_ & H & _). Qed.

Lemma Repr_root_ne s ctx (t : @tree V) n :
  Repr s (plug ctx t) → ctx ≠ [] → rootp t = Some n → ptr_eqb (Some n) (root s) = false.
Proof.
  rewrite Repr_unfold. intros (_ & _ & Hroot & Hnd) Hne Hn.
  destruct (ctx_root_in ctx (rootp t) Hne) as (b & Hb & Hin).
  rewrite Hroot, Hb. apply ptr_eqb_Some_ne. intros ->.
  apply NoDup_app in Hnd as (_ & Hd & _). apply (Hd b); [|done].
  by apply rootp_addrs.
Qed.

Lemma plug_not_leaf ctx (t : @tree V) : t ≠ Leaf → plug ctx t ≠ Leaf.
Proof.
  revert t. induction ctx as [|f ctx IH]; intros t Ht; simpl; [done|].
  apply IH. unfold fill. by destruct (fdir f).
Qed.

Lemma noRedRed_blacken (t : @tree V) : noRedRed t → noRedRed (blacken t).
Proof. destruct t; simpl; [done|]. intros (_ & ? & ?). split_and!; done. Qed.

Lemma balanced_blacken (t : @tree V) : balanced t → balanced (blacken t).
Proof. by destruct t. Qed.

Lemma elems_blacken (t : @tree V) : elems (blacken t) = elems t.
Proof. by destruct t. Qed.

Lemma insertFixup_loop_spec fuel : ∀ ctx (t : @tree V) n h q z Q,
  (fix_measure ctx < fuel)%nat →
  Repr (mkState h q z) (plug ctx t) →
  rootp t = Some n →
  ins_inv ctx t →
  (∀ h' q' T', Repr (mkState h' q' z) T' → T' ≠ Leaf →
     noRedRed (blacken T') → balanced T' →
     elems T' = elems (plug ctx t) → Q tt (mkState h' q' z)) →
  wp (insertFixup_loop fuel (Some n)) (mkState h q z) Q.
Proof.
  induction fuel as [|fuel IH]; intros ctx t n h q z Q Hfuel H Hn Hinv HQ; [lia|].
  destruct Hinv as (Hc & Hrr & Hrrc & Hb & Hbc & Hroot).
  destruct t as [|n' c nl nk nv nr]; [done|]. simpl in Hn, Hc. injection Hn as ->. subst c.
  cbn [insertFixup_loop]. apply wp_bind, wp_getRoot.
  destruct ctx as [|[d1 p pc pk pv sb] ctx].
  { (* node is the root *)
    rewrite (Repr_root_nil _ _ H). simpl. rewrite ptr_eqb_refl.
    apply wp_ret. apply (HQ _ _ _ H); [done| |done|done].
    by apply (noRedRed_blacken (Br n red nl nk nv nr)). }
  rewrite (Repr_root_ne _ _ _ n H); [|done|done].
  destruct pc.
  2:{ (* the parent is black *)
    assert (Hin : ∀ T, T = plug (mkFrame d1 p black pk pv sb :: ctx) (Br n red nl nk nv nr) →
              Repr (mkState h q z) T → Q tt (mkState h q z)).
    { intros T -> HT. apply (HQ _ _ _ HT); [by apply plug_not_leaf| | |done].
      - apply noRedRed_blacken, noRedRed_plug. split_and!; done.
      - apply balanced_plug. done. }
    destruct d1; cbn [plug fill fdir faddr fcolor fkey fval fsib] in H; tsteps H;
      by eapply Hin. }
  destruct ctx as [|[d2 g gc gk gv u] rest]; [by specialize (Hroot ltac:(done))|].
  assert (gc = black) as -> by (simpl in Hrrc; unfold red, black in *; naive_solver).
  destruct d1, d2, u as [|ua [] ul uk uv ur];
    cbn [plug fill fdir faddr fcolor fkey fval fsib] in H;
    tsteps H; unfold insertFixup_body; tsteps H.
  all: lazymatch goal with
       | |- wp (insertFixup_loop _ (Some ?x)) ?s _ =>
           lazymatch type of H with
           | Repr _ ?T =>
               let ctx' := find_ctx x T in
               eapply (IH ctx' _ x); [|exact H|reflexivity| |]
           end
       end.
  all: try (intros hh qq TT HR Hne Hrr' Hb' Hel; apply (HQ hh qq TT HR Hne Hrr' Hb');
            rewrite Hel; rewrite !elems_plug; simpl;
            repeat (rewrite <- app_assoc; simpl); reflexivity).
  all: try (lazymatch goal with |- (fix_measure ?c < _)%nat =>
              pose proof (fix_measure_le c) as Hle end;
            lazymatch type of Hfuel with (fix_measure ?c < _)%nat =>
              pose proof (fix_measure_ge c) as Hge end;
            first [ simpl length in *; lia
                  | unfold fix_measure in *; simpl in *; lia ]).
  all: clear IH HQ H Hfuel.
  all: destruct rest; unfold ins_inv, red, black in *; simpl in *.
  all: try specialize (Hroot ltac:(done)).
  all: intuition (try done; try lia; try congruence).
  all: try (match goal with
            | H : balanced_ctx ?c ?n |- balanced_ctx ?c ?m =>
                replace m with n by lia; exact H
            end).
Qed.

Lemma insertFixup_spec fuel ctx (t : @tree V) n h q z Q :
  (fix_measure ctx < fuel)%nat →
  Repr (mkState h q z) (plug ctx t) →
  rootp t = Some n →
  ins_inv ctx t →
  (∀ h' q' T', Repr (mkState h' q' z) T' → color_of T' = black →
     noRedRed T' → balanced T' →
     elems T' = elems (plug ctx t) → Q tt (mkState h' q' z)) →
  wp (insertFixup fuel (Some n)) (mkState h q z) Q.
Proof.
  intros Hfuel H Hn Hinv HQ. unfold insertFixup.
  apply wp_bind. eapply insertFixup_loop_spec; [done..|].
  intros h' q' T' HT Hne Hrr Hb Hel.
  apply wp_bind, wp_getRoot. destruct T' as [|a c l k v r]; [done|].
  destruct HT as (Hrep & Hroot & Hnd). cbn [root] in *. rewrite Hroot. cbn [rootp].
  eapply (setColor_spec _ [] a); [by split_and!|].
  intros h'' q'' HT. cbn [size] in *. apply (HQ _ _ _ HT); done.
Qed.

End InsertFixup.


(** * Sorted keys and the descent *)

Section Descent.

Context {V : Type}.
Implicit Types (s : State V) (ctx rest : list (@frame V)) (t : @tree V).

Lemma sorted_app (l1 l2 : list string) :
  StronglySorted str_lt (l1 ++ l2) ↔
  StronglySorted str_lt l1 ∧ StronglySorted str_lt l2
  ∧ (∀ x y, x ∈ l1 → y ∈ l2 → str_lt x y).
Proof.
  induction l1 as [|a l1 IH]; simpl.
  - split; [intros H; split_and!; [constructor|done|]|tauto].
    intros x y Hx. by apply not_elem_of_nil in Hx.
  - split.
    + intros H. apply StronglySorted_inv in H as [H1 H2].
      apply IH in H1 as (H1 & H3 & H4). rewrite Forall_app in H2. destruct H2 as [H2 H5].
      split_and!; [by constructor|done|].
      intros x y Hx Hy. apply elem_of_cons in Hx as [->|Hx]; [|by apply H4].
      rewrite Forall_forall in H5. by apply H5.
    + intros (H1 & H2 & H3). apply StronglySorted_inv in H1 as [H1 H4].
      constructor.
      * apply IH. split_and!; [done..|]. intros x y Hx Hy. apply H3; [|done].
        by apply list_elem_of_further.
      * apply Forall_app. split; [done|]. apply Forall_forall. intros y Hy.
        apply H3; [apply list_elem_of_here|done].
Qed.

Lemma sorted_cons (a : string) (l : list string) :
  StronglySorted str_lt (a :: l) ↔
  StronglySorted str_lt l ∧ (∀ y, y ∈ l → str_lt a y).
Proof.
  split.
  - intros H. apply StronglySorted_inv in H as [H1 H2]. split; [done|].
    by apply Forall_forall.
  - intros [H1 H2]. constructor; [done|]. by apply Forall_forall.
Qed.

Lemma keys_Br a c (l : @tree V) k v r :
  keys (Br a c l k v r) = keys l ++ k :: keys r.
Proof. unfold keys. simpl. by rewrite fmap_app. Qed.

Lemma keys_plug ctx t :
  keys (plug ctx t) = (ctx_before ctx).*1 ++ keys t ++ (ctx_after ctx).*1.
Proof. unfold keys. by rewrite elems_plug, !fmap_app. Qed.

Lemma height_addrs t : (height t ≤ length (addrs t))%nat.
Proof.
  induction t as [|a c l IHl k v r IHr]; simpl; [done|].
  rewrite length_app. lia.
Qed.

Lemma descend_plug key ctx t :
  plug (descend key ctx t).1 (descend key ctx t).2 = plug ctx t.
Proof.
  revert ctx. induction t as [|a c l IHl k v r IHr]; intros ctx; simpl; [done|].
  destruct (key_lt key k); [by rewrite IHl|].
  destruct (key_lt k key); [by rewrite IHr|done].
Qed.

Lemma descend_snd key ctx t :
  (descend key ctx t).2 = (descend key [] t).2.
Proof.
  revert ctx. induction t as [|a c l IHl k v r IHr]; intros ctx; simpl; [done|].
  destruct (key_lt key k); [by rewrite IHl, (IHl [_])|].
  destruct (key_lt k key); [by rewrite IHr, (IHr [_])|done].
Qed.

Lemma descend_length key ctx t :
  (length (descend key ctx t).1 ≤ length ctx + height t)%nat.
Proof.
  revert ctx. induction t as [|a c l IHl k v r IHr]; intros ctx; simpl; [lia|].
  destruct (key_lt key k).
  { etrans; [apply IHl|]. simpl. lia. }
  destruct (key_lt k key).
  { etrans; [apply IHr|]. simpl. lia. }
  simpl. lia.
Qed.

(** The descent stops at the key, or at a missing child. *)
Lemma descend_found key ctx t a c l k v r :
  (descend key ctx t).2 = Br a c l k v r → k = key.
Proof.
  revert ctx. induction t as [|a' c' l' IHl k' v' r' IHr]; intros ctx; simpl; [done|].
  destruct (key_lt key k') eqn:E1; [apply IHl|].
  destruct (key_lt k' key) eqn:E2; [apply IHr|].
  simpl. intros [= -> -> -> -> -> ->]. symmetry. by apply str_lt_total.
Qed.

Lemma descend_bounds key ctx t :
  StronglySorted str_lt (keys t) → ctx_bounds key ctx →
  ctx_bounds key (descend key ctx t).1.
Proof.
  revert ctx. induction t as [|a c l IHl k v r IHr]; intros ctx; simpl; [done|].
  rewrite keys_Br. intros Hs [Hb Ha].
  apply sorted_app in Hs as (Hl & Hr & Hlr). apply sorted_cons in Hr as [Hr Hkr].
  destruct (key_lt key k) eqn:E1.
  { apply IHl; [done|]. split; simpl; [by rewrite app_nil_r|].
    constructor; [done|]. apply Forall_app. split; [|done].
    apply Forall_forall. intros [k' v'] Hin. simpl.
    apply (str_lt_trans _ k); [done|]. apply Hkr.
    apply list_elem_of_fmap. by exists (k', v'). }
  destruct (key_lt k key) eqn:E2; [|done].
  apply IHr; [done|]. split; simpl; [|done].
  apply Forall_app. split; [done|]. apply Forall_app. split; [|by repeat constructor].
  apply Forall_forall. intros [k' v'] Hin. simpl.
  apply (str_lt_trans _ k); [|done]. apply Hlr; [|apply list_elem_of_here].
  apply list_elem_of_fmap. by exists (k', v').
Qed.

Lemma ctx_bounds_nil key : ctx_bounds key ([] : list (@frame V)).
Proof. split; constructor. Qed.

(** The side on which the descent left the parent agrees with the
    comparison [Insert] makes when it attaches the node. *)
Lemma ctx_bounds_dir key f ctx :
  ctx_bounds key (f :: ctx) →
  key_lt key (fkey f) = match fdir f with DL => true | DR => false end.
Proof.
  intros [Hb Ha]. simpl in *. destruct (fdir f).
  - by apply Forall_cons in Ha as [Ha _].
  - apply Forall_app in Hb as [_ Hb]. apply Forall_app in Hb as [_ Hb].
    apply Forall_cons in Hb as [Hb _]. by apply str_lt_asym.
Qed.

Lemma tree_lookup_descend key t :
  tree_lookup key t =
  match (descend key [] t).2 with
  | Leaf => None
  | Br _ _ _ _ v _ => Some v
  end.
Proof.
  induction t as [|a c l IHl k v r IHr]; simpl; [done|].
  destruct (key_lt key k); [by rewrite descend_snd|].
  destruct (key_lt k key); [by rewrite descend_snd|done].
Qed.

(** In a sorted tree the descent finds every key of the tree. *)
Lemma tree_lookup_elem key v t :
  StronglySorted str_lt (keys t) →
  tree_lookup key t = Some v ↔ (key, v) ∈ elems t.
Proof.
  induction t as [|a c l IHl k v' r IHr]; simpl.
  { intros _. split; [done|]. intros H. by apply not_elem_of_nil in H. }
  rewrite keys_Br. intros Hs.
  apply sorted_app in Hs as (Hl & Hr & Hlr). apply sorted_cons in Hr as [Hr Hkr].
  rewrite elem_of_app, elem_of_cons.
  assert (Hinl : ∀ w, (key, w) ∈ elems l → str_lt key k).
  { intros w Hin. apply Hlr; [|apply list_elem_of_here].
    apply list_elem_of_fmap. by exists (key, w). }
  assert (Hinr : ∀ w, (key, w) ∈ elems r → str_lt k key).
  { intros w Hin. apply Hkr. apply list_elem_of_fmap. by exists (key, w). }
  destruct (key_lt key k) eqn:E1.
  { rewrite IHl by done. split; [auto|]. intros [H|[H|H]]; [done| |].
    - injection H as -> ->. by destruct (str_lt_irrefl k).
    - apply Hinr in H. apply str_lt_asym in H. unfold str_lt in *. congruence. }
  destruct (key_lt k key) eqn:E2.
  { rewrite IHr by done. split; [auto|]. intros [H|[H|H]]; [| |done].
    - apply Hinl in H. unfold str_lt in *. congruence.
    - injection H as -> ->. unfold str_lt in *. rewrite E1 in E2. done. }
  pose proof (str_lt_total _ _ E1 E2) as ->.
  split.
  - intros [= ->]. auto.
  - intros [H|[H|H]].
    + apply Hinl in H. by destruct (str_lt_irrefl k).
    + by injection H as ->.
    + apply Hinr in H. by destruct (str_lt_irrefl k).
Qed.

Lemma tree_lookup_None key t :
  StronglySorted str_lt (keys t) →
  tree_lookup key t = None ↔ key ∉ keys t.
Proof.
  intros Hs. split.
  - intros Hn Hin. apply list_elem_of_fmap in Hin as ([k v] & -> & Hin).
    apply tree_lookup_elem in Hin; [|done]. simpl in *. congruence.
  - intros Hn. destruct (tree_lookup key t) as [v|] eqn:E; [|done].
    apply tree_lookup_elem in E; [|done]. destruct Hn.
    apply list_elem_of_fmap. by exists (key, v).
Qed.

End Descent.


(** * Search and Insert *)

Section SearchInsert.

Context {V : Type}.
Implicit Types (s : State V) (ctx rest : list (@frame V)) (t : @tree V).

Lemma repr_ctx_dom (h : gmap positive (Node V)) ctx p a :
  repr_ctx h ctx p → a ∈ ctx_addrs ctx → is_Some (h !! a).
Proof.
  revert p. induction ctx as [|f ctx IH]; intros p; simpl.
  - intros _ Hx. by apply not_elem_of_nil in Hx.
  - intros (Hf & Hs & Hc) Hx. apply elem_of_cons in Hx as [->|Hx]; [by eexists|].
    apply elem_of_app in Hx as [Hx|Hx]; [by eapply repr_dom|by eapply IH].
Qed.

Lemma Repr_size s t : Repr s t → (length (addrs t) ≤ base.size (heap s))%nat.
Proof.
  intros (Hr & _ & Hnd).
  rewrite <- (size_dom (D := gset positive)).
  rewrite <- (size_list_to_set (C := gset positive) (addrs t)) by done.
  apply subseteq_size. intros a Ha. apply elem_of_list_to_set in Ha.
  apply elem_of_dom. by eapply repr_dom.
Qed.

Lemma Repr_fuel s t : Repr s t → (2 * height t + 4 ≤ fuel_of s)%nat.
Proof.
  intros H. apply Repr_size in H. pose proof (height_addrs t).
  unfold fuel_of. lia.
Qed.

Lemma search_loop_spec key t : ∀ fuel ctx s Q,
  (height t < fuel)%nat →
  Repr s (plug ctx t) →
  Q (rootp (descend key ctx t).2) s →
  wp (search_loop fuel key (rootp t)) s Q.
Proof.
  induction t as [|a c l IHl k v r IHr]; intros fuel ctx s Q Hf H HQ;
    (destruct fuel as [|fuel]; [simpl in Hf; lia|]); cbn [search_loop rootp].
  { by apply wp_ret. }
  simpl in Hf, HQ. tsteps H. destruct (key_lt key k).
  { tsteps H. apply (IHl _ (mkFrame DL a c k v r :: ctx)); [lia|done|done]. }
  tsteps H. destruct (key_lt k key).
  { tsteps H. apply (IHr _ (mkFrame DR a c k v l :: ctx)); [lia|done|done]. }
  by apply wp_ret.
Qed.

Lemma Search_spec key s t Q :
  Repr s t →
  Q (rootp (descend key [] t).2) s →
  wp (Search key) s Q.
Proof.
  intros H HQ. unfold Search, with_fuel. apply wp_bind, wp_getRoot.
  destruct H as (Hr & Hroot & Hnd). rewrite Hroot.
  apply (search_loop_spec key t _ []); [|by split_and!|done].
  pose proof (Repr_fuel s t ltac:(by split_and!)). lia.
Qed.

Lemma Repr_setValue h q z ctx a c l k v v' r :
  Repr (mkState h q z) (plug ctx (Br a c l k v r)) →
  Repr (mkState (<[a := mkNode k v' c (ctx_parent ctx) (rootp l) (rootp r)]> h) q z)
       (plug ctx (Br a c l k v' r)).
Proof.
  rewrite !Repr_unfold. simpl. intros ((Ha & Hl & Hr) & Hctx & Hroot & Hnd).
  split_and!; try hlookup; try solve_repr; done.
Qed.

Lemma insert_descend_spec key value t : ∀ fuel ctx h q z Q,
  (height t < fuel)%nat →
  Repr (mkState h q z) (plug ctx t) →
  match descend key ctx t with
  | (ctx', Leaf) => Q (Attach (ctx_parent ctx')) (mkState h q z)
  | (ctx', Br a c l k v r) =>
      Q Updated
        (mkState (<[a := mkNode k value c (ctx_parent ctx') (rootp l) (rootp r)]> h) q z)
  end →
  wp (insert_descend fuel key value (ctx_parent ctx) (rootp t)) (mkState h q z) Q.
Proof.
  induction t as [|a c l IHl k v r IHr]; intros fuel ctx h q z Q Hf H HQ;
    (destruct fuel as [|fuel]; [simpl in Hf; lia|]); cbn [insert_descend rootp].
  { by apply wp_ret. }
  simpl in Hf, HQ. tsteps H. destruct (key_lt key k).
  { tsteps H. apply (IHl _ (mkFrame DL a c k v r :: ctx)); [lia|done|done]. }
  tsteps H. destruct (key_lt k key).
  { tsteps H. apply (IHr _ (mkFrame DR a c k v l :: ctx)); [lia|done|done]. }
  apply wp_bind. eapply wp_store; [by eapply Repr_lookup|]. simpl.
  by apply wp_ret.
Qed.

Lemma wp_alloc (n : Node V) s Q :
  (∀ a, heap s !! a = None →
     Q (Some a) (mkState (<[a := n]> (heap s)) (root s) (size s))) →
  wp (alloc n) s Q.
Proof.
  intros HQ. eexists _, _. split; [reflexivity|]. apply HQ.
  apply not_elem_of_dom. apply is_fresh.
Qed.

(** Allocating the node and hanging it below the parent found by the
    descent. *)
Lemma attach_spec {B} (cont : ptr → Comp (State V) B) key value ctx h q z Q :
  Repr (mkState h q z) (plug ctx Leaf) →
  ctx_bounds key ctx →
  (∀ a h' q', Repr (mkState h' q' z) (plug ctx (Br a red Leaf key value Leaf)) →
     wp (cont (Some a)) (mkState h' q' z) Q) →
  wp (let* node := alloc (mkNode key value red (ctx_parent ctx) None None) in
      (match ctx_parent ctx with
       | None => setRoot node
       | Some _ =>
           let* nk := get Key node in
           let* pk := get Key (ctx_parent ctx) in
           if key_lt nk pk then setLeft (ctx_parent ctx) node
           else setRight (ctx_parent ctx) node
       end) ;; cont node) (mkState h q z) Q.
Proof.
  rewrite Repr_unfold. simpl. intros (_ & Hctx & Hroot & Hnd) Hb HQ.
  setoid_rewrite Repr_unfold in HQ.
  apply wp_bind, wp_alloc. simpl. intros a Ha.
  assert (Hnd' : NoDup (a :: ctx_addrs ctx)).
  { apply NoDup_cons. split; [|done]. intros Hin.
    eapply repr_ctx_dom in Hin as [n Hn]; [|done]. congruence. }
  clear Hnd.
  destruct ctx as [|[d g gc gk gv u] ctx]; simpl in *.
  { wp_steps. apply HQ. simpl. split_and!; try hlookup; done. }
  apply ctx_bounds_dir in Hb. simpl in Hb.
  destruct Hctx as (Hg & Hu & Hctx).
  destruct d; unfold frame_node in *; simpl in *; wp_steps; rewrite Hb; wp_steps.
  all: apply HQ; simpl; unfold frame_node; simpl.
  all: split_and!; try hlookup; try solve_repr; try done.
Qed.

Lemma list_put_absent key value (l1 l2 : list (string * V)) :
  Forall (λ kv, str_lt kv.1 key) l1 → Forall (λ kv, str_lt key kv.1) l2 →
  list_put key value (l1 ++ l2) = l1 ++ (key, value) :: l2.
Proof.
  intros H1 H2. induction H1 as [|[k v] l1 Hk H1 IH]; simpl.
  - destruct H2 as [|[k v] l2 Hk H2]; simpl; [done|]. simpl in Hk. by rewrite Hk.
  - simpl in Hk. rewrite (str_lt_asym _ _ Hk), Hk. by rewrite IH.
Qed.

Lemma list_put_present key value v0 (l1 l2 : list (string * V)) :
  Forall (λ kv, str_lt kv.1 key) l1 →
  list_put key value (l1 ++ (key, v0) :: l2) = l1 ++ (key, value) :: l2.
Proof.
  intros H1. induction H1 as [|[k v] l1 Hk H1 IH]; simpl.
  - destruct (key_lt key key) eqn:E; [|done]. by destruct (str_lt_irrefl key).
  - simpl in Hk. rewrite (str_lt_asym _ _ Hk), Hk. by rewrite IH.
Qed.

Lemma sorted_put_absent key (l1 l2 : list string) :
  StronglySorted str_lt (l1 ++ l2) →
  Forall (λ k, str_lt k key) l1 → Forall (λ k, str_lt key k) l2 →
  StronglySorted str_lt (l1 ++ key :: l2).
Proof.
  rewrite !sorted_app, sorted_cons, !Forall_forall. intros (H1 & H2 & H3) Hl1 Hl2.
  split_and!; try done.
  intros x y Hx Hy. apply elem_of_cons in Hy as [->|Hy]; auto.
Qed.

(** [Insert] of a key that is in the tree: the cell of its node gets the new
    value, and nothing else changes. *)
Lemma Insert_found key value s T ctx a c l k v r :
  Repr s T →
  descend key [] T = (ctx, Br a c l k v r) →
  Insert key value s =
    Ok (tt, mkState (<[a := mkNode k value c (ctx_parent ctx) (rootp l) (rootp r)]> (heap s))
                    (root s) (size s)).
Proof.
  intros H Hd. destruct s as [h q z]. simpl.
  assert (Hwp : wp (Insert key value) (mkState h q z)
            (λ _ s', s' = mkState (<[a := mkNode k value c (ctx_parent ctx) (rootp l) (rootp r)]> h) q z)).
  { unfold Insert, with_fuel. apply wp_bind, wp_getRoot. apply wp_bind.
    pose proof (Repr_fuel _ _ H) as Hfuel.
    destruct H as (Hr & Hroot & Hnd). simpl in Hroot. rewrite Hroot.
    apply (insert_descend_spec key value T _ []); [unfold fuel_of in *; simpl in *; lia|by split_and!|].
    rewrite Hd. by apply wp_ret. }
  destruct Hwp as ([] & s' & -> & ->). done.
Qed.

Lemma Insert_absent key value h q z T ctx Q :
  Repr (mkState h q z) T →
  color_of T = black → noRedRed T → balanced T →
  descend key [] T = (ctx, Leaf) →
  StronglySorted str_lt (keys T) →
  (∀ h' q' T', Repr (mkState h' q' (wrap_int (z + 1))) T' →
     color_of T' = black → noRedRed T' → balanced T' →
     elems T' = ctx_before ctx ++ (key, value) :: ctx_after ctx →
     Q tt (mkState h' q' (wrap_int (z + 1)))) →
  wp (Insert key value) (mkState h q z) Q.
Proof.
  intros H Hc Hrr Hb Hd Hs HQ.
  pose proof (Repr_fuel _ _ H) as Hfuel.
  pose proof (descend_plug key [] T) as Hp. rewrite Hd in Hp. simpl in Hp.
  pose proof (descend_length key [] T) as Hlen. rewrite Hd in Hlen. simpl in Hlen.
  pose proof (descend_bounds key [] T Hs (ctx_bounds_nil key)) as Hbd.
  rewrite Hd in Hbd. simpl in Hbd.
  unfold Insert, with_fuel. apply wp_bind, wp_getRoot. apply wp_bind.
  pose proof H as (Hr & Hroot & Hnd). simpl in Hroot. rewrite Hroot.
  apply (insert_descend_spec key value T _ []); [unfold fuel_of in *; simpl in *; lia|done|].
  rewrite Hd. subst T.
  apply attach_spec; [done..|]. intros a h' q' H'.
  apply wp_bind.
  apply (insertFixup_spec _ ctx (Br a red Leaf key value Leaf) a); [|done|done| |].
  - pose proof (fix_measure_le ctx). unfold fuel_of in *; simpl in *; lia.
  - apply noRedRed_plug in Hrr as (_ & Hrr & _).
    apply balanced_plug in Hb as (_ & Hb).
    rewrite color_of_plug in Hc.
    unfold ins_inv. simpl. split_and!; try done.
    intros Hne. by destruct ctx.
  - intros h'' q'' T' HT' Hc' Hrr' Hb' Hel.
    apply wp_bind, wp_getSize. apply wp_setSize. simpl.
    apply (HQ _ _ _ HT'); try done.
    rewrite Hel, elems_plug. done.
Qed.

End SearchInsert.


(** * The loop of deleteFixup *)

Section DeleteFixup.

Context {V : Type}.
Implicit Types (s : State V) (ctx rest : list (@frame V)).

Lemma deleteFixup_body_unfold (x parent : ptr) :
  @deleteFixup_body V x parent =
  let* pl := leftOf parent in
  if ptr_eqb x pl then
    let* sibling := rightOf parent in
    let* sc := colorOf sibling in
    let* sibling :=
      (if sc then
         setColor sibling black ;;
         setColor parent red ;;
         rotateLeft parent ;;
         rightOf parent
       else ret sibling) in
    del_rest_left parent sibling
  else
    let* sibling := leftOf parent in
    let* sc := colorOf sibling in
    let* sibling :=
      (if sc then
         setColor sibling black ;;
         setColor parent red ;;
         rotateRight parent ;;
         leftOf parent
       else ret sibling) in
    del_rest_right parent sibling.
Proof. reflexivity. Qed.

(** The sibling is black and [x] is on the left. *)
Lemma del_rest_left_spec h q z rest p pc (x : @tree V) pk pv w wl wk wv wr Q :
  Repr (mkState h q z) (plug rest (Br p pc x pk pv (Br w black wl wk wv wr))) →
  del_inv (mkFrame DL p pc pk pv (Br w black wl wk wv wr) :: rest) x →
  color_of x = black →
  (color_of wl = black → color_of wr = black →
   ∀ h' q', Repr (mkState h' q' z) (plug rest (Br p pc x pk pv (Br w red wl wk wv wr))) →
     Q (Some p, ctx_parent rest) (mkState h' q' z)) →
  (∀ h' q' T', Repr (mkState h' q' z) T' → T' ≠ Leaf →
     noRedRed (blacken T') → balanced T' →
     elems T' = elems (plug rest (Br p pc x pk pv (Br w black wl wk wv wr))) →
     Q (q', None) (mkState h' q' z)) →
  wp (del_rest_left (Some p) (Some w)) (mkState h q z) Q.
Proof.
  intros H Hinv Hx H2 H4. unfold del_rest_left.
  destruct wl as [|wla [] wll wlk wlv wlr], wr as [|wra [] wrl wrk wrv wrr];
    tsteps H.
  all: try (apply H2; [done|done|exact H]).
  all: eapply (H4 _ _ _ H);
    [by apply plug_not_leaf
    |apply noRedRed_blacken, noRedRed_plug
    |apply balanced_plug
    |rewrite !elems_plug; simpl; repeat (rewrite <- app_assoc; simpl); reflexivity].
  all: destruct Hinv as (Hrrc & Hrr & Hb & Hbc & Hroot); clear H H2 H4 Hroot.
  all: destruct x as [|xa xc xl xk xv xr]; simpl in Hx; [|subst xc].
  all: destruct pc, rest; unfold red, black in *; simpl in *.
  all: intuition (try done; try lia; try congruence).
  all: try (match goal with
            | H : balanced_ctx ?c ?n |- balanced_ctx ?c ?m =>
                replace m with n by lia; exact H
            end).
Qed.
(** The sibling is black and [x] is on the right. *)
Lemma del_rest_right_spec h q z rest p pc (x : @tree V) pk pv w wl wk wv wr Q :
  Repr (mkState h q z) (plug rest (Br p pc (Br w black wl wk wv wr) pk pv x)) →
  del_inv (mkFrame DR p pc pk pv (Br w black wl wk wv wr) :: rest) x →
  color_of x = black →
  (color_of wl = black → color_of wr = black →
   ∀ h' q', Repr (mkState h' q' z) (plug rest (Br p pc (Br w red wl wk wv wr) pk pv x)) →
     Q (Some p, ctx_parent rest) (mkState h' q' z)) →
  (∀ h' q' T', Repr (mkState h' q' z) T' → T' ≠ Leaf →
     noRedRed (blacken T') → balanced T' →
     elems T' = elems (plug rest (Br p pc (Br w black wl wk wv wr) pk pv x)) →
     Q (q', None) (mkState h' q' z)) →
  wp (del_rest_right (Some p) (Some w)) (mkState h q z) Q.
Proof.
  intros H Hinv Hx H2 H4. unfold del_rest_right.
  destruct wl as [|wla [] wll wlk wlv wlr], wr as [|wra [] wrl wrk wrv wrr];
    tsteps H.
  all: try (apply H2; [done|done|exact H]).
  all: eapply (H4 _ _ _ H);
    [by apply plug_not_leaf
    |apply noRedRed_blacken, noRedRed_plug
    |apply balanced_plug
    |rewrite !elems_plug; simpl; repeat (rewrite <- app_assoc; simpl); reflexivity].
  all: destruct Hinv as (Hrrc & Hrr & Hb & Hbc & Hroot); clear H H2 H4 Hroot.
  all: destruct x as [|xa xc xl xk xv xr]; simpl in Hx; [|subst xc].
  all: destruct pc, rest; unfold red, black in *; simpl in *.
  all: intuition (try done; try lia; try congruence).
  all: try (match goal with
            | H : balanced_ctx ?c ?n |- balanced_ctx ?c ?m =>
                replace m with n by lia; exact H
            end).
Qed.

Lemma Repr_root_ne' s ctx (t : @tree V) :
  Repr s (plug ctx t) → ctx ≠ [] → ptr_eqb (rootp t) (root s) = false.
Proof.
  intros H Hne. destruct (rootp t) as [n|] eqn:Hn; [by eapply Repr_root_ne|].
  apply Repr_unfold in H as (_ & _ & Hroot & _).
  destruct (ctx_root_in ctx (rootp t) Hne) as (b & Hb & _).
  rewrite Hroot, Hb. apply ptr_eqb_None_Some.
Qed.

End DeleteFixup.


Section DeleteFixup2.

Context {V : Type}.
Implicit Types (s : State V) (ctx rest : list (@frame V)).

Lemma del_inv_red_sib d p pk pv w (wl : @tree V) wk wv wr rest x pc :
  del_inv (mkFrame d p pc pk pv (Br w red wl wk wv wr) :: rest) x →
  pc = black
  ∧ (∃ a l k v r, wl = Br a black l k v r)
  ∧ (∃ a l k v r, wr = Br a black l k v r).
Proof.
  unfold del_inv. simpl. unfold red, black.
  intros (((Hc & Hwl & Hwr) & Hpc & _) & _ & _ & (Hbh & Hb & _) & _).
  destruct (Hc eq_refl) as [Hcl Hcr]. destruct Hb as (Hb1 & _ & _).
  split_and!.
  - destruct pc; [|done]. by destruct (Hpc eq_refl).
  - destruct wl as [|a [] l k v r]; simpl in *; [lia|done|]. by exists a, l, k, v, r.
  - destruct wr as [|a [] l k v r]; simpl in *; [lia|done|]. by exists a, l, k, v, r.
Qed.

Lemma deleteFixup_loop_spec fuel : ∀ ctx (x : @tree V) h q z Q,
  (del_measure ctx x < fuel)%nat →
  Repr (mkState h q z) (plug ctx x) →
  del_inv ctx x →
  (∀ h' q' ctx' x', Repr (mkState h' q' z) (plug ctx' x') →
     del_inv ctx' x' → (ctx' = [] ∨ color_of x' = red) →
     elems (plug ctx' x') = elems (plug ctx x) →
     Q (rootp x') (mkState h' q' z)) →
  wp (deleteFixup_loop fuel (rootp x) (ctx_parent ctx)) (mkState h q z) Q.
Proof.
  induction fuel as [|fuel IH]; intros ctx x h q z Q Hfuel H Hinv HQ; [lia|].
  cbn [deleteFixup_loop]. apply wp_bind, wp_getRoot.
  destruct ctx as [|[d p pc pk pv sib] rest].
  { rewrite (Repr_root_nil _ _ H). simpl. rewrite ptr_eqb_refl.
    apply wp_ret. apply (HQ _ _ [] x H); auto. }
  rewrite (Repr_root_ne' _ _ _ H); [|done].
  assert (Hred : color_of x = red → Q (rootp x) (mkState h q z)).
  { intros Hc. apply (HQ _ _ _ x H); auto. }
  destruct x as [|xa xc xl xk xv xr];
    (destruct d; cbn [plug fill fdir faddr fcolor fkey fval fsib] in H);
    cbn [rootp]; tsteps H; try (destruct xc; [by apply wp_ret, Hred|]); clear Hred.
  all: rewrite deleteFixup_body_unfold; cbn [ctx_parent faddr].
  all: destruct sib as [|w wc wl wk wv wr];
    [destruct Hinv as (_ & _ & _ & (Hbad & _) & _); simpl in Hbad; lia|].
  all: tsteps H.
  all: destruct wc.
  (* red sibling: first turn it into a black one *)
  1, 3, 5, 7:
    destruct (del_inv_red_sib _ _ _ _ _ _ _ _ _ _ _ _ Hinv)
      as (-> & (wla & wll & wlk & wlv & wlr & ->) & (wra & wrl & wrk & wrv & wrr & ->)).
  all: tsteps H.
  all: lazymatch goal with
       | |- wp (del_rest_left (Some ?p) _) _ _ =>
           lazymatch type of H with
           | Repr _ ?T =>
               let ctx' := find_ctx p T in
               eapply (del_rest_left_spec _ _ _ ctx'); [exact H| | | |]
           end
       | |- wp (del_rest_right (Some ?p) _) _ _ =>
           lazymatch type of H with
           | Repr _ ?T =>
               let ctx' := find_ctx p T in
               eapply (del_rest_right_spec _ _ _ ctx'); [exact H| | | |]
           end
       end.
  all: try (simpl; done).
  all: try (intros Hcl Hcr hh qq H'; cbn [fst snd];
            lazymatch type of H' with
            | Repr _ (plug ?C ?X) => eapply (IH C X); [|exact H'| |]
            end).
  all: try (intros hh qq T' H' Hne Hrr' Hb' Hel; cbn [fst snd];
            pose proof H' as (_ & Hroot' & _); cbn [root] in Hroot'; subst qq;
            eapply (IH [] T'); [|exact H'| |]).
  all: try (intros h'' q'' ctx'' x'' HR Hinv' Hor Hel'; apply (HQ _ _ _ _ HR Hinv' Hor);
            rewrite Hel'; cbn [plug]; try rewrite Hel; rewrite ?elems_plug; simpl;
            repeat (rewrite <- app_assoc; simpl); reflexivity).
  all: try (unfold del_inv; simpl; split_and!; try done; by apply noRedRed_blacken).
  all: try (unfold del_measure in *; simpl in *;
            try (destruct (color_of T')); try (destruct pc); lia).
  all: clear IH HQ H Hfuel.
  all: unfold del_inv in *; simpl in *; unfold red, black in *.
  all: destruct rest; simpl in *.
  all: intuition (try done; try lia; try congruence).
  all: try (match goal with
            | H : balanced_ctx ?c ?n |- balanced_ctx ?c ?m =>
                replace m with n by lia; exact H
            end).
Qed.

Lemma deleteFixup_spec fuel ctx (x : @tree V) h q z Q :
  (del_measure ctx x < fuel)%nat →
  Repr (mkState h q z) (plug ctx x) →
  del_inv ctx x →
  (∀ h' q' T', Repr (mkState h' q' z) T' → color_of T' = black →
     noRedRed T' → balanced T' →
     elems T' = elems (plug ctx x) → Q tt (mkState h' q' z)) →
  wp (deleteFixup fuel (rootp x) (ctx_parent ctx)) (mkState h q z) Q.
Proof.
  intros Hfuel H Hinv HQ. unfold deleteFixup.
  apply wp_bind. eapply deleteFixup_loop_spec; [done..|].
  intros h' q' ctx' x' H' (Hrrc & Hrr & Hb & Hbc & Hroot) Hor Hel.
  destruct x' as [|xa xc xl xk xv xr]; cbn [rootp].
  { destruct Hor as [->|?]; [|done]. apply wp_ret. by apply (HQ _ _ _ H'). }
  tsteps H'. apply (HQ _ _ _ H').
  - rewrite color_of_plug. destruct ctx'; [done|]. by apply Hroot.
  - apply noRedRed_plug. simpl in *. destruct Hrr as (_ & ? & ?). split_and!; done.
  - apply balanced_plug. simpl in *.
    destruct Hb as (? & ? & ?). split; [done|].
    destruct Hor as [->|Hc]; [done|]. rewrite Hc in Hbc.
    replace (bh xl + 1)%nat with (S (bh xl + 0)) by lia. done.
  - rewrite <- Hel. rewrite !elems_plug. done.
Qed.

End DeleteFixup2.


(** * Unlinking a node *)

Section Splice.

Context {V : Type}.
Implicit Types (s : State V) (ctx rest : list (@frame V)) (t : @tree V).

Lemma min_ctx_plug ctx t :
  plug (min_ctx ctx t).1 (min_ctx ctx t).2 = plug ctx t.
Proof.
  revert ctx. induction t as [|a c l IHl k v r IHr]; intros ctx; [done|].
  destruct l as [|la lc ll lk lv lr]; [done|].
  change (min_ctx ctx (Br a c (Br la lc ll lk lv lr) k v r))
    with (min_ctx (mkFrame DL a c k v r :: ctx) (Br la lc ll lk lv lr)).
  by rewrite IHl.
Qed.

Lemma min_ctx_app ctx t :
  min_ctx ctx t = ((min_ctx [] t).1 ++ ctx, (min_ctx [] t).2).
Proof.
  revert ctx. induction t as [|a c l IHl k v r IHr]; intros ctx; [done|].
  destruct l as [|la lc ll lk lv lr]; [done|].
  change (min_ctx ctx (Br a c (Br la lc ll lk lv lr) k v r))
    with (min_ctx (mkFrame DL a c k v r :: ctx) (Br la lc ll lk lv lr)).
  change (min_ctx [] (Br a c (Br la lc ll lk lv lr) k v r))
    with (min_ctx [mkFrame DL a c k v r] (Br la lc ll lk lv lr)).
  rewrite IHl, (IHl [_]). simpl. by rewrite <- app_assoc.
Qed.

Lemma min_ctx_shape ctx t :
  t ≠ Leaf → ∃ sa sc sk sv sr, (min_ctx ctx t).2 = Br sa sc Leaf sk sv sr.
Proof.
  revert ctx. induction t as [|a c l IHl k v r IHr]; intros ctx Hne; [done|].
  destruct l as [|la lc ll lk lv lr]; [by exists a, c, k, v, r|].
  change (min_ctx ctx (Br a c (Br la lc ll lk lv lr) k v r))
    with (min_ctx (mkFrame DL a c k v r :: ctx) (Br la lc ll lk lv lr)).
  by apply IHl.
Qed.

Lemma min_ctx_length ctx t :
  (length (min_ctx ctx t).1 + 1 ≤ length ctx + Nat.max 1 (height t))%nat.
Proof.
  revert ctx. induction t as [|a c l IHl k v r IHr]; intros ctx; [simpl; lia|].
  destruct l as [|la lc ll lk lv lr]; [simpl; lia|].
  change (min_ctx ctx (Br a c (Br la lc ll lk lv lr) k v r))
    with (min_ctx (mkFrame DL a c k v r :: ctx) (Br la lc ll lk lv lr)).
  etrans; [apply IHl|]. simpl. lia.
Qed.

(** All frames on the way to the minimum go left. *)
Lemma min_ctx_before t : ctx_before (min_ctx [] t).1 = [].
Proof.
  assert (H : ∀ ctx, ctx_before ctx = [] → ctx_before (min_ctx ctx t).1 = []);
    [|by apply H].
  induction t as [|a c l IHl k v r IHr]; intros ctx Hc; [done|].
  destruct l as [|la lc ll lk lv lr]; [done|].
  change (min_ctx ctx (Br a c (Br la lc ll lk lv lr) k v r))
    with (min_ctx (mkFrame DL a c k v r :: ctx) (Br la lc ll lk lv lr)).
  apply IHl. simpl. by rewrite Hc.
Qed.

Lemma minimum_spec t : ∀ fuel ctx s Q,
  t ≠ Leaf →
  (height t ≤ fuel)%nat →
  Repr s (plug ctx t) →
  Q (rootp (min_ctx ctx t).2) s →
  wp (minimum fuel (rootp t)) s Q.
Proof.
  induction t as [|a c l IHl k v r IHr]; intros fuel ctx s Q Hne Hf H HQ; [done|].
  destruct fuel as [|fuel]; [simpl in Hf; lia|]. cbn [minimum rootp].
  tsteps H. destruct l as [|la lc ll lk lv lr]; cbn [rootp].
  { by apply wp_ret. }
  apply (IHl _ (mkFrame DL a c k v r :: ctx)); [done| |done|done].
  simpl in Hf |- *. lia.
Qed.

(** [transplant] of a node by one of its children. *)
Lemma transplant_left_spec h q z ctx u uc (ul : @tree V) uk uv ur Q :
  Repr (mkState h q z) (plug ctx (Br u uc ul uk uv ur)) →
  (∀ h' q', Repr (mkState h' q' z) (plug ctx ul) → h' !! u = h !! u →
     Q tt (mkState h' q' z)) →
  wp (transplant (Some u) (rootp ul)) (mkState h q z) Q.
Proof.
  rewrite Repr_unfold. simpl. intros ((Hu & Hl & Hr) & Hctx & Hroot & Hnd) HQ.
  setoid_rewrite Repr_unfold in HQ.
  unfold transplant.
  destruct ul as [|x xc xl xk xv xr]; simpl in *;
    (destruct ctx as [|[[] g gc gk gv w] ctx]; simpl in *);
    unfold frame_node in *; simpl in *; destruct_and?; wp_steps.
  all: apply HQ; simpl; [|hlookup].
  all: split_and!; try hlookup; try solve_repr; try done; try addr_nodup.
Qed.

Lemma transplant_right_spec h q z ctx u uc (ul : @tree V) uk uv ur Q :
  Repr (mkState h q z) (plug ctx (Br u uc ul uk uv ur)) →
  (∀ h' q', Repr (mkState h' q' z) (plug ctx ur) → h' !! u = h !! u →
     Q tt (mkState h' q' z)) →
  wp (transplant (Some u) (rootp ur)) (mkState h q z) Q.
Proof.
  rewrite Repr_unfold. simpl. intros ((Hu & Hl & Hr) & Hctx & Hroot & Hnd) HQ.
  setoid_rewrite Repr_unfold in HQ.
  unfold transplant.
  destruct ur as [|x xc xl xk xv xr]; simpl in *;
    (destruct ctx as [|[[] g gc gk gv w] ctx]; simpl in *);
    unfold frame_node in *; simpl in *; destruct_and?; wp_steps.
  all: apply HQ; simpl; [|hlookup].
  all: split_and!; try hlookup; try solve_repr; try done; try addr_nodup.
Qed.

End Splice.


Section Splice2.

Context {V : Type}.
Implicit Types (s : State V) (ctx rest : list (@frame V)) (t : @tree V).

Lemma repr_reparent (h : gmap positive (Node V)) a c (l : @tree V) k v r pp pp' :
  a ∉ addrs l → a ∉ addrs r →
  repr h (Br a c l k v r) pp →
  repr (<[a := mkNode k v c pp' (rootp l) (rootp r)]> h) (Br a c l k v r) pp'.
Proof.
  intros Hl Hr (Ha & Hrl & Hrr). simpl. split_and!.
  - apply lookup_insert_eq.
  - by apply repr_insert_ne.
  - by apply repr_insert_ne.
Qed.

(** The end of the two-children case of [Delete]: the successor [sa],
    whose right subtree is in place already, takes the position, the left
    subtree and the color of the node [a]. *)
Lemma splice_tail_spec {B} (res : B) h q z ctx a c k v ar
    la lc (ll : @tree V) lk lv lr sa sc sk sv sp sl (R : @tree V) Q :
  h !! a = Some (mkNode k v c (ctx_parent ctx) (Some la) ar) →
  repr_ctx h ctx (Some a) →
  q = ctx_root ctx (Some a) →
  repr h (Br la lc ll lk lv lr) (Some a) →
  h !! sa = Some (mkNode sk sv sc sp sl (rootp R)) →
  repr h R (Some sa) →
  NoDup (sa :: a :: la :: addrs ll ++ addrs lr ++ addrs R ++ ctx_addrs ctx) →
  (∀ h' q',
     Repr (mkState h' q' z) (plug ctx (Br sa c (Br la lc ll lk lv lr) sk sv R)) →
     Q res (mkState h' q' z)) →
  wp (transplant (Some a) (Some sa) ;;
      (let* nl := get Left (Some a) in setLeft (Some sa) nl) ;;
      (let* sl := get Left (Some sa) in setParent sl (Some sa)) ;;
      (let* nc := get Color (Some a) in setColor (Some sa) nc) ;;
      ret res) (mkState h q z) Q.
Proof.
  intros Ha Hctx Hroot (Hla & Hll & Hlr) Hsa HR Hnd HQ.
  setoid_rewrite Repr_unfold in HQ.
  unfold transplant.
  destruct ctx as [|[[] g gc gk gv w] ctx]; simpl in *;
    unfold frame_node in *; simpl in *; destruct_and?; wp_steps.
  all: apply HQ; simpl; unfold frame_node; simpl.
  all: split_and!; try hlookup; try solve_repr; try done; try addr_nodup.
Qed.

End Splice2.


Section Splice3.

Context {V : Type}.
Implicit Types (s : State V) (ctx rest : list (@frame V)) (t : @tree V).

Lemma plug_cons_not_leaf f ctx t : plug (ctx ++ [f]) t ≠ Leaf.
Proof.
  rewrite plug_app. simpl. unfold fill. by destruct (fdir f).
Qed.

Lemma wp_bind_inv {A B} (m : Comp (State V) A) (k : A → Comp (State V) B) s Q :
  wp (bind m k) s Q → wp m s (λ x s', wp (k x) s' Q).
Proof.
  intros (y & s'' & Hb & HQ). unfold bind in Hb.
  destruct (m s) as [[x s']| |] eqn:Hm; try done.
  exists x, s'. split; [done|]. by exists y, s''.
Qed.

Lemma ctx_addrs_app ctx1 ctx2 :
  ctx_addrs (ctx1 ++ ctx2) = ctx_addrs ctx1 ++ ctx_addrs ctx2.
Proof.
  induction ctx1 as [|f ctx1 IH]; simpl; [done|]. by rewrite IH, <- app_assoc.
Qed.

Lemma min_ctx_dirs t : Forall (λ f : @frame V, fdir f = DL) (min_ctx [] t).1.
Proof.
  assert (H : ∀ ctx, Forall (λ f : @frame V, fdir f = DL) ctx →
              Forall (λ f : @frame V, fdir f = DL) (min_ctx ctx t).1);
    [|by apply H].
  induction t as [|a c l IHl k v r IHr]; intros ctx Hc; [done|].
  destruct l as [|la lc ll lk lv lr]; [done|].
  change (min_ctx ctx (Br a c (Br la lc ll lk lv lr) k v r))
    with (min_ctx (mkFrame DL a c k v r :: ctx) (Br la lc ll lk lv lr)).
  apply IHl. by constructor.
Qed.

Lemma delete_splice_spec fuel h q z ctx a c (l : @tree V) k v r Q :
  Repr (mkState h q z) (plug ctx (Br a c l k v r)) →
  (height r ≤ fuel)%nat →
  (∀ h' q',
     Repr (mkState h' q' z)
          (plug (splice_out ctx (Br a c l k v r)).1.2 (splice_out ctx (Br a c l k v r)).2) →
     Q ((splice_out ctx (Br a c l k v r)).1.1,
        rootp (splice_out ctx (Br a c l k v r)).2,
        ctx_parent (splice_out ctx (Br a c l k v r)).1.2) (mkState h' q' z)) →
  wp (delete_splice fuel (Some a)) (mkState h q z) Q.
Proof.
  intros H Hf HQ. unfold delete_splice. tsteps H.
  destruct l as [|la lc ll lk lv lr]; cbn [rootp].
  { (* no left child *)
    tsteps H.
    eapply transplant_right_spec; [exact H|]. intros h' q' H' _.
    apply wp_ret. simpl in HQ. by apply HQ. }
  tsteps H.
  destruct r as [|ra rc rl rk rv rr]; cbn [rootp].
  { (* no right child *)
    tsteps H.
    eapply (transplant_left_spec _ _ _ _ _ _ (Br la lc ll lk lv lr)); [exact H|].
    intros h' q' H' _. apply wp_ret. simpl in HQ. by apply HQ. }
  (* two children *)
  tsteps H.
  apply (minimum_spec (Br ra rc rl rk rv rr) _ (mkFrame DR a c k v (Br la lc ll lk lv lr) :: ctx));
    [done|done|exact H|].
  pose proof (min_ctx_plug [] (Br ra rc rl rk rv rr)) as Hplug.
  destruct (min_ctx_shape [] (Br ra rc rl rk rv rr)) as (sa & sc & sk & sv & sr & Hshape); [done|].
  rewrite min_ctx_app. cbn [snd].
  assert (Hso : splice_out ctx (Br a c (Br la lc ll lk lv lr) k v (Br ra rc rl rk rv rr))
           = (sc, (min_ctx [] (Br ra rc rl rk rv rr)).1 ++ mkFrame DR sa c sk sv (Br la lc ll lk lv lr) :: ctx, sr)).
  { unfold splice_out. destruct (min_ctx [] (Br ra rc rl rk rv rr)) as [sctx S].
    simpl in Hshape. by subst S. }
  rewrite Hso in HQ. cbn [fst snd] in HQ. clear Hso.
  pose proof (min_ctx_dirs (Br ra rc rl rk rv rr)) as Hdirs.
  destruct (min_ctx [] (Br ra rc rl rk rv rr)) as [sctx S]. cbn [fst snd] in *. subst S.
  simpl in Hplug. rewrite <- Hplug in H.
  change (plug ctx (Br a c (Br la lc ll lk lv lr) k v (plug sctx (Br sa sc Leaf sk sv sr))))
    with (plug (mkFrame DR a c k v (Br la lc ll lk lv lr) :: ctx) (plug sctx (Br sa sc Leaf sk sv sr))) in H.
  rewrite <- plug_app in H. cbn [rootp].
  destruct sctx as [|[d1 f1 f1c f1k f1v f1s] sctx]; cbn [app ctx_parent faddr] in *.
  { (* the successor is the right child *)
    tsteps H. simpl in Hplug. injection Hplug as <- <- <- <- <- <-.
    apply Repr_unfold in H. simpl in H. unfold frame_node in H. simpl in H.
    destruct H as ((Ha & (Hla & Hll & Hlr) & (Hsa & _ & Hsr)) & Hctx & Hroot & Hnd).
    apply wp_bind.
    destruct sr as [|x xc xl xk xv xr]; simpl in *; destruct_and?; wp_steps;
      apply wp_bind_inv;
      [eapply (splice_tail_spec _ _ _ _ ctx a c k v _ la lc ll lk lv lr sa _ sk sv _ _ Leaf)
      |eapply (splice_tail_spec _ _ _ _ ctx a c k v _ la lc ll lk lv lr sa _ sk sv _ _ (Br x xc xl xk xv xr))].
    all: try (intros h' q' H'; apply HQ; exact H').
    all: try hlookup; try solve_repr; try done.
    all: simpl; try addr_nodup.
    all: split_and!; try hlookup; solve_repr. }
  apply Forall_cons in Hdirs as [Hd1 Hdirs]. simpl in Hd1. subst d1.
  tsteps H.
  pose proof H as Hnd. apply Repr_unfold in Hnd. destruct Hnd as (_ & _ & _ & Hnd).
  rewrite ctx_addrs_app in Hnd. simpl in Hnd.
  rewrite ptr_eqb_Some_ne by addr_ne.
  tsteps H.
  pose proof (Repr_lookup _ (mkFrame DL f1 f1c f1k f1v f1s :: sctx ++ mkFrame DR a c k v (Br la lc ll lk lv lr) :: ctx) _ _ _ _ _ _ H) as Hsa.
  cbn [heap ctx_parent faddr rootp] in Hsa.
  eapply (transplant_right_spec _ _ _ (mkFrame DL f1 f1c f1k f1v f1s :: sctx ++ mkFrame DR a c k v (Br la lc ll lk lv lr) :: ctx) sa sc Leaf sk sv sr);
    [exact H|]. clear H.
  intros h' q' H' Hsa'. rewrite Hsa in Hsa'. clear Hsa.
  assert (Hnd' : NoDup (sa :: (addrs sr ++ ctx_addrs (mkFrame DL f1 f1c f1k f1v f1s :: sctx))
                         ++ a :: la :: addrs ll ++ addrs lr ++ ctx_addrs ctx)).
  { simpl. addr_nodup. }
  clear Hnd.
  change (mkFrame DL f1 f1c f1k f1v f1s :: sctx ++ mkFrame DR a c k v (Br la lc ll lk lv lr) :: ctx)
    with ((mkFrame DL f1 f1c f1k f1v f1s :: sctx) ++ mkFrame DR a c k v (Br la lc ll lk lv lr) :: ctx) in H'.
  rewrite plug_app in H'.
  pose proof (addrs_plug (mkFrame DL f1 f1c f1k f1v f1s :: sctx) sr) as Hperm.
  rewrite <- Hperm in Hnd'. clear Hperm.
  change (mkFrame DL f1 f1c f1k f1v f1s :: sctx ++ mkFrame DR sa c sk sv (Br la lc ll lk lv lr) :: ctx)
    with ((mkFrame DL f1 f1c f1k f1v f1s :: sctx) ++ mkFrame DR sa c sk sv (Br la lc ll lk lv lr) :: ctx) in HQ.
  setoid_rewrite plug_app in HQ.
  assert (Hne : plug (mkFrame DL f1 f1c f1k f1v f1s :: sctx) sr ≠ Leaf).
  { simpl. by apply plug_not_leaf. }
  destruct (plug (mkFrame DL f1 f1c f1k f1v f1s :: sctx) sr) as [|x xc xl xk xv xr]; [done|].
  clear Hne Hplug Hdirs Hf.
  apply Repr_unfold in H'. simpl in H'. unfold frame_node in H'. simpl in H'.
  destruct H' as ((Hx & Hxl & Hxr) & (Ha & (Hla & Hll & Hlr) & Hctx) & Hroot & Hnd).
  simpl in Hnd'. clear Hnd.
  wp_steps. apply wp_bind_inv.
  eapply (splice_tail_spec _ _ _ _ ctx a c k v _ la lc ll lk lv lr sa _ sk sv _ _ (Br x xc xl xk xv xr)).
  all: try (intros h'' q'' H'; apply HQ; exact H').
  all: try hlookup; try solve_repr; try done.
  all: simpl; try addr_nodup.
  all: split_and!; try hlookup; solve_repr.
Qed.


End Splice3.


(** * Delete *)

Section DeletePure.

Context {V : Type}.
Implicit Types (s : State V) (ctx rest : list (@frame V)) (t : @tree V).

Lemma rb_shape_plug ctx t :
  rb_shape (plug ctx t) ↔
  (match ctx with [] => color_of t = black | _ => ctx_root_color ctx = black end)
  ∧ (noRedRed t ∧ noRedRed_ctx ctx ∧ (ctx_color ctx = red → color_of t = black))
  ∧ (balanced t ∧ balanced_ctx ctx (bh t)).
Proof.
  unfold rb_shape. rewrite color_of_plug, noRedRed_plug, balanced_plug.
  destruct ctx; tauto.
Qed.

(** The shape invariants do not look at addresses, keys or values. *)
Lemma rb_shape_relabel ctx a c (l : @tree V) k v r a' k' v' :
  rb_shape (plug ctx (Br a c l k v r)) → rb_shape (plug ctx (Br a' c l k' v' r)).
Proof. rewrite !rb_shape_plug. simpl. tauto. Qed.

Lemma splice_leaf_left ctx a c k v (r : @tree V) :
  rb_shape (plug ctx (Br a c Leaf k v r)) →
  (c = red → rb_shape (plug ctx r)) ∧ (c = black → del_inv ctx r).
Proof.
  rewrite !rb_shape_plug. unfold del_inv, red, black. simpl.
  intros (Hc & ((Hcr & _ & Hr) & Hrrc & Hcc) & (Hbh & _ & Hb) & Hbc).
  destruct r as [|ra [] rl rk rv rr]; simpl in *; destruct c, ctx; simpl in *;
    try lia; intuition (try done; try lia; try congruence).
  all: try (match goal with
            | H : balanced_ctx ?c ?n |- balanced_ctx ?c ?m =>
                replace m with n by lia; exact H
            end).
Qed.

Lemma splice_leaf_right ctx a c k v (l : @tree V) :
  rb_shape (plug ctx (Br a c l k v Leaf)) →
  (c = red → rb_shape (plug ctx l)) ∧ (c = black → del_inv ctx l).
Proof.
  rewrite !rb_shape_plug. unfold del_inv, red, black. simpl.
  intros (Hc & ((Hcr & Hl & _) & Hrrc & Hcc) & (Hbh & Hb & _) & Hbc).
  destruct l as [|la [] ll lk lv lr]; simpl in *; destruct c, ctx; simpl in *;
    try lia; intuition (try done; try lia; try congruence).
  all: try (match goal with
            | H : balanced_ctx ?c ?n |- balanced_ctx ?c ?m =>
                replace m with n by lia; exact H
            end).
Qed.

Lemma ctx_before_app ctx1 ctx2 :
  ctx_before (ctx1 ++ ctx2) = ctx_before ctx2 ++ ctx_before ctx1.
Proof.
  induction ctx1 as [|f ctx1 IH]; simpl; [by rewrite app_nil_r|].
  by rewrite IH, <- app_assoc.
Qed.

Lemma ctx_after_app ctx1 ctx2 :
  ctx_after (ctx1 ++ ctx2) = ctx_after ctx1 ++ ctx_after ctx2.
Proof.
  induction ctx1 as [|f ctx1 IH]; simpl; [done|].
  by rewrite IH, <- app_assoc.
Qed.

Lemma height_plug ctx t : (length ctx + height t ≤ height (plug ctx t))%nat.
Proof.
  revert t. induction ctx as [|f ctx IH]; intros t; simpl; [done|].
  etrans; [|apply IH]. unfold fill. destruct (fdir f); simpl; lia.
Qed.

Lemma splice_out_elems ctx a c (l : @tree V) k v r :
  elems (plug (splice_out ctx (Br a c l k v r)).1.2 (splice_out ctx (Br a c l k v r)).2)
  = ctx_before ctx ++ elems l ++ elems r ++ ctx_after ctx.
Proof.
  unfold splice_out.
  destruct l as [|la lc ll lk lv lr]; [by rewrite elems_plug|].
  destruct r as [|ra rc rl rk rv rr].
  { rewrite elems_plug. simpl. by rewrite <- !app_assoc. }
  pose proof (min_ctx_plug [] (Br ra rc rl rk rv rr)) as Hplug.
  pose proof (min_ctx_before (Br ra rc rl rk rv rr)) as Hbef.
  destruct (min_ctx_shape [] (Br ra rc rl rk rv rr)) as (sa & sc & sk & sv & sr & Hshape); [done|].
  destruct (min_ctx [] (Br ra rc rl rk rv rr)) as [sctx S]. cbn [fst snd] in *. subst S.
  cbn [plug] in Hplug. rewrite <- Hplug. cbn [fst snd].
  rewrite !elems_plug, ctx_before_app, ctx_after_app, Hbef. simpl.
  repeat (rewrite <- app_assoc; simpl). done.
Qed.

Lemma splice_out_length ctx a c (l : @tree V) k v r :
  (length (splice_out ctx (Br a c l k v r)).1.2 ≤ length ctx + height (Br a c l k v r))%nat.
Proof.
  unfold splice_out.
  destruct l as [|la lc ll lk lv lr]; [simpl; lia|].
  destruct r as [|ra rc rl rk rv rr]; [simpl; lia|].
  pose proof (min_ctx_length [] (Br ra rc rl rk rv rr)) as Hlen.
  destruct (min_ctx_shape [] (Br ra rc rl rk rv rr)) as (sa & sc & sk & sv & sr & Hshape); [done|].
  destruct (min_ctx [] (Br ra rc rl rk rv rr)) as [sctx S]. cbn [fst snd] in *. subst S.
  cbn [fst snd]. rewrite length_app. simpl in *. lia.
Qed.

Lemma splice_out_shape ctx a c (l : @tree V) k v r :
  rb_shape (plug ctx (Br a c l k v r)) →
  let '(oc, ctx', x) := splice_out ctx (Br a c l k v r) in
  (oc = red → rb_shape (plug ctx' x)) ∧ (oc = black → del_inv ctx' x).
Proof.
  intros Hrb. unfold splice_out.
  destruct l as [|la lc ll lk lv lr]; [by apply splice_leaf_left in Hrb|].
  destruct r as [|ra rc rl rk rv rr]; [by apply splice_leaf_right in Hrb|].
  pose proof (min_ctx_plug [] (Br ra rc rl rk rv rr)) as Hplug.
  destruct (min_ctx_shape [] (Br ra rc rl rk rv rr)) as (sa & sc & sk & sv & sr & Hshape); [done|].
  destruct (min_ctx [] (Br ra rc rl rk rv rr)) as [sctx S]. cbn [fst snd] in *. subst S.
  apply (splice_leaf_left _ sa sc sk sv sr).
  rewrite plug_app. simpl. rewrite Hplug.
  apply (rb_shape_relabel ctx a c _ k v). exact Hrb.
Qed.

Lemma Search_eq key s t :
  Repr s t → Search key s = Ok (rootp (descend key [] t).2, s).
Proof.
  intros H.
  destruct (Search_spec key s t (λ r s', r = rootp (descend key [] t).2 ∧ s' = s) H)
    as (r & s' & Heq & -> & ->); [done|done].
Qed.

(** [Delete] of a key that is not in the tree. *)
Lemma Delete_absent key s t ctx :
  Repr s t → descend key [] t = (ctx, Leaf) → Delete key s = Ok (false, s).
Proof.
  intros H Hd. unfold Delete, bind. rewrite (Search_eq key s t H), Hd. done.
Qed.

Lemma Delete_found key h q z t ctx a c l k v r Q :
  Repr (mkState h q z) t →
  rb_shape t →
  descend key [] t = (ctx, Br a c l k v r) →
  (∀ h' q' T', Repr (mkState h' q' (wrap_int (z - 1))) T' →
     rb_shape T' →
     elems T' = ctx_before ctx ++ elems l ++ elems r ++ ctx_after ctx →
     Q true (mkState h' q' (wrap_int (z - 1)))) →
  wp (Delete key) (mkState h q z) Q.
Proof.
  intros H Hrb Hd HQ.
  pose proof (Repr_fuel _ _ H) as Hfuel.
  pose proof (descend_plug key [] t) as Hp. rewrite Hd in Hp. simpl in Hp. subst t.
  unfold Delete. apply wp_bind. eapply Search_spec; [exact H|]. rewrite Hd. cbn [snd rootp].
  unfold with_fuel. apply wp_bind.
  pose proof (height_plug ctx (Br a c l k v r)) as Hh.
  apply (delete_splice_spec _ _ _ _ ctx a c l k v r); [exact H|simpl in *; unfold fuel_of in *; simpl in *; lia|].
  intros h' q' H'.
  pose proof (splice_out_shape ctx a c l k v r Hrb) as Hshape.
  pose proof (splice_out_elems ctx a c l k v r) as Hel.
  pose proof (splice_out_length ctx a c l k v r) as Hlen.
  destruct (splice_out ctx (Br a c l k v r)) as [[oc ctx'] x]. cbn [fst snd] in *.
  destruct Hshape as [Hred Hblack].
  apply wp_bind. destruct oc.
  - apply wp_ret. apply wp_bind, wp_getSize. apply wp_bind, wp_setSize. apply wp_ret. simpl.
    apply (HQ _ _ _ H'); [by apply Hred|done].
  - apply (deleteFixup_spec _ ctx' x); [|exact H'|by apply Hblack|].
    { unfold del_measure, fuel_of in *. simpl in *. destruct (color_of x); lia. }
    intros h'' q'' T' HT' Hc Hrr Hb Hel'.
    apply wp_bind, wp_getSize. apply wp_bind, wp_setSize. apply wp_ret. simpl.
    apply (HQ _ _ _ HT'); [done|]. by rewrite Hel'.
Qed.

End DeletePure.


(** * The operations on a red-black tree *)

Section TopLevel.

Context {V : Type}.
Implicit Types (s : State V) (ctx rest : list (@frame V)) (t : @tree V).

Lemma rb_tree_shape t : rb_tree t ↔ rb_shape t ∧ sorted_keys t.
Proof. unfold rb_tree, rb_shape. rewrite <- balanced_black_paths. tauto. Qed.

Lemma wrap_int_succ z : wrap_int (wrap_int z + 1) = wrap_int (z + 1).
Proof.
  unfold wrap_int.
  replace (((z + 2 ^ 63) mod 2 ^ 64 - 2 ^ 63 + 1 + 2 ^ 63)) with ((z + 2 ^ 63) mod 2 ^ 64 + 1) by lia.
  replace (z + 1 + 2 ^ 63) with (z + 2 ^ 63 + 1) by lia.
  by rewrite Zplus_mod_idemp_l.
Qed.

Lemma wrap_int_pred z : wrap_int (wrap_int z - 1) = wrap_int (z - 1).
Proof.
  unfold wrap_int.
  replace (((z + 2 ^ 63) mod 2 ^ 64 - 2 ^ 63 - 1 + 2 ^ 63)) with ((z + 2 ^ 63) mod 2 ^ 64 + (-1)) by lia.
  replace (z - 1 + 2 ^ 63) with (z + 2 ^ 63 + (-1)) by lia.
  by rewrite Zplus_mod_idemp_l.
Qed.

Lemma wrap_int_small z : - 2 ^ 63 ≤ z < 2 ^ 63 → wrap_int z = z.
Proof. intros H. unfold wrap_int. rewrite Z.mod_small; lia. Qed.

Lemma list_remove_absent key (l : list (string * V)) :
  key ∉ l.*1 → list_remove key l = l.
Proof.
  intros Hn. unfold list_remove. induction l as [|[k v] l IH]; [done|].
  rewrite fmap_cons, not_elem_of_cons in Hn. destruct Hn as [Hk Hn]. simpl in Hk.
  rewrite filter_cons_True by (simpl; congruence). by rewrite IH.
Qed.

Lemma list_remove_present key v (l1 l2 : list (string * V)) :
  StronglySorted str_lt (l1 ++ (key, v) :: l2).*1 →
  list_remove key (l1 ++ (key, v) :: l2) = l1 ++ l2.
Proof.
  rewrite fmap_app, fmap_cons. simpl. rewrite sorted_app, sorted_cons.
  intros (H1 & (H2 & H3) & H4).
  unfold list_remove. rewrite filter_app, filter_cons_False by (simpl; tauto).
  fold (list_remove key l1). fold (list_remove key l2).
  rewrite !list_remove_absent; [done| |].
  - intros Hin. apply H3 in Hin. by destruct (str_lt_irrefl key).
  - intros Hin. specialize (H4 key key Hin ltac:(apply list_elem_of_here)).
    by destruct (str_lt_irrefl key).
Qed.

Lemma sorted_remove (x : string) (l1 l2 : list string) :
  StronglySorted str_lt (l1 ++ x :: l2) → StronglySorted str_lt (l1 ++ l2).
Proof.
  rewrite !sorted_app, sorted_cons. intros (H1 & (H2 & H3) & H4).
  split_and!; [done..|]. intros a b Ha Hb. apply H4; [done|].
  by apply list_elem_of_further.
Qed.

(** In a sorted tree the descent finds exactly the keys of the tree. *)
Lemma descend_Leaf_iff key t :
  sorted_keys t → ((descend key [] t).2 = Leaf ↔ key ∉ keys t).
Proof.
  intros Hs. rewrite <- (tree_lookup_None key t Hs), tree_lookup_descend.
  by destruct (descend key [] t).2.
Qed.

Lemma Repr_New : Repr (@New V) Leaf.
Proof. split_and!; [done|done|constructor]. Qed.

Lemma rb_tree_Leaf : rb_tree (@Leaf V).
Proof.
  split_and!; [done|done| |constructor]. exists O. constructor.
Qed.

(** [Insert] on a state that holds a red-black tree. *)
Lemma Insert_spec key value s t :
  Repr s t → rb_tree t →
  ∃ s' t',
    Insert key value s = Ok (tt, s')
    ∧ Repr s' t' ∧ rb_tree t'
    ∧ elems t' = list_put key value (elems t)
    ∧ size s' = (if bool_decide (key ∈ keys t) then size s else wrap_int (size s + 1))
    ∧ length (elems t') =
        (if bool_decide (key ∈ keys t) then length (elems t) else S (length (elems t))).
Proof.
  intros H Hrb. apply rb_tree_shape in Hrb as [(Hc & Hrr & Hb) Hs].
  pose proof (descend_plug key [] t) as Hp.
  pose proof (descend_bounds key [] t Hs (ctx_bounds_nil key)) as Hbd.
  pose proof (descend_Leaf_iff key t Hs) as Hin.
  destruct (descend key [] t) as [ctx [|a c l k v r]] eqn:Hd; cbn [fst snd plug] in *.
  - (* the key is new *)
    rewrite bool_decide_eq_false_2 by (by apply Hin).
    destruct s as [h q z].
    destruct (Insert_absent key value h q z t ctx
      (λ _ s', ∃ t', s' = s' ∧ Repr s' t' ∧ rb_shape t'
                 ∧ elems t' = ctx_before ctx ++ (key, value) :: ctx_after ctx
                 ∧ size s' = wrap_int (z + 1)))
      as ([] & s' & Heq & t' & _ & Ht' & Hrb' & Hel & Hsz); try done.
    { intros h' q' T' HT' ? ? ? Hel. exists T'. by split_and!. }
    assert (Helt : elems t = ctx_before ctx ++ ctx_after ctx).
    { rewrite <- Hp, elems_plug. done. }
    destruct Hbd as [Hb1 Hb2].
    exists s', t'. split_and!; try done.
    + apply rb_tree_shape. split; [done|]. unfold sorted_keys, keys in *.
      rewrite Hel, fmap_app, fmap_cons. simpl.
      rewrite Helt, fmap_app in Hs.
      apply sorted_put_absent; [done| |].
      * apply Forall_fmap. exact Hb1.
      * apply Forall_fmap. exact Hb2.
    + rewrite Hel, Helt. symmetry. by apply list_put_absent.
    + rewrite Hel, Helt, !length_app. simpl. lia.
  - (* the key is there *)
    assert (k = key) as -> by (by eapply (descend_found key [] t); rewrite Hd).
    rewrite bool_decide_eq_true_2.
    2:{ destruct (decide (key ∈ keys t)) as [|Hn]; [done|]. by apply Hin in Hn. }
    pose proof (Insert_found key value s t ctx a c l key v r H Hd) as Heq.
    subst t. destruct s as [h q z]. simpl in Heq.
    apply (Repr_setValue _ _ _ _ _ _ _ _ _ value) in H.
    eexists _, _. split; [exact Heq|]. split; [exact H|].
    destruct Hbd as [Hb1 Hb2].
    split_and!.
    + apply rb_tree_shape. split.
      * apply (rb_shape_relabel ctx a c l key v r). by split_and!.
      * unfold sorted_keys, keys in *. rewrite elems_plug in *. simpl in *.
        by rewrite !fmap_app, fmap_cons in *.
    + rewrite !elems_plug. simpl.
      assert (Hassoc : ∀ x, ctx_before ctx ++ (elems l ++ (key, x) :: elems r) ++ ctx_after ctx
                = (ctx_before ctx ++ elems l) ++ (key, x) :: elems r ++ ctx_after ctx).
      { intros x. rewrite <- !app_assoc. done. }
      rewrite !Hassoc.
      symmetry. apply list_put_present.
      apply Forall_app. split; [done|].
      unfold sorted_keys, keys in Hs. rewrite elems_plug in Hs. simpl in Hs.
      rewrite !fmap_app, fmap_cons in Hs. simpl in Hs.
      apply sorted_app in Hs as (_ & Hs & _). apply sorted_app in Hs as (Hs & _ & _).
      apply sorted_app in Hs as (_ & _ & Hs).
      apply Forall_forall. intros [k' v'] Hk'. simpl. apply Hs.
      * apply list_elem_of_fmap. by exists (k', v').
      * apply list_elem_of_here.
    + done.
    + rewrite !elems_plug. simpl. rewrite !length_app. simpl. by rewrite ?length_app.
Qed.

(** [Delete] on a state that holds a red-black tree. *)
Lemma Delete_spec key s t :
  Repr s t → rb_tree t →
  ∃ s' t',
    Delete key s = Ok (bool_decide (key ∈ keys t), s')
    ∧ Repr s' t' ∧ rb_tree t'
    ∧ elems t' = list_remove key (elems t)
    ∧ size s' = (if bool_decide (key ∈ keys t) then wrap_int (size s - 1) else size s)
    ∧ length (elems t) =
        (if bool_decide (key ∈ keys t) then S (length (elems t')) else length (elems t'))
    ∧ (key ∉ keys t → s' = s).
Proof.
  intros H Hrb. pose proof Hrb as Hrb0.
  apply rb_tree_shape in Hrb as [Hsh Hs].
  pose proof (descend_plug key [] t) as Hp.
  pose proof (descend_Leaf_iff key t Hs) as Hin.
  destruct (descend key [] t) as [ctx [|a c l k v r]] eqn:Hd; cbn [fst snd plug] in *.
  - (* the key is not there *)
    assert (Hn : key ∉ keys t) by (by apply Hin).
    rewrite bool_decide_eq_false_2 by done.
    exists s, t. split_and!; try done.
    + by eapply Delete_absent.
    + symmetry. by apply list_remove_absent.
  - (* the key is there *)
    assert (k = key) as -> by (by eapply (descend_found key [] t); rewrite Hd).
    assert (Hk : key ∈ keys t).
    { destruct (decide (key ∈ keys t)) as [|Hn]; [done|]. by apply Hin in Hn. }
    rewrite bool_decide_eq_true_2 by done.
    destruct s as [h q z].
    destruct (Delete_found key h q z t ctx a c l key v r
      (λ b s', ∃ t', b = true ∧ Repr s' t' ∧ rb_shape t'
                 ∧ elems t' = ctx_before ctx ++ elems l ++ elems r ++ ctx_after ctx
                 ∧ size s' = wrap_int (z - 1)))
      as (b & s' & Heq & t' & -> & Ht' & Hrb' & Hel & Hsz); try done.
    { intros h' q' T' HT' ? Hel. exists T'. by split_and!. }
    assert (Helt : elems t = (ctx_before ctx ++ elems l) ++ (key, v) :: elems r ++ ctx_after ctx).
    { rewrite <- Hp, elems_plug. simpl. by rewrite <- !app_assoc. }
    exists s', t'. split_and!; try done.
    + apply rb_tree_shape. split; [done|]. unfold sorted_keys, keys in *.
      rewrite Hel. rewrite Helt in Hs.
      rewrite fmap_app, fmap_cons in Hs. apply sorted_remove in Hs.
      by rewrite app_assoc, fmap_app.
    + rewrite Hel, Helt. rewrite list_remove_present by (by rewrite <- Helt).
      by rewrite <- app_assoc.
    + rewrite Hel, Helt, !length_app. simpl. rewrite !length_app. lia.
Qed.

Lemma step_spec (o : op V) s t :
  Repr s t → rb_tree t →
  ∃ s' t',
    step o s = Ok s' ∧ Repr s' t' ∧ rb_tree t'
    ∧ elems t' = model_step o (elems t)
    ∧ (size s = wrap_int (Z.of_nat (length (elems t))) →
       size s' = wrap_int (Z.of_nat (length (elems t')))).
Proof.
  intros H Hrb. destruct o as [k v|k]; simpl.
  - destruct (Insert_spec k v s t H Hrb) as (s' & t' & Heq & Ht' & Hrb' & Hel & Hsz & Hlen).
    exists s', t'. rewrite Heq. split_and!; try done.
    intros Hz. rewrite Hsz, Hlen. destruct (bool_decide (k ∈ keys t)); [done|].
    rewrite Hz, wrap_int_succ. f_equal. lia.
  - destruct (Delete_spec k s t H Hrb) as (s' & t' & Heq & Ht' & Hrb' & Hel & Hsz & Hlen & _).
    exists s', t'. rewrite Heq. split_and!; try done.
    intros Hz. rewrite Hsz. rewrite Hlen in Hz. destruct (bool_decide (k ∈ keys t)); [|done].
    rewrite Hz, wrap_int_pred. f_equal. lia.
Qed.

Lemma run_spec_from (ops : list (op V)) : ∀ s t,
  Repr s t → rb_tree t →
  ∃ s' t',
    run ops s = Ok s' ∧ Repr s' t' ∧ rb_tree t'
    ∧ elems t' = fold_left (λ l o, model_step o l) ops (elems t)
    ∧ (size s = wrap_int (Z.of_nat (length (elems t))) →
       size s' = wrap_int (Z.of_nat (length (elems t')))).
Proof.
  induction ops as [|o ops IH]; intros s t H Hrb; simpl.
  { exists s, t. by split_and!. }
  destruct (step_spec o s t H Hrb) as (s1 & t1 & Heq & H1 & Hrb1 & Hel1 & Hsz1).
  destruct (IH s1 t1 H1 Hrb1) as (s' & t' & Heq' & H' & Hrb' & Hel' & Hsz').
  exists s', t'. rewrite Heq. split_and!; try done.
  - by rewrite Hel', Hel1.
  - auto.
Qed.

(** Every sequence of operations from the empty tree runs to the end and
    leaves a red-black tree holding what the operations say. *)
Lemma run_spec (ops : list (op V)) :
  ∃ s t,
    run ops New = Ok s ∧ Repr s t ∧ rb_tree t
    ∧ elems t = model ops
    ∧ size s = wrap_int (Z.of_nat (length (elems t))).
Proof.
  destruct (run_spec_from ops New Leaf Repr_New rb_tree_Leaf)
    as (s & t & Heq & H & Hrb & Hel & Hsz).
  exists s, t. split_and!; try done. by apply Hsz.
Qed.

End TopLevel.


(** * Traversal, printing and parent links *)

Section Traversal.

Context {V : Type}.
Implicit Types (s : State V) (ctx rest : list (@frame V)) (t : @tree V).

Lemma inOrder_spec {A} (fn : string → V → A → A) (h : gmap positive (Node V)) t :
  ∀ fuel pp acc,
  (height t < fuel)%nat →
  repr h t pp →
  inOrder fuel h (rootp t) fn acc
  = Ok (fold_left (λ acc kv, fn kv.1 kv.2 acc) (elems t) acc).
Proof.
  induction t as [|a c l IHl k v r IHr]; intros fuel pp acc Hf Hr;
    (destruct fuel as [|fuel]; [simpl in Hf; lia|]); simpl; [done|].
  destruct Hr as (Ha & Hl & Hr). rewrite Ha. simpl in Hf |- *.
  rewrite (IHl fuel (Some a)); [|lia|done].
  rewrite (IHr fuel (Some a)); [|lia|done].
  by rewrite fold_left_app.
Qed.

Lemma InOrder_spec {A} (fn : string → V → A → A) acc s t :
  Repr s t →
  InOrder fn acc s = Ok (fold_left (λ acc kv, fn kv.1 kv.2 acc) (elems t) acc).
Proof.
  intros H. pose proof (Repr_fuel _ _ H) as Hfuel.
  destruct H as (Hr & Hroot & _). unfold InOrder. rewrite Hroot.
  apply (inOrder_spec fn _ t _ None); [lia|done].
Qed.

Lemma fold_left_log (l : list (string * V)) (acc : list (string * V)) :
  fold_left (λ acc kv, acc ++ [(kv.1, kv.2)]) l acc = acc ++ l.
Proof.
  revert acc. induction l as [|[k v] l IH]; intros acc; simpl; [by rewrite app_nil_r|].
  rewrite IH, <- app_assoc. done.
Qed.

Lemma printNode_spec (show : V → string) (h : gmap positive (Node V)) t :
  ∀ fuel pp depth out,
  (height t < fuel)%nat →
  repr h t pp →
  ∃ out', printNode show fuel h (rootp t) depth out = Ok out'.
Proof.
  induction t as [|a c l IHl k v r IHr]; intros fuel pp depth out Hf Hr;
    (destruct fuel as [|fuel]; [simpl in Hf; lia|]); simpl; [by eexists|].
  destruct Hr as (Ha & Hl & Hr). rewrite Ha. simpl in Hf |- *.
  destruct (IHr fuel (Some a) (S depth) out) as [out1 ->]; [lia|done|].
  apply (IHl fuel (Some a)); [lia|done].
Qed.

Lemma Print_spec (show : V → string) out s t :
  Repr s t → ∃ out', Print show out s = Ok out'.
Proof.
  intros H. pose proof (Repr_fuel _ _ H) as Hfuel.
  destruct H as (Hr & Hroot & _). unfold Print. rewrite Hroot.
  destruct t as [|a c l k v r]; [by eexists|].
  apply (printNode_spec show _ (Br a c l k v r) _ None); [lia|done].
Qed.

(** Every node of a tree is the root of a subtree below some context. *)
Lemma addrs_focus t a :
  a ∈ addrs t → ∃ ctx c l k v r, t = plug ctx (Br a c l k v r).
Proof.
  induction t as [|b c l IHl k v r IHr]; simpl.
  { intros H. by apply not_elem_of_nil in H. }
  rewrite elem_of_cons, elem_of_app. intros [->|[Hin|Hin]].
  - by exists [], c, l, k, v, r.
  - destruct (IHl Hin) as (ctx & c' & l' & k' & v' & r' & ->).
    exists (ctx ++ [mkFrame DL b c k v r]), c', l', k', v', r'.
    by rewrite plug_app.
  - destruct (IHr Hin) as (ctx & c' & l' & k' & v' & r' & ->).
    exists (ctx ++ [mkFrame DR b c k v l]), c', l', k', v', r'.
    by rewrite plug_app.
Qed.

Lemma reachable_addrs s t a : Repr s t → reachable s a → a ∈ addrs t.
Proof.
  intros H Hreach. induction Hreach as [a Hroot|a n b _ IH Hn Hl|a n b _ IH Hn Hr].
  - destruct H as (_ & Hr & _). rewrite Hroot in Hr. symmetry in Hr.
    by apply rootp_addrs.
  - destruct (addrs_focus t a IH) as (ctx & c & l & k & v & r & ->).
    rewrite (Repr_lookup _ _ _ _ _ _ _ _ H) in Hn. injection Hn as <-. simpl in Hl.
    rewrite addrs_plug. simpl. apply rootp_addrs in Hl.
    repeat (rewrite elem_of_cons || rewrite elem_of_app). auto 10.
  - destruct (addrs_focus t a IH) as (ctx & c & l & k & v & r & ->).
    rewrite (Repr_lookup _ _ _ _ _ _ _ _ H) in Hn. injection Hn as <-. simpl in Hr.
    rewrite addrs_plug. simpl. apply rootp_addrs in Hr.
    repeat (rewrite elem_of_cons || rewrite elem_of_app). auto 10.
Qed.

Lemma Repr_parent_links s t : Repr s t → parent_links s.
Proof.
  intros H. split.
  { intros a Hroot. pose proof H as (Hr & Hrt & _). rewrite Hroot in Hrt.
    destruct t as [|a' c l k v r]; [done|]. injection Hrt as ->.
    destruct Hr as (Ha & _). by eexists. }
  intros a Hreach. apply (reachable_addrs s t a H) in Hreach.
  destruct (addrs_focus t a Hreach) as (ctx & c & l & k & v & r & ->).
  apply Repr_unfold in H. simpl in H.
  destruct H as ((Ha & Hl & Hr) & Hctx & Hroot & Hnd).
  eexists. split; [exact Ha|]. simpl. split_and!.
  - intros b Hb. destruct l as [|b' lc ll lk lv lr]; [done|]. injection Hb as ->.
    destruct Hl as (Hb & _). by eexists.
  - intros b Hb. destruct r as [|b' rc rl rk rv rr]; [done|]. injection Hb as ->.
    destruct Hr as (Hb & _). by eexists.
  - intros p Hp. destruct ctx as [|[d g gc gk gv u] ctx]; [done|].
    simpl in Hp. injection Hp as ->. simpl in Hctx, Hnd.
    destruct Hctx as (Hg & _). unfold frame_node in Hg. simpl in Hg.
    eexists. split; [exact Hg|].
    assert (Hne : rootp u ≠ Some a).
    { assert (Hnotin : a ∉ addrs u) by addr_notin.
      intros Heq. by apply rootp_addrs in Heq. }
    destruct d; simpl; auto.
Qed.

End Traversal.


(** * The claims of the specification *)

Section Claims.

Context {V : Type}.
Implicit Types (s : State V) (ctx rest : list (@frame V)) (t : @tree V).

Lemma list_put_elem key value (l : list (string * V)) :
  (key, value) ∈ list_put key value l.
Proof.
  induction l as [|[k v] l IH]; simpl; [apply list_elem_of_here|].
  destruct (key_lt key k); [apply list_elem_of_here|].
  destruct (key_lt k key); [by apply list_elem_of_further|apply list_elem_of_here].
Qed.

Lemma list_remove_notin key (l : list (string * V)) :
  key ∉ (list_remove key l).*1.
Proof.
  intros Hin. apply list_elem_of_fmap in Hin as ([k v] & -> & Hin).
  unfold list_remove in Hin. apply list_elem_of_filter in Hin as [Hne _]. by simpl in Hne.
Qed.

(** What [Search] returns on a red-black tree: the node of the key. *)
Lemma Search_found key v s t :
  Repr s t → sorted_keys t → (key, v) ∈ elems t →
  ∃ a n, Search key s = Ok (Some a, s) ∧ heap s !! a = Some n
         ∧ Key n = key ∧ Value n = v ∧ a ∈ addrs t.
Proof.
  intros H Hs Hin. apply tree_lookup_elem in Hin; [|done].
  rewrite tree_lookup_descend in Hin.
  pose proof (descend_plug key [] t) as Hp. cbn [plug] in Hp.
  rewrite (Search_eq key s t H).
  destruct (descend key [] t) as [ctx [|a c l k v' r]] eqn:Hd; [done|].
  cbn [fst snd] in *. injection Hin as ->.
  assert (k = key) as -> by (by eapply (descend_found key [] t); rewrite Hd).
  subst t. exists a. eexists. split; [done|]. split; [by eapply Repr_lookup|].
  split_and!; [done..|]. rewrite addrs_plug. simpl. apply list_elem_of_here.
Qed.

Lemma Search_absent key s t :
  Repr s t → sorted_keys t → key ∉ keys t → Search key s = Ok (None, s).
Proof.
  intros H Hs Hn. rewrite (Search_eq key s t H).
  apply (descend_Leaf_iff key t Hs) in Hn. by rewrite Hn.
Qed.

Lemma addrs_reachable s t a : Repr s t → a ∈ addrs t → reachable s a.
Proof.
  intros H Hin. destruct (addrs_focus t a Hin) as (ctx & c & l & k & v & r & ->).
  clear Hin. revert a c l k v r H.
  induction ctx as [|[d g gc gk gv u] ctx IH]; intros a c l k v r H.
  - apply reach_root. destruct H as (_ & Hr & _). exact Hr.
  - destruct d; simpl in H.
    + eapply (reach_left _ g); [eapply IH; exact H|eapply Repr_lookup; exact H|reflexivity].
    + eapply (reach_right _ g); [eapply IH; exact H|eapply Repr_lookup; exact H|reflexivity].
Qed.

(** C1. After every sequence of Insert and Delete from the empty tree the
    run has ended without failure and the tree satisfies the red-black
    invariants: the root is black, no red node has a red child, all paths
    to a missing child pass the same number of black nodes, and the keys
    in order are strictly increasing.  The statement holds for every
    sequence, hence after each operation of a sequence. *)
Theorem C1_invariants_preserved (ops : list (op V)) :
  ∃ s t,
    run ops New = Ok s ∧ Repr s t
    ∧ color_of t = black
    ∧ noRedRed t
    ∧ (∃ n, black_paths t n)
    ∧ StronglySorted str_lt (keys t).
Proof.
  destruct (run_spec ops) as (s & t & Hrun & H & (Hc & Hrr & Hbp & Hs) & _).
  exists s, t. by split_and!.
Qed.

(** C2. On every red-black tree: after [Insert k v], [Search k] returns a
    node whose key is [k] and whose value is [v]; after [Delete k],
    [Search k] returns nil. *)
Theorem C2_round_trip s t (k : string) (v : V) :
  Repr s t → rb_tree t →
  (∃ s1 a n,
     Insert k v s = Ok (tt, s1)
     ∧ Search k s1 = Ok (Some a, s1)
     ∧ heap s1 !! a = Some n ∧ Key n = k ∧ Value n = v)
  ∧ (∃ b s2, Delete k s = Ok (b, s2) ∧ Search k s2 = Ok (None, s2)).
Proof.
  intros H Hrb. split.
  - destruct (Insert_spec k v s t H Hrb) as (s1 & t1 & Heq & H1 & Hrb1 & Hel & _).
    destruct (Search_found k v s1 t1 H1) as (a & n & Hs & Hn & Hk & Hv & _).
    + by destruct Hrb1 as (_ & _ & _ & ?).
    + rewrite Hel. apply list_put_elem.
    + by exists s1, a, n.
  - destruct (Delete_spec k s t H Hrb) as (s2 & t2 & Heq & H2 & Hrb2 & Hel & _).
    eexists _, s2. split; [exact Heq|].
    apply (Search_absent k s2 t2 H2).
    + by destruct Hrb2 as (_ & _ & _ & ?).
    + unfold keys. rewrite Hel. apply list_remove_notin.
Qed.

(** C4. [Insert] of a key that is present overwrites the value stored in
    the cell of its node and changes nothing else: no cell is added, every
    color and link is as before, the root and the size are as before. *)
Theorem C4_insert_present_overwrites s t (k : string) (v : V) :
  Repr s t → rb_tree t → k ∈ keys t →
  ∃ a n,
    reachable s a ∧ heap s !! a = Some n ∧ Key n = k
    ∧ Insert k v s =
        Ok (tt, mkState (<[a := mkNode (Key n) v (Color n) (Parent n) (Left n) (Right n)]> (heap s))
                        (root s) (size s)).
Proof.
  intros H (_ & _ & _ & Hs) Hin.
  pose proof (descend_Leaf_iff k t Hs) as Hiff.
  pose proof (descend_plug k [] t) as Hp. cbn [plug] in Hp.
  destruct (descend k [] t) as [ctx [|a c l k' v' r]] eqn:Hd; cbn [fst snd] in *.
  { exfalso. by apply Hiff. }
  assert (k' = k) as -> by (by eapply (descend_found k [] t); rewrite Hd).
  exists a. eexists. split_and!.
  - apply (addrs_reachable s t a H). rewrite <- Hp, addrs_plug. simpl. apply list_elem_of_here.
  - subst t. by eapply Repr_lookup.
  - done.
  - by rewrite (Insert_found k v s t ctx a c l k v' r H Hd).
Qed.

(** C5. [Delete] of a key that is absent returns false and leaves the
    memory, the root and the size as they were. *)
Theorem C5_delete_absent_unchanged s t (k : string) :
  Repr s t → rb_tree t → k ∉ keys t → Delete k s = Ok (false, s).
Proof.
  intros H (_ & _ & _ & Hs) Hn.
  apply (descend_Leaf_iff k t Hs) in Hn.
  destruct (descend k [] t) as [ctx x] eqn:Hd. simpl in Hn. subst x.
  by eapply Delete_absent.
Qed.

Lemma run_counts_spec_from (ops : list (op V)) : ∀ s t,
  Repr s t → rb_tree t →
  ∃ s' t' i d,
    run_counts ops s = Ok (s', i, d) ∧ run ops s = Ok s'
    ∧ Repr s' t' ∧ rb_tree t'
    ∧ (length (elems t) + i = length (elems t') + d)%nat
    ∧ (size s = wrap_int (Z.of_nat (length (elems t))) →
       size s' = wrap_int (Z.of_nat (length (elems t')))).
Proof.
  induction ops as [|o ops IH]; intros s t H Hrb.
  { exists s, t, O, O. by split_and!. }
  pose proof Hrb as (_ & _ & _ & Hs).
  destruct (step_spec o s t H Hrb) as (s1 & t1 & Hstep & H1 & Hrb1 & Hel1 & Hsz1).
  destruct (IH s1 t1 H1 Hrb1) as (s' & t' & i & d & Hrc & Hrun & H' & Hrb' & Hlen & Hsz').
  destruct o as [k v|k]; simpl in *.
  - destruct (Insert_spec k v s t H Hrb) as (s1' & t1' & Heq & _ & _ & Hel & _ & Hl).
    rewrite Heq in Hstep. injection Hstep as <-.
    rewrite (Search_eq k s t H), Heq, Hrc, Hrun.
    pose proof (descend_Leaf_iff k t Hs) as Hiff.
    assert (Hlen1 : length (elems t1) = length (elems t1')) by (by rewrite Hel1, Hel).
    eexists s', t', _, d. split_and!; try done; [|auto].
    destruct (rootp (descend k [] t).2) eqn:Hroot.
    + rewrite bool_decide_eq_true_2 in Hl; [lia|].
      destruct (decide (k ∈ keys t)) as [|Hn]; [done|].
      apply Hiff in Hn. by rewrite Hn in Hroot.
    + apply rootp_None in Hroot. apply Hiff in Hroot.
      rewrite bool_decide_eq_false_2 in Hl by done. lia.
  - destruct (Delete_spec k s t H Hrb) as (s1' & t1' & Heq & _ & _ & Hel & _ & Hl & _).
    rewrite Heq in Hstep. injection Hstep as <-.
    rewrite Heq, Hrc, Hrun.
    assert (Hlen1 : length (elems t1) = length (elems t1')) by (by rewrite Hel1, Hel).
    eexists s', t', i, _. split_and!; try done; [|auto].
    destruct (bool_decide (k ∈ keys t)); lia.
Qed.

(** C3 (amended). For every sequence of operations from the empty tree,
    [Size] is the number of keys in the tree, which is the number of
    [Insert] calls whose key was absent at the call minus the number of
    [Delete] calls that returned true (as a Go [int]); [Delete k] returns
    true exactly when [k] was present at the call, and takes one from the
    size exactly then. *)
Theorem C3_size_counts (ops : list (op V)) (k : string) :
  ∃ s t i d,
    run_counts ops New = Ok (s, i, d) ∧ run ops New = Ok s ∧ Repr s t
    ∧ Size s = Ok (size s, s)
    ∧ (d ≤ i)%nat ∧ length (keys t) = (i - d)%nat
    ∧ size s = wrap_int (Z.of_nat i - Z.of_nat d)
    ∧ ∃ b s',
        Delete k s = Ok (b, s')
        ∧ (b = true ↔ k ∈ keys t)
        ∧ (b = true ↔ ∃ a, Search k s = Ok (Some a, s))
        ∧ size s' = (if b then wrap_int (size s - 1) else size s).
Proof.
  destruct (run_counts_spec_from ops New Leaf Repr_New rb_tree_Leaf)
    as (s & t & i & d & Hrc & Hrun & H & Hrb & Hlen & Hsz).
  simpl in Hlen. specialize (Hsz eq_refl).
  exists s, t, i, d. split_and!; try done.
  - lia.
  - unfold keys. rewrite length_fmap. lia.
  - rewrite Hsz. f_equal. lia.
  - destruct (Delete_spec k s t H Hrb) as (s' & t' & Heq & _ & _ & _ & Hsize & _).
    pose proof Hrb as (_ & _ & _ & Hs).
    eexists _, s'. split; [exact Heq|]. split_and!.
    + by rewrite bool_decide_eq_true.
    + rewrite bool_decide_eq_true. rewrite (Search_eq k s t H).
      pose proof (descend_Leaf_iff k t Hs) as Hiff.
      destruct (descend k [] t).2 as [|a c l k' v r]; simpl.
      * split; [intros Hin; by apply Hiff in Hin|]. by intros [a [=]].
      * split; [by exists a|]. intros _.
        destruct (decide (k ∈ keys t)) as [|Hn]; [done|]. by apply Hiff in Hn.
    + done.
Qed.

Lemma Delete_unfold key s a :
  Search key s = Ok (Some a, s) →
  Delete key s = delete_found (fuel_of s) (Some a) s.
Proof.
  intros Hs. unfold Delete, bind. rewrite Hs. unfold with_fuel, delete_found, bind.
  destruct (delete_splice (fuel_of s) (Some a) s) as [[[[oc x] rp] s1]| |]; try done.
  destruct oc; simpl; [done|].
  by destruct (deleteFixup (fuel_of s) x rp s1) as [[[] s2]| |].
Qed.

(** C6. On a [Delete] of a present key: when the node has two children the
    recorded original color is the color its in-order successor had, and
    the successor ends with the color the deleted node had; otherwise the
    recorded color is the node's own; and [deleteFixup] runs exactly when
    the recorded color is black ([delete_found] says so). *)
Theorem C6_original_color_and_fixup s t ctx a c l (k : string) (v : V) r :
  Repr s t → rb_tree t →
  descend k [] t = (ctx, Br a c l k v r) →
  ∃ oc x rp s1,
    delete_splice (fuel_of s) (Some a) s = Ok ((oc, x, rp), s1)
    ∧ Delete k s = delete_found (fuel_of s) (Some a) s
    ∧ (∃ n, heap s !! a = Some n ∧ Color n = c)
    ∧ match l, r with
      | Br _ _ _ _ _ _, Br _ _ _ _ _ _ =>
          ∃ sctx sa sl sk sv sr n n1,
            min_ctx [] r = (sctx, Br sa oc sl sk sv sr)
            ∧ heap s !! sa = Some n ∧ Color n = oc
            ∧ heap s1 !! sa = Some n1 ∧ Color n1 = c
      | _, _ => oc = c
      end.
Proof.
  intros H Hrb Hd.
  pose proof (Repr_fuel _ _ H) as Hfuel.
  pose proof (descend_plug k [] t) as Hp. rewrite Hd in Hp. simpl in Hp. subst t.
  pose proof (height_plug ctx (Br a c l k v r)) as Hh.
  destruct s as [h q z].
  destruct (delete_splice_spec (fuel_of (mkState h q z)) h q z ctx a c l k v r
    (λ res s1, res = ((splice_out ctx (Br a c l k v r)).1.1,
                      rootp (splice_out ctx (Br a c l k v r)).2,
                      ctx_parent (splice_out ctx (Br a c l k v r)).1.2)
               ∧ Repr s1 (plug (splice_out ctx (Br a c l k v r)).1.2
                               (splice_out ctx (Br a c l k v r)).2)))
    as (res & s1 & Heq & -> & H1); [exact H|simpl in *; lia|done|].
  eexists _, _, _, s1. split; [exact Heq|]. split_and!.
  - apply Delete_unfold. rewrite (Search_eq k _ _ H), Hd. done.
  - eexists. split; [by eapply Repr_lookup|done].
  - destruct l as [|la lc ll lk lv lr]; [done|].
    destruct r as [|ra rc rl rk rv rr]; [done|].
    pose proof (min_ctx_plug [] (Br ra rc rl rk rv rr)) as Hplug.
    destruct (min_ctx_shape [] (Br ra rc rl rk rv rr)) as (sa & sc & sk & sv & sr & Hshape); [done|].
    unfold splice_out in *.
    destruct (min_ctx [] (Br ra rc rl rk rv rr)) as [sctx S]. cbn [fst snd plug] in *. subst S.
    cbn [fst snd] in *.
    exists sctx, sa, Leaf, sk, sv, sr.
    rewrite <- Hplug in H.
    change (plug ctx (Br a c (Br la lc ll lk lv lr) k v (plug sctx (Br sa sc Leaf sk sv sr))))
      with (plug (mkFrame DR a c k v (Br la lc ll lk lv lr) :: ctx) (plug sctx (Br sa sc Leaf sk sv sr))) in H.
    rewrite <- plug_app in H. rewrite plug_app in H1. simpl in H1.
    pose proof (Repr_lookup _ _ _ _ _ _ _ _ H) as Hsa.
    pose proof (Repr_lookup _ _ _ _ _ _ _ _ H1) as Hsa1.
    eexists _, _. split_and!; [done|exact Hsa|done|exact Hsa1|done].
Qed.

(** C7. [InOrder] visits the nodes of the tree once each, left subtree,
    node, right subtree: it folds the visitor over the in-order sequence
    [elems]; the keys it visits are strictly increasing on a red-black
    tree, and so after any sequence of operations. *)
Theorem C7_in_order s t :
  Repr s t → rb_tree t →
  (∀ (A : Type) (fn : string → V → A → A) (acc : A),
     InOrder fn acc s = Ok (fold_left (λ acc kv, fn kv.1 kv.2 acc) (elems t) acc))
  ∧ InOrder log_visit [] s = Ok (elems t)
  ∧ length (elems t) = length (addrs t)
  ∧ StronglySorted str_lt (elems t).*1
  ∧ (∀ ops : list (op V), ∃ s' l,
       run ops New = Ok s' ∧ InOrder log_visit [] s' = Ok l
       ∧ StronglySorted str_lt l.*1).
Proof.
  intros H (_ & _ & _ & Hs). split_and!.
  - intros A fn acc. by apply InOrder_spec.
  - rewrite (InOrder_spec log_visit [] s t H). unfold log_visit.
    by rewrite fold_left_log.
  - clear H Hs. induction t as [|a c l IHl k v r IHr]; simpl; [done|].
    rewrite !length_app. simpl. rewrite IHl, IHr. lia.
  - done.
  - intros ops. destruct (run_spec ops) as (s' & t' & Hrun & H' & (_ & _ & _ & Hs') & _).
    exists s', (elems t'). split_and!; [done| |done].
    rewrite (InOrder_spec log_visit [] s' t' H'). unfold log_visit.
    by rewrite fold_left_log.
Qed.

(** C8. On every tree reached by Insert and Delete from the empty tree no
    public operation panics (or runs without end): each returns a result.
    A nil sibling read by [deleteFixup] would be a panic of [Delete]. *)
Theorem C8_no_panic (ops : list (op V)) (k : string) (v : V)
    (A : Type) (fn : string → V → A → A) (acc : A) (show : V → string) (out : string) :
  ∃ s,
    run ops New = Ok s
    ∧ Size s = Ok (size s, s)
    ∧ Root s = Ok (root s, s)
    ∧ (∃ p, Search k s = Ok (p, s))
    ∧ (∃ s', Insert k v s = Ok (tt, s'))
    ∧ (∃ b s', Delete k s = Ok (b, s'))
    ∧ (∃ acc', InOrder fn acc s = Ok acc')
    ∧ (∃ out', Print show out s = Ok out').
Proof.
  destruct (run_spec ops) as (s & t & Hrun & H & Hrb & _).
  exists s. split_and!; try done.
  - eexists. by apply (Search_eq k s t).
  - destruct (Insert_spec k v s t H Hrb) as (s' & _ & Heq & _). by exists s'.
  - destruct (Delete_spec k s t H Hrb) as (s' & _ & Heq & _). by eexists _, s'.
  - eexists. by apply (InOrder_spec fn acc s t).
  - by apply (Print_spec show out s t).
Qed.

(** C9. [rotateLeft] at a node with a right child and [rotateRight] at a
    node with a left child leave the in-order walk of the whole tree as it
    was. *)
Theorem C9_rotations_keep_order (d : dir) s t a n b :
  Repr s t → reachable s a → heap s !! a = Some n →
  match d with DL => Right n | DR => Left n end = Some b →
  ∃ s' t',
    match d with DL => rotateLeft | DR => rotateRight end (Some a) s = Ok (tt, s')
    ∧ Repr s' t'
    ∧ elems t' = elems t
    ∧ InOrder log_visit [] s = Ok (elems t)
    ∧ InOrder log_visit [] s' = Ok (elems t).
Proof.
  intros H Hreach Hn Hb.
  apply (reachable_addrs s t a H) in Hreach.
  destruct (addrs_focus t a Hreach) as (ctx & c & l & k & v & r & ->).
  rewrite (Repr_lookup _ _ _ _ _ _ _ _ H) in Hn. injection Hn as <-. simpl in Hb.
  assert (Hlog : ∀ s0 t0, Repr s0 t0 → InOrder log_visit [] s0 = Ok (elems t0)).
  { intros s0 t0 H0. rewrite (InOrder_spec log_visit [] s0 t0 H0). unfold log_visit.
    by rewrite fold_left_log. }
  destruct s as [h q z]. destruct d.
  - destruct r as [|b' rc rl rk rv rr]; [done|]. injection Hb as ->.
    destruct (rotateLeft_spec _ ctx a c l k v b rc rl rk rv rr
      (λ _ s', Repr s' (plug ctx (Br b rc (Br a c l k v rl) rk rv rr))) H)
      as ([] & s' & Heq & H'); [by intros|].
    exists s', (plug ctx (Br b rc (Br a c l k v rl) rk rv rr)).
    assert (Hel : elems (plug ctx (Br b rc (Br a c l k v rl) rk rv rr))
                  = elems (plug ctx (Br a c l k v (Br b rc rl rk rv rr)))).
    { rewrite !elems_plug. simpl. repeat (rewrite <- app_assoc; simpl). done. }
    split_and!; try done.
    + by apply Hlog.
    + by rewrite (Hlog _ _ H'), Hel.
  - destruct l as [|b' lc ll lk lv lr]; [done|]. injection Hb as ->.
    destruct (rotateRight_spec _ ctx a c r k v b lc ll lk lv lr
      (λ _ s', Repr s' (plug ctx (Br b lc ll lk lv (Br a c lr k v r)))) H)
      as ([] & s' & Heq & H'); [by intros|].
    exists s', (plug ctx (Br b lc ll lk lv (Br a c lr k v r))).
    assert (Hel : elems (plug ctx (Br b lc ll lk lv (Br a c lr k v r)))
                  = elems (plug ctx (Br a c (Br b lc ll lk lv lr) k v r))).
    { rewrite !elems_plug. simpl. repeat (rewrite <- app_assoc; simpl). done. }
    split_and!; try done.
    + by apply Hlog.
    + by rewrite (Hlog _ _ H'), Hel.
Qed.

(** C10. In every tree reached by Insert and Delete from the empty tree the
    parent links agree with the child links: the root has no parent, each
    child of a node names that node as its parent, and each node below the
    root is exactly one of the two children of its parent. *)
Theorem C10_parent_links (ops : list (op V)) :
  ∃ s, run ops New = Ok s ∧ parent_links s.
Proof.
  destruct (run_spec ops) as (s & t & Hrun & H & _).
  exists s. split; [done|]. by apply (Repr_parent_links s t).
Qed.

End Claims.

(** * The statements at the concrete tree *)

Lemma demo_state_run :
  run [OpInsert "b" 2; OpInsert "a" 1; OpInsert "c" 3] New = Ok demo_state.
Proof. vm_compute. reflexivity. Qed.

Lemma demo_Repr : Repr demo_state demo_tree.
Proof.
  split_and!.
  - simpl. split_and!; done.
  - reflexivity.
  - simpl. repeat constructor; set_solver.
Qed.

Lemma demo_rb : rb_tree demo_tree.
Proof.
  split_and!.
  - reflexivity.
  - simpl. unfold red, black. split_and!; done.
  - exists 1%nat. repeat constructor.
  - unfold sorted_keys, keys. simpl. repeat constructor.
Qed.


Ltac solve_demo :=
  first
    [ exact demo_Repr
    | exact demo_rb
    | reflexivity
    | apply reach_root; reflexivity
    | apply (bool_decide_unpack _); vm_compute; exact I ].

(** Witness of C2 at the tree of "a", "b", "c", with key "a" and value 7. *)
Lemma C2_round_trip_witness :
  (∃ s1 a n,
     Insert "a" 7 demo_state = Ok (tt, s1)
     ∧ Search "a" s1 = Ok (Some a, s1)
     ∧ heap s1 !! a = Some n ∧ Key n = "a"%string ∧ Value n = 7)
  ∧ (∃ b s2, Delete "a" demo_state = Ok (b, s2) ∧ Search "a" s2 = Ok (None, s2)).
Proof.
  apply (C2_round_trip demo_state demo_tree "a" 7); solve_demo.
Defined.

(** Counterexample to C3 as it is worded: after Insert "a", Delete "a",
    Insert "a" the size is 1, one distinct key was ever inserted and one
    Delete succeeded, and 1 is not 1 - 1. *)
Lemma C3_distinct_keys_counterexample :
  ∃ s i d,
    run_counts reinsert_ops New = Ok (s, i, d)
    ∧ Size s = Ok (1, s)
    ∧ length (inserted_keys reinsert_ops) = 1%nat
    ∧ d = 1%nat
    ∧ size s ≠ Z.of_nat (length (inserted_keys reinsert_ops)) - Z.of_nat d.
Proof.
  eexists _, _, _. split; [vm_compute; reflexivity|].
  split_and!; [reflexivity|vm_compute; reflexivity|reflexivity|vm_compute; discriminate].
Qed.

(** Witness of C4: "a" is in the tree and gets the value 7. *)
Lemma C4_insert_present_overwrites_witness :
  ∃ a n,
    reachable demo_state a ∧ heap demo_state !! a = Some n ∧ Key n = "a"%string
    ∧ Insert "a" 7 demo_state =
        Ok (tt, mkState (<[a := mkNode (Key n) 7 (Color n) (Parent n) (Left n) (Right n)]> (heap demo_state))
                        (root demo_state) (size demo_state)).
Proof.
  apply (C4_insert_present_overwrites demo_state demo_tree "a" 7); solve_demo.
Defined.

(** Witness of C5: "z" is not in the tree. *)
Lemma C5_delete_absent_unchanged_witness :
  Delete "z" demo_state = Ok (false, demo_state).
Proof.
  apply (C5_delete_absent_unchanged demo_state demo_tree "z"); solve_demo.
Defined.

(** Witness of C6: the root "b" has two children; its successor is "c". *)
Lemma C6_original_color_and_fixup_witness :
  ∃ oc x rp s1,
    delete_splice (fuel_of demo_state) (Some 1%positive) demo_state = Ok ((oc, x, rp), s1)
    ∧ Delete "b" demo_state = delete_found (fuel_of demo_state) (Some 1%positive) demo_state
    ∧ (∃ n, heap demo_state !! 1%positive = Some n ∧ Color n = black)
    ∧ ∃ sctx sa sl sk sv sr n n1,
        min_ctx [] (Br 3 red Leaf "c" 3 Leaf) = (sctx, Br sa oc sl sk sv sr)
        ∧ heap demo_state !! sa = Some n ∧ Color n = oc
        ∧ heap s1 !! sa = Some n1 ∧ Color n1 = black.
Proof.
  apply (C6_original_color_and_fixup demo_state demo_tree [] 1 black
           (Br 2 red Leaf "a" 1 Leaf) "b" 2 (Br 3 red Leaf "c" 3 Leaf)); solve_demo.
Defined.

(** Witness of C7 at the tree of "a", "b", "c". *)
Lemma C7_in_order_witness :
  (∀ (A : Type) (fn : string → Z → A → A) (acc : A),
     InOrder fn acc demo_state
     = Ok (fold_left (λ acc kv, fn kv.1 kv.2 acc) (elems demo_tree) acc))
  ∧ InOrder log_visit [] demo_state = Ok (elems demo_tree)
  ∧ length (elems demo_tree) = length (addrs demo_tree)
  ∧ StronglySorted str_lt (elems demo_tree).*1
  ∧ (∀ ops : list (op Z), ∃ s' l,
       run ops New = Ok s' ∧ InOrder log_visit [] s' = Ok l
       ∧ StronglySorted str_lt l.*1).
Proof.
  apply (C7_in_order demo_state demo_tree); solve_demo.
Defined.

(** Witness of C9: a left rotation at the root "b", whose right child is
    "c". *)
Lemma C9_rotations_keep_order_witness :
  ∃ s' t',
    rotateLeft (Some 1%positive) demo_state = Ok (tt, s')
    ∧ Repr s' t'
    ∧ elems t' = elems demo_tree
    ∧ InOrder log_visit [] demo_state = Ok (elems demo_tree)
    ∧ InOrder log_visit [] s' = Ok (elems demo_tree).
Proof.
  apply (C9_rotations_keep_order DL demo_state demo_tree 1
           (mkNode "b" 2 black None (Some 2%positive) (Some 3%positive)) 3); solve_demo.
Defined.

(** * The tree as a finite map *)

Section FiniteMap.

Context {V : Type}.
Implicit Types (s : State V) (t : @tree V) (l : list (string * V)).

Lemma sorted_fst_cons (k : string) (v : V) l :
  StronglySorted str_lt ((k, v) :: l).*1 ↔
  StronglySorted str_lt l.*1 ∧ (∀ k' v', (k', v') ∈ l → str_lt k k').
Proof.
  rewrite fmap_cons, sorted_cons. simpl. split; intros [H1 H2]; split; try done.
  - intros k' v' Hin. apply H2. apply list_elem_of_fmap. by exists (k', v').
  - intros y Hy. apply list_elem_of_fmap in Hy as [[k' v'] [-> Hin]]. by eapply H2.
Qed.

(** The bindings of a sorted list after [list_put]. *)
Lemma elem_of_list_put key value l k v :
  StronglySorted str_lt l.*1 →
  (k, v) ∈ list_put key value l ↔ (k = key ∧ v = value) ∨ (k ≠ key ∧ (k, v) ∈ l).
Proof.
  induction l as [|[k0 v0] l IH]; intros Hs; simpl.
  { rewrite list_elem_of_singleton. split.
    - intros [= -> ->]. by left.
    - intros [[-> ->]|[_ H]]; [done|by apply not_elem_of_nil in H]. }
  apply sorted_fst_cons in Hs as [Hs Hlt].
  destruct (key_lt key k0) eqn:E1.
  { rewrite !elem_of_cons. split.
    - intros [[= -> ->]|[[= -> ->]|Hin]]; [by left|right..].
      + split; [|by left]. intros ->. by apply str_lt_irrefl in E1.
      + split; [|by right]. intros ->. apply Hlt in Hin.
        pose proof (str_lt_trans _ _ _ E1 Hin) as Hc. by apply str_lt_irrefl in Hc.
    - intros [[-> ->]|[Hne [[= -> ->]|Hin]]]; [by left|right; by left|right; by right]. }
  destruct (key_lt k0 key) eqn:E2.
  { rewrite !elem_of_cons, (IH Hs). split.
    - intros [[= -> ->]|[[-> ->]|[Hne Hin]]]; [right|by left|right].
      + split; [|by left]. intros ->. by apply str_lt_irrefl in E2.
      + split; [done|by right].
    - intros [[-> ->]|[Hne [[= -> ->]|Hin]]]; [right; by left|by left|right; right; by split]. }
  pose proof (str_lt_total _ _ E1 E2) as ->.
  rewrite !elem_of_cons. split.
  - intros [[= -> ->]|Hin]; [by left|right]. split; [|by right].
    intros ->. apply Hlt in Hin. by apply str_lt_irrefl in Hin.
  - intros [[-> ->]|[Hne [[= -> ->]|Hin]]]; [by left|done|by right].
Qed.

Lemma elem_of_list_remove key l k v :
  (k, v) ∈ list_remove key l ↔ k ≠ key ∧ (k, v) ∈ l.
Proof. unfold list_remove. rewrite list_elem_of_filter. done. Qed.

Lemma option_ext (x y : option V) : (∀ v, x = Some v ↔ y = Some v) → x = y.
Proof.
  intros H. destruct x as [v|], y as [w|]; try done.
  - symmetry. by apply H.
  - by pose proof (proj1 (H v) eq_refl).
  - exact (proj2 (H w) eq_refl).
Qed.

(** [Search] and the read of the value, on the tree the heap holds. *)
Lemma search_value_spec key s t :
  Repr s t → search_value key s = Ok (tree_lookup key t).
Proof.
  intros H. unfold search_value. rewrite (Search_eq key s t H), tree_lookup_descend.
  pose proof (descend_plug key [] t) as Hp. cbn [plug] in Hp.
  destruct (descend key [] t) as [ctx [|a c l k v r]]; cbn [fst snd rootp] in *; [done|].
  subst t. unfold get, bind, load, ret. by rewrite (Repr_lookup _ _ _ _ _ _ _ _ H).
Qed.

Lemma InOrder_log s t : Repr s t → InOrder log_visit [] s = Ok (elems t).
Proof.
  intros H. rewrite (InOrder_spec log_visit [] s t H). f_equal.
  unfold log_visit. by rewrite fold_left_log.
Qed.

Lemma model_snoc (ops : list (op V)) o : model (ops ++ [o]) = model_step o (model ops).
Proof. unfold model. by rewrite fold_left_app. Qed.

Lemma last_binding_snoc (ops : list (op V)) o key :
  last_binding (ops ++ [o]) key = binding_step key (last_binding ops key) o.
Proof. unfold last_binding. by rewrite fold_left_app. Qed.

Lemma model_sorted (ops : list (op V)) : StronglySorted str_lt (model ops).*1.
Proof.
  destruct (run_spec ops) as (s & t & _ & _ & Hrb & Hel & _).
  rewrite <- Hel. apply Hrb.
Qed.

(** The sorted list that stands for the tree holds, for each key, what the
    history of the key says. *)
Lemma model_last_binding (ops : list (op V)) k v :
  (k, v) ∈ model ops ↔ last_binding ops k = Some v.
Proof.
  induction ops as [|o ops IH] using rev_ind.
  { unfold model, last_binding. simpl. split; [|done]. intros H. by apply not_elem_of_nil in H. }
  rewrite model_snoc, last_binding_snoc. destruct o as [k0 v0|k0]; simpl.
  - rewrite (elem_of_list_put _ _ _ _ _ (model_sorted ops)), IH.
    case_bool_decide as Hk.
    + subst k0. split.
      * intros [[_ ->]|[? _]]; done.
      * intros [= ->]. by left.
    + split.
      * intros [[-> _]|[_ ?]]; done.
      * intros Hl. right. split; [congruence|done].
  - rewrite elem_of_list_remove, IH. case_bool_decide as Hk.
    + subst k0. split; [intros [? _]; done|done].
    + split; [by intros [_ ?]|]. intros Hl. split; [congruence|done].
Qed.

End FiniteMap.

Section FiniteMapTheorems.

Context {V : Type}.
Implicit Types (s : State V) (t : @tree V) (l : list (string * V)).

(** X1. After any sequence of Insert and Delete from the empty tree,
    [Search] of a key followed by the read of the node's value gives the
    value most recently inserted under the key and not deleted since, and
    nil when there is none. *)
Theorem X1_search_gives_last_binding (ops : list (op V)) (key : string) :
  ∃ s, run ops New = Ok s ∧ search_value key s = Ok (last_binding ops key).
Proof.
  destruct (run_spec ops) as (s & t & Hrun & H & Hrb & Hel & _).
  exists s. split; [done|]. rewrite (search_value_spec key s t H). f_equal.
  apply option_ext. intros v.
  rewrite (tree_lookup_elem key v t), Hel; [|apply Hrb]. apply model_last_binding.
Qed.

(** X2. On every red-black tree [InOrder] visits exactly the pairs that
    [Search] finds: (k, v) is visited if and only if [Search k] returns a
    node whose value is v. *)
Theorem X2_in_order_agrees_with_search s t :
  Repr s t → rb_tree t →
  ∃ l, InOrder log_visit [] s = Ok l
       ∧ ∀ k v, (k, v) ∈ l ↔ search_value k s = Ok (Some v).
Proof.
  intros H Hrb. exists (elems t). split; [by apply InOrder_log|].
  intros k v. rewrite (search_value_spec k s t H).
  rewrite <- (tree_lookup_elem k v t); [|apply Hrb]. split; [by intros ->|by intros [= ->]].
Qed.

(** X3. [Insert k v] on a red-black tree binds [k] to [v] and leaves what
    [Search] finds under every other key as it was. *)
Theorem X3_insert_frame s t (k : string) (v : V) :
  Repr s t → rb_tree t →
  ∃ s', Insert k v s = Ok (tt, s')
        ∧ search_value k s' = Ok (Some v)
        ∧ ∀ k', k' ≠ k → search_value k' s' = search_value k' s.
Proof.
  intros H Hrb.
  destruct (Insert_spec k v s t H Hrb) as (s' & t' & Heq & H' & Hrb' & Hel & _).
  exists s'. split; [done|].
  assert (∀ k' v', tree_lookup k' t' = Some v' ↔
                   (k' = k ∧ v' = v) ∨ (k' ≠ k ∧ tree_lookup k' t = Some v')) as Hl.
  { intros k' v'. rewrite !tree_lookup_elem; [|apply Hrb|apply Hrb'].
    rewrite Hel. apply elem_of_list_put, Hrb. }
  split.
  - rewrite (search_value_spec k s' t' H'). f_equal. apply Hl. by left.
  - intros k' Hne. rewrite (search_value_spec k' s' t' H'), (search_value_spec k' s t H).
    f_equal. apply option_ext. intros v'. rewrite Hl. split; [|by right].
    intros [[? _]|[_ ?]]; done.
Qed.

(** X4. [Delete k] on a red-black tree unbinds [k] and leaves what [Search]
    finds under every other key as it was. *)
Theorem X4_delete_frame s t (k : string) :
  Repr s t → rb_tree t →
  ∃ b s', Delete k s = Ok (b, s')
          ∧ search_value k s' = Ok None
          ∧ ∀ k', k' ≠ k → search_value k' s' = search_value k' s.
Proof.
  intros H Hrb.
  destruct (Delete_spec k s t H Hrb) as (s' & t' & Heq & H' & Hrb' & Hel & _).
  eexists _, s'. split; [done|].
  assert (∀ k' v', tree_lookup k' t' = Some v' ↔ k' ≠ k ∧ tree_lookup k' t = Some v') as Hl.
  { intros k' v'. rewrite !tree_lookup_elem; [|apply Hrb|apply Hrb'].
    rewrite Hel. apply elem_of_list_remove. }
  split.
  - rewrite (search_value_spec k s' t' H'). f_equal.
    destruct (tree_lookup k t') as [v'|] eqn:E; [|done]. apply Hl in E as [? _]. done.
  - intros k' Hne. rewrite (search_value_spec k' s' t' H'), (search_value_spec k' s t H).
    f_equal. apply option_ext. intros v'. rewrite Hl. split; [by intros [_ ?]|done].
Qed.

End FiniteMapTheorems.

(** X2 at the tree of "a", "b", "c". *)
Lemma X2_in_order_agrees_with_search_witness :
  ∃ l, InOrder log_visit [] demo_state = Ok l
       ∧ ∀ k v, (k, v) ∈ l ↔ search_value k demo_state = Ok (Some v).
Proof.
  apply (X2_in_order_agrees_with_search demo_state demo_tree); solve_demo.
Defined.

(** X3 at the tree of "a", "b", "c": "d" is bound to 4. *)
Lemma X3_insert_frame_witness :
  ∃ s', Insert "d" 4 demo_state = Ok (tt, s')
        ∧ search_value "d" s' = Ok (Some 4)
        ∧ ∀ k', k' ≠ "d"%string → search_value k' s' = search_value k' demo_state.
Proof.
  apply (X3_insert_frame demo_state demo_tree "d" 4); solve_demo.
Defined.

(** X4 at the tree of "a", "b", "c": "b" is deleted. *)
Lemma X4_delete_frame_witness :
  ∃ b s', Delete "b" demo_state = Ok (b, s')
          ∧ search_value "b" s' = Ok None
          ∧ ∀ k', k' ≠ "b"%string → search_value k' s' = search_value k' demo_state.
Proof.
  apply (X4_delete_frame demo_state demo_tree "b"); solve_demo.
Defined.

(** * Edge cases and compositions of the public operations *)

Section Compositions.

Context {V : Type}.
Implicit Types (s : State V) (t : @tree V) (l : list (string * V)).

(** X5. On the empty tree: [Size] is 0, [Root] is nil, [Search] finds
    nothing, [Delete] returns false and changes nothing, [InOrder] never
    calls the visitor, [Print] writes the line "(empty)", and [Insert]
    makes the tree a single black node without parent or children, with
    size 1. *)
Theorem X5_empty_tree (k : string) (v : V) (A : Type) (fn : string → V → A → A)
    (acc : A) (show : V → string) (out : string) :
  Size (@New V) = Ok (0, New)
  ∧ Root (@New V) = Ok (None, New)
  ∧ Search k (@New V) = Ok (None, New)
  ∧ Delete k (@New V) = Ok (false, New)
  ∧ InOrder fn acc New = Ok acc
  ∧ Print show out New = Ok (out ++ "(empty)" ++ String (ascii_of_nat 10) "")%string
  ∧ Insert k v New =
      Ok (tt, mkState {[1%positive := mkNode k v black None None None]} (Some 1%positive) 1).
Proof.
  split_and!; reflexivity.
Qed.

(** X6. After any sequence of Insert and Delete from the empty tree, [Root]
    is nil exactly when the tree holds nothing; otherwise it is a black
    node without parent, and [Search] of its key finds its value. *)
Theorem X6_root (ops : list (op V)) :
  ∃ s, run ops New = Ok s
       ∧ Root s = Ok (root s, s)
       ∧ match root s with
         | None => InOrder log_visit [] s = Ok [] ∧ ∀ k, search_value k s = Ok None
         | Some a =>
             ∃ n, heap s !! a = Some n ∧ Color n = black ∧ Parent n = None
                  ∧ search_value (Key n) s = Ok (Some (Value n))
         end.
Proof.
  destruct (run_spec ops) as (s & t & Hrun & H & Hrb & _).
  exists s. split_and!; [done|done|].
  pose proof H as (Hr & Hroot & _). rewrite Hroot.
  destruct t as [|a c l k v r]; cbn [rootp].
  - split; [by rewrite (InOrder_log s Leaf H)|].
    intros k. by rewrite (search_value_spec k s Leaf H).
  - destruct Hr as (Ha & _). eexists. split; [exact Ha|]. cbn [Color Parent Key Value].
    split_and!; [apply Hrb|done|].
    rewrite (search_value_spec k s _ H). f_equal.
    apply tree_lookup_elem; [apply Hrb|]. simpl. apply elem_of_app. right. apply list_elem_of_here.
Qed.

(** X7. A second [Delete] of the same key returns false and changes
    nothing. *)
Theorem X7_delete_twice s t (k : string) :
  Repr s t → rb_tree t →
  ∃ b s', Delete k s = Ok (b, s') ∧ Delete k s' = Ok (false, s').
Proof.
  intros H Hrb.
  destruct (Delete_spec k s t H Hrb) as (s' & t' & Heq & H' & Hrb' & Hel & _).
  exists (bool_decide (k ∈ keys t)), s'. split; [done|].
  assert (k ∉ keys t') as Hn by (unfold keys; rewrite Hel; apply list_remove_notin).
  destruct (Delete_spec k s' t' H' Hrb') as (s'' & t'' & Heq' & _ & _ & _ & _ & _ & Hsame).
  rewrite Heq', (Hsame Hn). by rewrite bool_decide_eq_false_2.
Qed.

(** X8. A second [Insert] of the same key and value changes nothing at
    all: the state after it is the state before it. *)
Theorem X8_insert_twice s t (k : string) (v : V) :
  Repr s t → rb_tree t →
  ∃ s', Insert k v s = Ok (tt, s') ∧ Insert k v s' = Ok (tt, s').
Proof.
  intros H Hrb.
  destruct (Insert_spec k v s t H Hrb) as (s' & t' & Heq & H' & Hrb' & Hel & _).
  exists s'. split; [done|].
  assert (tree_lookup k t' = Some v) as Hl.
  { apply tree_lookup_elem; [apply Hrb'|]. rewrite Hel. apply list_put_elem. }
  rewrite tree_lookup_descend in Hl.
  pose proof (descend_plug k [] t') as Hp. cbn [plug] in Hp.
  destruct (descend k [] t') as [ctx [|a c l k' v' r]] eqn:Hd; cbn [fst snd] in *; [done|].
  injection Hl as ->.
  assert (k' = k) as -> by (by eapply (descend_found k [] t'); rewrite Hd).
  rewrite (Insert_found k v s' t' ctx a c l k v r H' Hd). subst t'.
  rewrite insert_id; [by destruct s'|]. by eapply Repr_lookup.
Qed.

Lemma list_remove_put key value l :
  key ∉ l.*1 → list_remove key (list_put key value l) = l.
Proof.
  induction l as [|[k0 v0] l IH]; intros Hn; simpl.
  { unfold list_remove. by rewrite filter_cons_False by (by intros H; apply H). }
  rewrite fmap_cons, not_elem_of_cons in Hn. destruct Hn as [Hne Hn]. simpl in Hne.
  destruct (key_lt key k0) eqn:E1.
  { unfold list_remove. rewrite filter_cons_False by (by intros H; apply H).
    apply (list_remove_absent key ((k0, v0) :: l)). rewrite fmap_cons, not_elem_of_cons. done. }
  destruct (key_lt k0 key) eqn:E2.
  { unfold list_remove. rewrite filter_cons_True by (simpl; congruence).
    f_equal. by apply IH. }
  by pose proof (str_lt_total _ _ E1 E2).
Qed.

(** X9. [Insert] of an absent key followed by [Delete] of the key: the
    [Delete] returns true, the tree holds the pairs it held before, in the
    same order, and the size is back (as a Go int). *)
Theorem X9_insert_then_delete s t (k : string) (v : V) :
  Repr s t → rb_tree t → k ∉ keys t →
  ∃ s1 s2,
    Insert k v s = Ok (tt, s1)
    ∧ Delete k s1 = Ok (true, s2)
    ∧ InOrder log_visit [] s2 = InOrder log_visit [] s
    ∧ size s2 = wrap_int (size s).
Proof.
  intros H Hrb Hn.
  destruct (Insert_spec k v s t H Hrb) as (s1 & t1 & Heq & H1 & Hrb1 & Hel & Hsz & _).
  destruct (Delete_spec k s1 t1 H1 Hrb1) as (s2 & t2 & Heq' & H2 & Hrb2 & Hel' & Hsz' & _).
  exists s1, s2.
  assert (k ∈ keys t1) as Hin.
  { unfold keys. rewrite Hel. apply list_elem_of_fmap. exists (k, v). split; [done|].
    apply list_put_elem. }
  rewrite bool_decide_eq_true_2 in Heq', Hsz' by done.
  rewrite bool_decide_eq_false_2 in Hsz by done.
  split_and!; [done|done| |].
  - rewrite (InOrder_log s2 t2 H2), (InOrder_log s t H). f_equal.
    rewrite Hel', Hel. by apply list_remove_put.
  - rewrite Hsz', Hsz, wrap_int_pred. f_equal. lia.
Qed.

End Compositions.

(** X7 at the tree of "a", "b", "c": "b" is deleted twice. *)
Lemma X7_delete_twice_witness :
  ∃ b s', Delete "b" demo_state = Ok (b, s') ∧ Delete "b" s' = Ok (false, s').
Proof.
  apply (X7_delete_twice demo_state demo_tree "b"); solve_demo.
Defined.

(** X8 at the tree of "a", "b", "c": "d" is inserted twice. *)
Lemma X8_insert_twice_witness :
  ∃ s', Insert "d" 4 demo_state = Ok (tt, s') ∧ Insert "d" 4 s' = Ok (tt, s').
Proof.
  apply (X8_insert_twice demo_state demo_tree "d" 4); solve_demo.
Defined.

(** X9 at the tree of "a", "b", "c": "d" is inserted and deleted. *)
Lemma X9_insert_then_delete_witness :
  ∃ s1 s2,
    Insert "d" 4 demo_state = Ok (tt, s1)
    ∧ Delete "d" s1 = Ok (true, s2)
    ∧ InOrder log_visit [] s2 = InOrder log_visit [] demo_state
    ∧ size s2 = wrap_int (size demo_state).
Proof.
  apply (X9_insert_then_delete demo_state demo_tree "d" 4); solve_demo.
Defined.

(** * Cells, keys and values under relinking *)

Section FrameRules.

Context {V : Type}.
Variables (P : gset positive) (s0 : State V).
Implicit Types (s : State V) (p q : ptr).

Lemma keeps_ret {A} (x : A) (Q : A → Prop) : Q x → keeps P s0 (ret x) Q.
Proof. intros HQ s a s' Hi [= <- <-]. done. Qed.

Lemma keeps_ret_ptr p : inP P p → keeps P s0 (ret p) (inP P).
Proof. apply keeps_ret. Qed.

Lemma keeps_ret_triv {A} (x : A) : keeps P s0 (ret x) (λ _, True).
Proof. by apply keeps_ret. Qed.

Lemma keeps_ret_pair p q :
  inP P p → inP P q → keeps P s0 (ret (p, q)) (λ x, inP P x.1 ∧ inP P x.2).
Proof. intros. by apply keeps_ret. Qed.

Lemma keeps_bind {A B} (m : Comp (State V) A) (k : A → Comp (State V) B)
    (Q : A → Prop) (Q' : B → Prop) :
  keeps P s0 m Q → (∀ a, Q a → keeps P s0 (k a) Q') → keeps P s0 (bind m k) Q'.
Proof.
  intros Hm Hk s b s' Hi. unfold bind.
  destruct (m s) as [[a s1]| |] eqn:E; [|done..].
  destruct (Hm s a s1 Hi E) as [Hi1 Ha]. by apply Hk.
Qed.

Lemma keeps_out_of_fuel {A} (Q : A → Prop) : keeps P s0 out_of_fuel Q.
Proof. by intros s a s' _. Qed.

Lemma keeps_get_link (field : Node V → ptr) p :
  (∀ n, inP P (Parent n) ∧ inP P (Left n) ∧ inP P (Right n) → inP P (field n)) →
  inP P p → keeps P s0 (get field p) (inP P).
Proof.
  intros Hf Hp s x s' Hi. unfold get, bind, load, ret.
  destruct p as [a|]; [|done]. destruct (heap s !! a) as [n|] eqn:E; [|done].
  intros [= <- <-]. split; [done|]. apply Hf.
  destruct Hi as (_ & _ & _ & Hcl). by eapply Hcl.
Qed.

Lemma keeps_get_Parent p : inP P p → keeps P s0 (get Parent p) (inP P).
Proof. apply keeps_get_link. tauto. Qed.

Lemma keeps_get_Left p : inP P p → keeps P s0 (get Left p) (inP P).
Proof. apply keeps_get_link. tauto. Qed.

Lemma keeps_get_Right p : inP P p → keeps P s0 (get Right p) (inP P).
Proof. apply keeps_get_link. tauto. Qed.

Lemma keeps_get_any {A} (field : Node V → A) p : keeps P s0 (get field p) (λ _, True).
Proof.
  intros s x s' Hi. unfold get, bind, load, ret.
  destruct p as [a|]; [|done]. destruct (heap s !! a) as [n|] eqn:E; [|done].
  by intros [= <- <-].
Qed.

Lemma keeps_store p (f : Node V → Node V) :
  (∀ n, Key (f n) = Key n ∧ Value (f n) = Value n) →
  (∀ n, inP P (Parent n) ∧ inP P (Left n) ∧ inP P (Right n) →
        inP P (Parent (f n)) ∧ inP P (Left (f n)) ∧ inP P (Right (f n))) →
  keeps P s0 (store p f) (λ _, True).
Proof.
  intros Hkv Hl s x s' (Hd & Hpay & Hroot & Hcl). unfold store.
  destruct p as [a|]; [|done]. destruct (heap s !! a) as [n|] eqn:E; [|done].
  intros [= <- <-]. split; [|done]. split_and!; cbn [heap root].
  - rewrite dom_insert_L, <- Hd. apply elem_of_dom_2 in E. set_solver.
  - intros b m Hb. destruct (Hpay b m Hb) as (m' & Hm' & Hk & Hv).
    destruct (decide (b = a)) as [->|Hne].
    + rewrite lookup_insert_eq. eexists. split; [done|].
      rewrite E in Hm'. injection Hm' as <-. destruct (Hkv n) as [-> ->]. done.
    + rewrite lookup_insert_ne by done. by exists m'.
  - done.
  - intros b m Hb. destruct (decide (b = a)) as [->|Hne].
    + rewrite lookup_insert_eq. intros [= <-]. apply Hl. by eapply Hcl.
    + rewrite lookup_insert_ne by done. by apply Hcl.
Qed.

Lemma keeps_setColor p c : keeps P s0 (setColor p c) (λ _, True).
Proof. apply keeps_store; intros n; simpl; tauto. Qed.

Lemma keeps_setParent p q : inP P q → keeps P s0 (setParent p q) (λ _, True).
Proof. intros Hq. apply keeps_store; intros n; simpl; tauto. Qed.

Lemma keeps_setLeft p q : inP P q → keeps P s0 (setLeft p q) (λ _, True).
Proof. intros Hq. apply keeps_store; intros n; simpl; tauto. Qed.

Lemma keeps_setRight p q : inP P q → keeps P s0 (setRight p q) (λ _, True).
Proof. intros Hq. apply keeps_store; intros n; simpl; tauto. Qed.

Lemma keeps_getRoot : keeps P s0 getRoot (inP P).
Proof. intros s x s' Hi [= <- <-]. split; [done|]. apply Hi. Qed.

Lemma keeps_setRoot q : inP P q → keeps P s0 (setRoot q) (λ _, True).
Proof.
  intros Hq s x s' (Hd & Hpay & Hroot & Hcl) [= <- <-]. split; [|done].
  split_and!; done.
Qed.

Lemma keeps_getSize : keeps P s0 getSize (λ _, True).
Proof. by intros s x s' Hi [= <- <-]. Qed.

Lemma keeps_setSize z : keeps P s0 (setSize z) (λ _, True).
Proof.
  intros s x s' (Hd & Hpay & Hroot & Hcl) [= <- <-]. split; [|done].
  split_and!; done.
Qed.

Lemma keeps_colorOf p : keeps P s0 (colorOf p) (λ _, True).
Proof. destruct p; [apply keeps_get_any|by apply keeps_ret]. Qed.

Lemma keeps_leftOf p : inP P p → keeps P s0 (leftOf p) (inP P).
Proof. intros Hp. destruct p; [by apply keeps_get_Left|by apply keeps_ret]. Qed.

Lemma keeps_rightOf p : inP P p → keeps P s0 (rightOf p) (inP P).
Proof. intros Hp. destruct p; [by apply keeps_get_Right|by apply keeps_ret]. Qed.

Lemma keeps_with_fuel {A} (body : nat → Comp (State V) A) (Q : A → Prop) :
  (∀ fuel, keeps P s0 (body fuel) Q) → keeps P s0 (with_fuel body) Q.
Proof. intros H s a s' Hi. unfold with_fuel. by apply H. Qed.

Lemma keeps_weaken {A} (m : Comp (State V) A) (Q Q' : A → Prop) :
  keeps P s0 m Q → (∀ a, Q a → Q' a) → keeps P s0 m Q'.
Proof. intros H HQ s a s' Hi E. destruct (H s a s' Hi E). split; auto. Qed.

End FrameRules.

Ltac keeps_leaf :=
  first
    [ apply keeps_ret_ptr; first [assumption | exact I]
    | apply keeps_ret_pair; first [assumption | exact I]
    | apply keeps_ret_triv
    | apply keeps_out_of_fuel
    | apply keeps_get_Parent; first [assumption | exact I]
    | apply keeps_get_Left; first [assumption | exact I]
    | apply keeps_get_Right; first [assumption | exact I]
    | apply keeps_get_any
    | apply keeps_setColor
    | apply keeps_setParent; first [assumption | exact I]
    | apply keeps_setLeft; first [assumption | exact I]
    | apply keeps_setRight; first [assumption | exact I]
    | apply keeps_getRoot
    | apply keeps_setRoot; first [assumption | exact I]
    | apply keeps_getSize
    | apply keeps_setSize
    | apply keeps_colorOf
    | apply keeps_leftOf; first [assumption | exact I]
    | apply keeps_rightOf; first [assumption | exact I] ].

Ltac keeps_step :=
  first
    [ keeps_leaf
    | eapply keeps_bind; [|intros ? ?]
    | match goal with
      | |- keeps _ _ (if ?b then _ else _) _ => destruct b
      | |- keeps _ _ (match ?x with Some _ => _ | None => _ end) _ => destruct x
      end ].

Ltac keeps_go := repeat keeps_step.

Section FrameFunctions.

Context {V : Type}.
Variables (P : gset positive) (s0 : State V).
Implicit Types (s : State V) (p q : ptr).

Lemma keeps_rotateLeft p : inP P p → keeps P s0 (rotateLeft p) (λ _, True).
Proof. intros Hp. unfold rotateLeft. keeps_go. Qed.

Lemma keeps_rotateRight p : inP P p → keeps P s0 (rotateRight p) (λ _, True).
Proof. intros Hp. unfold rotateRight. keeps_go. Qed.

Lemma keeps_transplant p q : inP P p → inP P q → keeps P s0 (transplant p q) (λ _, True).
Proof. intros Hp Hq. unfold transplant. keeps_go. Qed.

Lemma keeps_minimum fuel : ∀ p, inP P p → keeps P s0 (minimum fuel p) (inP P).
Proof.
  induction fuel as [|fuel IH]; intros p Hp; simpl; [apply keeps_out_of_fuel|].
  eapply keeps_bind; [by apply keeps_get_Left|]. intros [l|] Hl.
  - by apply IH.
  - by apply keeps_ret.
Qed.

Lemma keeps_search_loop key fuel : ∀ p, inP P p → keeps P s0 (search_loop fuel key p) (inP P).
Proof.
  induction fuel as [|fuel IH]; intros p Hp; simpl; [apply keeps_out_of_fuel|].
  destruct p as [a|]; [|by apply keeps_ret].
  eapply keeps_bind; [apply keeps_get_any|]. intros k _. destruct (key_lt key k).
  { eapply keeps_bind; [by apply keeps_get_Left|]. intros l Hl. by apply IH. }
  eapply keeps_bind; [apply keeps_get_any|]. intros k' _. destruct (key_lt k' key).
  { eapply keeps_bind; [by apply keeps_get_Right|]. intros l Hl. by apply IH. }
  by apply keeps_ret.
Qed.

Lemma keeps_Search key : keeps P s0 (Search key) (inP P).
Proof.
  unfold Search. apply keeps_with_fuel. intros fuel.
  eapply keeps_bind; [apply keeps_getRoot|]. intros r Hr. by apply keeps_search_loop.
Qed.

End FrameFunctions.

Ltac keeps_fun :=
  first
    [ apply keeps_rotateLeft; first [assumption | exact I]
    | apply keeps_rotateRight; first [assumption | exact I]
    | apply keeps_transplant; first [assumption | exact I]
    | apply keeps_minimum; first [assumption | exact I]
    | apply keeps_Search ].

Ltac keeps_all := repeat first [keeps_fun | keeps_step].

Section FrameFixups.

Context {V : Type}.
Variables (P : gset positive) (s0 : State V).
Implicit Types (s : State V) (p q : ptr).

Lemma keeps_insertFixup_body p : inP P p → keeps P s0 (insertFixup_body p) (inP P).
Proof. intros Hp. unfold insertFixup_body. keeps_all. Qed.

Lemma keeps_insertFixup_loop fuel : ∀ p,
  inP P p → keeps P s0 (insertFixup_loop fuel p) (λ _, True).
Proof.
  induction fuel as [|fuel IH]; intros p Hp; simpl; [apply keeps_out_of_fuel|].
  eapply keeps_bind; [apply keeps_getRoot|]. intros r Hr.
  destruct (ptr_eqb p r); [by apply keeps_ret|].
  eapply keeps_bind; [by apply keeps_get_Parent|]. intros pp Hpp.
  eapply keeps_bind; [apply keeps_colorOf|]. intros [] _; [|by apply keeps_ret].
  eapply keeps_bind; [by apply keeps_insertFixup_body|]. intros p' Hp'. by apply IH.
Qed.

Lemma keeps_insertFixup fuel p : inP P p → keeps P s0 (insertFixup fuel p) (λ _, True).
Proof.
  intros Hp. unfold insertFixup.
  eapply keeps_bind; [by apply keeps_insertFixup_loop|]. intros _ _. keeps_all.
Qed.

Lemma keeps_deleteFixup_body p q :
  inP P p → inP P q →
  keeps P s0 (deleteFixup_body p q) (λ x, inP P x.1 ∧ inP P x.2).
Proof. intros Hp Hq. unfold deleteFixup_body. keeps_all. Qed.

Lemma keeps_deleteFixup_loop fuel : ∀ p q,
  inP P p → inP P q → keeps P s0 (deleteFixup_loop fuel p q) (inP P).
Proof.
  induction fuel as [|fuel IH]; intros p q Hp Hq; simpl; [apply keeps_out_of_fuel|].
  eapply keeps_bind; [apply keeps_getRoot|]. intros r Hr.
  destruct (ptr_eqb p r); [by apply keeps_ret|].
  eapply keeps_bind; [apply keeps_colorOf|]. intros [] _; [by apply keeps_ret|].
  eapply keeps_bind; [by apply keeps_deleteFixup_body|].
  intros [p' q'] [Hp' Hq']. by apply IH.
Qed.

Lemma keeps_deleteFixup fuel p q :
  inP P p → inP P q → keeps P s0 (deleteFixup fuel p q) (λ _, True).
Proof.
  intros Hp Hq. unfold deleteFixup.
  eapply keeps_bind; [by apply keeps_deleteFixup_loop|]. intros x Hx. keeps_all.
Qed.

Lemma keeps_delete_splice fuel p :
  inP P p →
  keeps P s0 (delete_splice fuel p) (λ x, inP P x.1.2 ∧ inP P x.2).
Proof.
  intros Hp. unfold delete_splice.
  eapply keeps_bind; [apply keeps_get_any|]. intros oc _.
  eapply keeps_bind; [by apply keeps_get_Left|]. intros [nl|] Hnl.
  2:{ keeps_all. by apply keeps_ret. }
  eapply keeps_bind; [by apply keeps_get_Right|]. intros [nr|] Hnr.
  2:{ keeps_all. by apply keeps_ret. }
  eapply keeps_bind.
  { eapply keeps_bind; [by apply keeps_get_Right|]. intros r Hr. by apply keeps_minimum. }
  intros succ Hsucc.
  eapply keeps_bind; [apply keeps_get_any|]. intros oc' _.
  eapply keeps_bind; [by apply keeps_get_Right|]. intros x Hx.
  eapply keeps_bind; [by apply keeps_get_Parent|]. intros sp Hsp.
  eapply (keeps_bind _ _ _ _ (inP P)).
  { destruct (ptr_eqb sp p).
    - eapply (keeps_bind _ _ _ _ (λ _, True)); [|intros; by apply keeps_ret].
      destruct x; keeps_all.
    - keeps_all. }
  intros rp Hrp. keeps_all. by apply keeps_ret.
Qed.

Lemma keeps_Delete key : keeps P s0 (Delete key) (λ _, True).
Proof.
  unfold Delete. eapply keeps_bind; [apply keeps_Search|]. intros [a|] Ha.
  2:{ by apply keeps_ret. }
  apply keeps_with_fuel. intros fuel.
  eapply keeps_bind; [by apply keeps_delete_splice|].
  intros [[oc x] rp] [Hx Hrp]. cbn [fst snd] in *.
  eapply (keeps_bind _ _ _ _ (λ _, True)).
  { destruct oc; [by apply keeps_ret|by apply keeps_deleteFixup]. }
  intros _ _. keeps_all.
Qed.

End FrameFixups.

Section FrameResults.

Context {V : Type}.
Implicit Types (s : State V) (t : @tree V) (p q : ptr).

Lemma sorted_NoDup (l : list string) : StronglySorted str_lt l → NoDup l.
Proof.
  induction 1 as [|x l Hs IH Hall]; constructor; [|done].
  intros Hin. rewrite Forall_forall in Hall. by apply (str_lt_irrefl x), Hall.
Qed.

Lemma length_addrs_elems t : length (addrs t) = length (elems t).
Proof.
  induction t as [|a c l IHl k v r IHr]; simpl; [done|].
  rewrite !length_app. simpl. lia.
Qed.

Lemma inP_rootp t (u : @tree V) :
  (∀ a, a ∈ addrs u → a ∈ addrs t) → inP (list_to_set (addrs t)) (rootp u).
Proof.
  intros Hsub. destruct u as [|b]; simpl; [done|].
  apply elem_of_list_to_set, Hsub. simpl. apply list_elem_of_here.
Qed.

(** The cells of a tree point to cells of the tree. *)
Lemma frame_inv_init s t : Repr s t → frame_inv (list_to_set (addrs t)) s s.
Proof.
  intros H. split_and!.
  - done.
  - intros a n Ha. by exists n.
  - destruct H as (_ & -> & _). by apply inP_rootp.
  - intros a n Ha Hn. apply elem_of_list_to_set in Ha.
    destruct (addrs_focus t a Ha) as (ctx & c & l & k & v & r & ->).
    rewrite (Repr_lookup _ _ _ _ _ _ _ _ H) in Hn. injection Hn as <-. cbn [Parent Left Right].
    split_and!.
    + destruct ctx as [|f ctx]; cbn [ctx_parent inP]; [done|].
      apply elem_of_list_to_set. rewrite addrs_plug. cbn [ctx_addrs].
      apply elem_of_app. right. apply list_elem_of_here.
    + apply inP_rootp. intros b Hb. rewrite addrs_plug. simpl.
      rewrite elem_of_cons, !elem_of_app. auto.
    + apply inP_rootp. intros b Hb. rewrite addrs_plug. simpl.
      rewrite elem_of_cons, !elem_of_app. auto.
Qed.

Lemma frame_inv_reachable (P : gset positive) (s0 s : State V) a :
  frame_inv P s0 s → reachable s a → a ∈ P.
Proof.
  intros (_ & _ & Hroot & Hcl). induction 1 as [a Ha|a n b _ IH Hn Hb|a n b _ IH Hn Hb].
  - by rewrite Ha in Hroot.
  - destruct (Hcl a n IH Hn) as (_ & Hl & _). by rewrite Hb in Hl.
  - destruct (Hcl a n IH Hn) as (_ & _ & Hr). by rewrite Hb in Hr.
Qed.

Lemma repr_key_in (h : gmap positive (Node V)) t pp a n :
  repr h t pp → a ∈ addrs t → h !! a = Some n → (Key n, Value n) ∈ elems t.
Proof.
  revert pp. induction t as [|a0 c l IHl k v r IHr]; intros pp Hr Ha Hn; simpl in *.
  { by apply not_elem_of_nil in Ha. }
  destruct Hr as (H0 & Hl & Hr).
  rewrite elem_of_cons, elem_of_app in Ha. rewrite elem_of_app, elem_of_cons.
  destruct Ha as [->|[Ha|Ha]].
  - rewrite H0 in Hn. injection Hn as <-. right. by left.
  - left. by eapply IHl.
  - right. right. by eapply IHr.
Qed.

Lemma Repr_key_in s t a n :
  Repr s t → a ∈ addrs t → heap s !! a = Some n → Key n ∈ keys t.
Proof.
  intros (Hr & _) Ha Hn. apply list_elem_of_fmap. exists (Key n, Value n).
  split; [done|]. by eapply repr_key_in.
Qed.

(** In a tree without repeated keys a key names one cell. *)
Lemma repr_key_unique (h : gmap positive (Node V)) t pp :
  repr h t pp → NoDup (keys t) →
  ∀ a a' n n', a ∈ addrs t → a' ∈ addrs t →
    h !! a = Some n → h !! a' = Some n' → Key n = Key n' → a = a'.
Proof.
  revert pp. induction t as [|a0 c l IHl k v r IHr]; intros pp Hr Hnd a a' n n' Ha Ha' Hn Hn' Hk.
  { by apply not_elem_of_nil in Ha. }
  simpl in Hr. destruct Hr as (H0 & Hl & Hr).
  unfold keys in Hnd. simpl in Hnd. rewrite fmap_app, fmap_cons in Hnd. simpl in Hnd.
  apply NoDup_app in Hnd as (Hndl & Hlr & Hndr).
  apply NoDup_cons in Hndr as (Hkr & Hndr).
  assert (∀ b m, b ∈ addrs l → h !! b = Some m → Key m ∈ (elems l).*1) as Hinl.
  { intros b m Hb Hm. apply list_elem_of_fmap. exists (Key m, Value m).
    split; [done|]. by eapply repr_key_in. }
  assert (∀ b m, b ∈ addrs r → h !! b = Some m → Key m ∈ (elems r).*1) as Hinr.
  { intros b m Hb Hm. apply list_elem_of_fmap. exists (Key m, Value m).
    split; [done|]. by eapply repr_key_in. }
  simpl in Ha, Ha'. rewrite elem_of_cons, elem_of_app in Ha, Ha'.
  destruct Ha as [->|[Ha|Ha]], Ha' as [->|[Ha'|Ha']]; try done.
  - rewrite H0 in Hn. injection Hn as <-. simpl in Hk.
    exfalso. apply (Hlr k); [rewrite Hk; by eapply Hinl|by left].
  - rewrite H0 in Hn. injection Hn as <-. simpl in Hk.
    exfalso. apply Hkr. rewrite Hk. by eapply Hinr.
  - rewrite H0 in Hn'. injection Hn' as <-. simpl in Hk.
    exfalso. apply (Hlr k); [rewrite <- Hk; by eapply Hinl|by left].
  - by eapply (IHl (Some a0)).
  - exfalso. apply (Hlr (Key n)); [by eapply Hinl|]. right. rewrite Hk. by eapply Hinr.
  - rewrite H0 in Hn'. injection Hn' as <-. simpl in Hk.
    exfalso. apply Hkr. rewrite <- Hk. by eapply Hinr.
  - exfalso. apply (Hlr (Key n')); [by eapply Hinl|]. right. rewrite <- Hk. by eapply Hinr.
  - by eapply (IHr (Some a0)).
Qed.

(** [Search] finds the same cell in two states that hold the same keys in
    the same cells. *)
Lemma Search_stable s t s' t' key a :
  Repr s t → sorted_keys t → Repr s' t' → sorted_keys t' →
  (∀ b, b ∈ addrs t' → b ∈ addrs t
        ∨ ∃ n', heap s' !! b = Some n' ∧ Key n' ≠ key) →
  (∀ b n, heap s !! b = Some n → ∃ n', heap s' !! b = Some n' ∧ Key n' = Key n) →
  key ∈ keys t' →
  Search key s = Ok (Some a, s) → Search key s' = Ok (Some a, s').
Proof.
  intros H Hs H' Hs' Hsub Hkeys Hin' Hsearch.
  apply list_elem_of_fmap in Hin' as ([k' v'] & -> & Hin').
  destruct (Search_found _ _ _ _ H' Hs' Hin') as (a' & n' & Heq' & Hn' & Hk' & _ & Ha').
  simpl in *. rewrite Heq'. do 2 f_equal.
  rewrite (Search_eq _ _ _ H) in Hsearch. injection Hsearch as Hsearch.
  pose proof (descend_plug k' [] t) as Hp. cbn [plug] in Hp.
  destruct (descend k' [] t) as [ctx [|a1 c l k v r]] eqn:Hd; cbn [fst snd rootp] in *; [done|].
  injection Hsearch as ->.
  assert (k = k') as -> by (by eapply (descend_found k' [] t); rewrite Hd).
  assert (Ha : a ∈ addrs t).
  { rewrite <- Hp, addrs_plug. simpl. apply list_elem_of_here. }
  assert (Hn : heap s !! a = Some (mkNode k' v c (ctx_parent ctx) (rootp l) (rootp r))).
  { subst t. by eapply Repr_lookup. }
  destruct (Hsub a' Ha') as [Ha't|(m & Hm & Hne)].
  2:{ rewrite Hn' in Hm. injection Hm as <-. done. }
  destruct (repr_dom _ _ _ a' (proj1 H) Ha't) as [m Hm].
  destruct (Hkeys a' m Hm) as (m' & Hm' & Hkm).
  rewrite Hn' in Hm'. injection Hm' as <-.
  destruct H as (Hr & _). f_equal.
  eapply (repr_key_unique _ _ _ Hr (sorted_NoDup _ Hs) a' a); try done.
  simpl. congruence.
Qed.

End FrameResults.

Section CellResults.

Context {V : Type}.
Implicit Types (s : State V) (t : @tree V) (p q : ptr).

Lemma keeps_insert_link (P : gset positive) (s0 : State V) fuel p q :
  inP P p → inP P q → keeps P s0 (insert_link fuel p q) (λ _, True).
Proof.
  intros Hp Hq. unfold insert_link.
  eapply (keeps_bind _ _ _ _ (λ _, True)).
  { destruct p; keeps_all. }
  intros _ _. eapply keeps_bind; [by apply keeps_insertFixup|]. intros _ _. keeps_all.
Qed.

(** [Insert] of an absent key, up to the allocation. *)
Lemma Insert_unfold_absent key value s t ctx :
  Repr s t → descend key [] t = (ctx, Leaf) →
  Insert key value s =
    insert_link (fuel_of s) (ctx_parent ctx) (Some (fresh (dom (heap s))))
      (mkState (<[fresh (dom (heap s)) := mkNode key value red (ctx_parent ctx) None None]> (heap s))
               (root s) (size s)).
Proof.
  intros H Hd. pose proof (Repr_fuel _ _ H) as Hfuel.
  pose proof H as (_ & Hroot & _). destruct s as [h q z]. cbn [heap root size] in *.
  subst q.
  destruct (insert_descend_spec key value t (fuel_of (mkState h (rootp t) z)) [] h (rootp t) z
              (λ d s', d = Attach (ctx_parent ctx) ∧ s' = mkState h (rootp t) z))
    as (d & s' & Heq & -> & ->); [lia|done|by rewrite Hd|].
  cbn [ctx_parent rootp] in Heq.
  unfold Insert, with_fuel, bind at 1, getRoot. cbn [root].
  unfold bind at 1. rewrite Heq. reflexivity.
Qed.

Lemma Delete_cells s t key :
  Repr s t → rb_tree t →
  ∃ s' t',
    Delete key s = Ok (bool_decide (key ∈ keys t), s')
    ∧ Repr s' t' ∧ rb_tree t'
    ∧ elems t' = list_remove key (elems t)
    ∧ frame_inv (list_to_set (addrs t)) s s'
    ∧ length (elems t) =
        (if bool_decide (key ∈ keys t) then S (length (elems t')) else length (elems t'))
    ∧ (key ∉ keys t → s' = s).
Proof.
  intros H Hrb.
  destruct (Delete_spec key s t H Hrb) as (s' & t' & Heq & H' & Hrb' & Hel & _ & Hlen & Hsame).
  exists s', t'. split_and!; try done.
  by destruct (keeps_Delete (list_to_set (addrs t)) s key s _ s' (frame_inv_init s t H) Heq).
Qed.

Lemma Insert_absent_cells s t key value :
  Repr s t → rb_tree t → key ∉ keys t →
  ∃ a s' t',
    heap s !! a = None
    ∧ Insert key value s = Ok (tt, s')
    ∧ Repr s' t' ∧ rb_tree t'
    ∧ elems t' = list_put key value (elems t)
    ∧ length (elems t') = S (length (elems t))
    ∧ (∃ pp, frame_inv (list_to_set (a :: addrs t))
               (mkState (<[a := mkNode key value red pp None None]> (heap s)) (root s) (size s))
               s').
Proof.
  intros H Hrb Hn.
  destruct (Insert_spec key value s t H Hrb) as (s' & t' & Heq & H' & Hrb' & Hel & _ & Hlen).
  rewrite bool_decide_eq_false_2 in Hlen by done.
  pose proof Hrb as (_ & _ & _ & Hs).
  pose proof (proj2 (descend_Leaf_iff key t Hs) Hn) as Hleaf.
  pose proof (descend_plug key [] t) as Hp. cbn [plug] in Hp.
  destruct (descend key [] t) as [ctx x] eqn:Hd. cbn [fst snd] in *. subst x.
  set (a := fresh (dom (heap s))).
  assert (Ha : heap s !! a = None) by (apply not_elem_of_dom, is_fresh).
  exists a, s', t'. split_and!; try done. exists (ctx_parent ctx).
  rewrite (Insert_unfold_absent key value s t ctx H Hd) in Heq. fold a in Heq.
  assert (Hsub : ∀ b, b ∈ addrs t → b ≠ a).
  { intros b Hb ->. destruct (repr_dom _ _ _ a (proj1 H) Hb) as [m Hm]. congruence. }
  assert (Hpar : inP (list_to_set (a :: addrs t)) (ctx_parent ctx)).
  { destruct ctx as [|f ctx]; cbn [ctx_parent inP]; [done|].
    apply elem_of_list_to_set. right. rewrite <- Hp, addrs_plug. cbn [ctx_addrs].
    apply elem_of_app. right. apply list_elem_of_here. }
  eapply keeps_insert_link; [exact Hpar| |  |exact Heq].
  { cbn [inP]. apply elem_of_list_to_set. by left. }
  destruct (frame_inv_init s t H) as (_ & _ & Hroot & Hcl).
  split_and!; cbn [heap root].
  - done.
  - intros b n Hb. by exists n.
  - destruct (root s) as [r|]; [|done]. cbn [inP] in *.
    apply elem_of_list_to_set. right. by apply elem_of_list_to_set in Hroot.
  - intros b n Hb. apply elem_of_list_to_set, elem_of_cons in Hb as [->|Hb].
    + rewrite lookup_insert_eq. intros [= <-]. cbn [Parent Left Right inP]. by split_and!.
    + rewrite lookup_insert_ne by (by apply not_eq_sym, Hsub). intros Hb'.
      destruct (Hcl b n) as (H1 & H2 & H3); [by apply elem_of_list_to_set|done|].
      assert (∀ p, inP (list_to_set (addrs t)) p → inP (list_to_set (a :: addrs t)) p) as Hw.
      { intros [x|]; [|done]. cbn [inP]. rewrite !elem_of_list_to_set. by right. }
      split_and!; by apply Hw.
Qed.

End CellResults.

Section CellTheorems.

Context {V : Type}.
Implicit Types (s : State V) (t : @tree V) (p q : ptr).

Lemma reachable_iff s t a : Repr s t → reachable s a ↔ a ∈ addrs t.
Proof. intros H. split; [by apply reachable_addrs|by apply addrs_reachable]. Qed.

Lemma NoDup_full (l k : list positive) :
  NoDup l → (∀ x, x ∈ l → x ∈ k) → (length k ≤ length l)%nat → ∀ x, x ∈ k → x ∈ l.
Proof.
  intros Hnd Hsub Hlen x Hx.
  pose proof (submseteq_length_Permutation _ _ (NoDup_submseteq _ _ Hnd Hsub) Hlen) as Hp.
  by rewrite Hp.
Qed.

(** X10. [Delete] frees and allocates no cell and changes the key and the
    value of none; the nodes of the tree after it are the nodes before it
    without the node that [Search] finds for the key (also when that node
    has two children: its successor is moved, no key is copied). *)
Theorem X10_delete_unlinks_found_node s t (k : string) :
  Repr s t → rb_tree t →
  ∃ p b s',
    Search k s = Ok (p, s) ∧ Delete k s = Ok (b, s')
    ∧ dom (heap s') = dom (heap s)
    ∧ (∀ a n, heap s !! a = Some n →
         ∃ n', heap s' !! a = Some n' ∧ Key n' = Key n ∧ Value n' = Value n)
    ∧ (∀ a, reachable s' a ↔ reachable s a ∧ p ≠ Some a).
Proof.
  intros H Hrb. pose proof Hrb as (_ & _ & _ & Hs).
  destruct (Delete_cells s t k H Hrb)
    as (s' & t' & Heq & H' & Hrb' & Hel & Hinv & Hlen & Hsame).
  pose proof Hinv as (Hdom & Hpay & _).
  destruct (decide (k ∈ keys t)) as [Hin|Hn].
  2:{ exists None, false, s. rewrite bool_decide_eq_false_2 in Heq by done.
      rewrite (Hsame Hn) in Heq. split_and!; try done.
      - by apply (Search_absent k s t).
      - intros a n Ha. by exists n.
      - intros a. split; [done|by intros [? _]]. }
  rewrite bool_decide_eq_true_2 in Heq, Hlen by done.
  apply list_elem_of_fmap in Hin as ([k0 v] & -> & Hin). cbn [fst] in *.
  destruct (Search_found _ _ _ _ H Hs Hin) as (ak & nk & Hsk & Hnk & Hkk & _ & Hak).
  exists (Some ak), true, s'. split_and!; try done.
  assert (Hnotin : ak ∉ addrs t').
  { intros Ha'. destruct (Hpay ak nk Hnk) as (n' & Hn' & Hk' & _).
    pose proof (Repr_key_in s' t' ak n' H' Ha' Hn') as Hc.
    rewrite Hk', Hkk in Hc. unfold keys in Hc. rewrite Hel in Hc.
    by apply list_remove_notin in Hc. }
  assert (Hsub : ∀ a, a ∈ addrs t' → a ∈ addrs t).
  { intros a Ha. apply (addrs_reachable s' t' a H') in Ha.
    apply (frame_inv_reachable _ _ _ _ Hinv) in Ha. by apply elem_of_list_to_set in Ha. }
  intros a. rewrite (reachable_iff s' t' a H'), (reachable_iff s t a H). split.
  - intros Ha. split; [by apply Hsub|]. intros [= ->]. done.
  - intros [Ha Hne].
    assert (a ∈ ak :: addrs t') as Hc.
    { apply (NoDup_full (ak :: addrs t') (addrs t)); [| | |done].
      - apply NoDup_cons. split; [done|apply H'].
      - intros x [->|Hx]%elem_of_cons; [done|by apply Hsub].
      - simpl. rewrite !length_addrs_elems. lia. }
    apply elem_of_cons in Hc as [->|Hc]; done.
Qed.

(** X11. [Insert] of an absent key allocates one cell, which holds the key
    and the value and is the node that [Search] then finds; no other cell
    changes its key or value, and the nodes of the tree after it are the
    nodes before it and the new one. *)
Theorem X11_insert_allocates_one_node s t (k : string) (v : V) :
  Repr s t → rb_tree t → k ∉ keys t →
  ∃ a s',
    Insert k v s = Ok (tt, s') ∧ heap s !! a = None
    ∧ dom (heap s') = {[a]} ∪ dom (heap s)
    ∧ (∃ n, heap s' !! a = Some n ∧ Key n = k ∧ Value n = v)
    ∧ Search k s' = Ok (Some a, s')
    ∧ (∀ b n, heap s !! b = Some n →
         ∃ n', heap s' !! b = Some n' ∧ Key n' = Key n ∧ Value n' = Value n)
    ∧ (∀ b, reachable s' b ↔ reachable s b ∨ b = a).
Proof.
  intros H Hrb Hn. pose proof Hrb as (_ & _ & _ & Hs).
  destruct (Insert_absent_cells s t k v H Hrb Hn)
    as (a & s' & t' & Ha & Heq & H' & Hrb' & Hel & Hlen & pp & Hinv).
  pose proof Hrb' as (_ & _ & _ & Hs').
  pose proof Hinv as (Hdom & Hpay & _). cbn [heap] in Hdom, Hpay.
  assert (Hnew : ∃ n, heap s' !! a = Some n ∧ Key n = k ∧ Value n = v).
  { destruct (Hpay a _ (lookup_insert_eq _ _ _)) as (n & Hn' & Hk & Hv). by exists n. }
  assert (Hold : ∀ b n, heap s !! b = Some n →
            ∃ n', heap s' !! b = Some n' ∧ Key n' = Key n ∧ Value n' = Value n).
  { intros b n Hb. apply Hpay. rewrite lookup_insert_ne; [done|]. intros ->. congruence. }
  assert (Hsub : ∀ b, b ∈ addrs t' → b ∈ a :: addrs t).
  { intros b Hb. apply (addrs_reachable s' t' b H') in Hb.
    apply (frame_inv_reachable _ _ _ _ Hinv) in Hb. by apply elem_of_list_to_set in Hb. }
  assert (Hnotin : a ∉ addrs t).
  { intros Hc. destruct (repr_dom _ _ _ a (proj1 H) Hc) as [m Hm]. congruence. }
  exists a, s'. split_and!; try done.
  - by rewrite Hdom, dom_insert_L.
  - assert ((k, v) ∈ elems t') as Hin by (rewrite Hel; apply list_put_elem).
    destruct (Search_found _ _ _ _ H' Hs' Hin) as (a' & n' & Hsk & Hn' & Hk' & _ & Ha').
    rewrite Hsk. do 3 f_equal.
    apply Hsub, elem_of_cons in Ha' as [->|Ha']; [done|]. exfalso.
    destruct (repr_dom _ _ _ a' (proj1 H) Ha') as [m Hm].
    destruct (Hold a' m Hm) as (m' & Hm' & Hkm & _).
    apply Hn. rewrite <- Hk'. rewrite Hn' in Hm'. injection Hm' as <-. rewrite Hkm.
    by eapply Repr_key_in.
  - intros b. rewrite (reachable_iff s' t' b H'), (reachable_iff s t b H). split.
    + intros Hb. apply Hsub, elem_of_cons in Hb as [->|Hb]; [by right|by left].
    + intros Hb.
      apply (NoDup_full (addrs t') (a :: addrs t)); [apply H'|done| |].
      * simpl. rewrite !length_addrs_elems. lia.
      * apply elem_of_cons. destruct Hb as [Hb| ->]; [by right|by left].
Qed.

(** X12. The node that [Search] finds for a key stays the node of that key:
    [Search] returns the same pointer after an [Insert] of any key and
    after a [Delete] of any other key. *)
Theorem X12_search_pointer_stable s t (k k' : string) (a : positive) :
  Repr s t → rb_tree t →
  Search k' s = Ok (Some a, s) →
  (∀ v, ∃ s', Insert k v s = Ok (tt, s') ∧ Search k' s' = Ok (Some a, s'))
  ∧ (k' ≠ k → ∃ b s', Delete k s = Ok (b, s') ∧ Search k' s' = Ok (Some a, s')).
Proof.
  intros H Hrb Hsearch. pose proof Hrb as (_ & _ & _ & Hs).
  assert (Hk' : k' ∈ keys t).
  { destruct (decide (k' ∈ keys t)) as [|Hn]; [done|].
    rewrite (Search_absent _ _ _ H Hs Hn) in Hsearch. done. }
  split.
  - intros v. destruct (decide (k ∈ keys t)) as [Hin|Hn].
    + (* the key is there: one value is overwritten *)
      pose proof (descend_Leaf_iff k t Hs) as Hiff.
      pose proof (descend_plug k [] t) as Hp. cbn [plug] in Hp.
      destruct (descend k [] t) as [ctx [|ak c l k0 v0 r]] eqn:Hd; cbn [fst snd] in *.
      { exfalso. by apply Hiff. }
      assert (k0 = k) as -> by (by eapply (descend_found k [] t); rewrite Hd).
      eexists. split; [by apply (Insert_found k v s t ctx ak c l k v0 r)|].
      subst t. destruct s as [h q z]. cbn [heap root size] in *.
      pose proof (Repr_setValue h q z ctx ak c l k v0 v r H) as H'.
      eapply (Search_stable _ _ _ _ k' a H Hs H'); [| | | |done].
      * unfold sorted_keys in *. by rewrite keys_plug, keys_Br in Hs |- *.
      * intros b Hb. left. by rewrite addrs_plug in Hb |- *.
      * intros b n Hb. cbn [heap]. destruct (decide (b = ak)) as [->|Hne].
        -- rewrite lookup_insert_eq. eexists. split; [done|].
           rewrite (Repr_lookup _ _ _ _ _ _ _ _ H) in Hb. by injection Hb as <-.
        -- rewrite lookup_insert_ne by done. by exists n.
      * by rewrite keys_plug, keys_Br in Hk' |- *.
    + destruct (Insert_absent_cells s t k v H Hrb Hn)
        as (an & s' & t' & Ha & Heq & H' & Hrb' & Hel & Hlen & pp & Hinv).
      exists s'. split; [done|]. pose proof Hrb' as (_ & _ & _ & Hs').
      pose proof Hinv as (_ & Hpay & _). cbn [heap] in Hpay.
      eapply (Search_stable _ _ _ _ k' a H Hs H' Hs'); [| | |done].
      * intros b Hb. apply (addrs_reachable s' t' b H') in Hb.
        apply (frame_inv_reachable _ _ _ _ Hinv) in Hb.
        apply elem_of_list_to_set, elem_of_cons in Hb as [->|Hb]; [right|by left].
        destruct (Hpay an _ (lookup_insert_eq _ _ _)) as (n & Hn' & Hkn & _).
        exists n. split; [done|]. rewrite Hkn. cbn [Key]. intros ->. done.
      * intros b n Hb. destruct (Hpay b n) as (n' & ? & ? & _); [|by exists n'].
        rewrite lookup_insert_ne; [done|]. intros ->. congruence.
      * unfold keys in *. rewrite Hel.
        apply list_elem_of_fmap in Hk' as ([k1 v1] & -> & Hin1). cbn [fst].
        apply list_elem_of_fmap. exists (k1, v1). split; [done|].
        apply elem_of_list_put; [done|]. right. split; [|done]. intros ->.
        apply Hn. apply list_elem_of_fmap. by exists (k, v1).
  - intros Hne.
    destruct (Delete_cells s t k H Hrb)
      as (s' & t' & Heq & H' & Hrb' & Hel & Hinv & _).
    eexists _, s'. split; [done|]. pose proof Hrb' as (_ & _ & _ & Hs').
    pose proof Hinv as (_ & Hpay & _).
    eapply (Search_stable _ _ _ _ k' a H Hs H' Hs'); [| | |done].
    + intros b Hb. left. apply (addrs_reachable s' t' b H') in Hb.
      apply (frame_inv_reachable _ _ _ _ Hinv) in Hb. by apply elem_of_list_to_set in Hb.
    + intros b n Hb. destruct (Hpay b n Hb) as (n' & ? & ? & _). by exists n'.
    + unfold keys in *. rewrite Hel.
      apply list_elem_of_fmap in Hk' as ([k1 v1] & -> & Hin1). cbn [fst] in *.
      apply list_elem_of_fmap. exists (k1, v1). split; [done|].
      by apply elem_of_list_remove.
Qed.

End CellTheorems.

(** X10 at the tree of "a", "b", "c": the root "b" is deleted. *)
Lemma X10_delete_unlinks_found_node_witness :
  ∃ p b s',
    Search "b" demo_state = Ok (p, demo_state) ∧ Delete "b" demo_state = Ok (b, s')
    ∧ dom (heap s') = dom (heap demo_state)
    ∧ (∀ a n, heap demo_state !! a = Some n →
         ∃ n', heap s' !! a = Some n' ∧ Key n' = Key n ∧ Value n' = Value n)
    ∧ (∀ a, reachable s' a ↔ reachable demo_state a ∧ p ≠ Some a).
Proof.
  apply (X10_delete_unlinks_found_node demo_state demo_tree "b"); solve_demo.
Defined.

(** X11 at the tree of "a", "b", "c": "d" is inserted. *)
Lemma X11_insert_allocates_one_node_witness :
  ∃ a s',
    Insert "d" 4 demo_state = Ok (tt, s') ∧ heap demo_state !! a = None
    ∧ dom (heap s') = {[a]} ∪ dom (heap demo_state)
    ∧ (∃ n, heap s' !! a = Some n ∧ Key n = "d"%string ∧ Value n = 4)
    ∧ Search "d" s' = Ok (Some a, s')
    ∧ (∀ b n, heap demo_state !! b = Some n →
         ∃ n', heap s' !! b = Some n' ∧ Key n' = Key n ∧ Value n' = Value n)
    ∧ (∀ b, reachable s' b ↔ reachable demo_state b ∨ b = a).
Proof.
  apply (X11_insert_allocates_one_node demo_state demo_tree "d" 4); solve_demo.
Defined.

(** X12 at the tree of "a", "b", "c": the node of "c" under an [Insert] or
    a [Delete] of "b". *)
Lemma X12_search_pointer_stable_witness :
  (∀ v, ∃ s', Insert "b" v demo_state = Ok (tt, s')
              ∧ Search "c" s' = Ok (Some 3%positive, s'))
  ∧ ("c"%string ≠ "b"%string →
     ∃ b s', Delete "b" demo_state = Ok (b, s')
             ∧ Search "c" s' = Ok (Some 3%positive, s')).
Proof.
  apply (X12_search_pointer_stable demo_state demo_tree "b" "c" 3); solve_demo.
Defined.

(** * Rotations undo each other *)

Ltac heap_ext :=
  apply map_eq; intros ?i;
  repeat match goal with
  | |- <[?x := _]> _ !! ?i = _ =>
      first
        [ rewrite lookup_insert_ne by done
        | destruct (decide (i = x)) as [->|?];
          [ rewrite lookup_insert_eq; symmetry; eassumption
          | rewrite lookup_insert_ne by done ] ]
  end; try reflexivity.

Section RotationInverse.

Context {V : Type}.
Implicit Types (s : State V) (h : gmap positive (Node V)) (t l r : @tree V)
  (ctx : list (@frame V)) (p pp : ptr) (a b : positive).

Lemma rotateLeft_then_rotateRight h q z ctx a c l k v b cb bl bk bv br :
  Repr (mkState h q z) (plug ctx (Br a c l k v (Br b cb bl bk bv br))) →
  wp (rotateLeft (Some a) ;; rotateRight (Some b)) (mkState h q z)
     (λ _ s', s' = mkState h q z).
Proof.
  rewrite Repr_unfold. simpl. intros ((Ha & Hl & Hb & Hbl & Hbr) & Hctx & Hroot & Hnd).
  unfold rotateLeft, rotateRight.
  destruct bl as [|x xc xl xk xv xr]; simpl in *;
    (destruct ctx as [|[[] g gc gk gv u] ctx]; simpl in *);
    unfold frame_node in *; simpl in *; destruct_and?; wp_steps.
  all: subst; f_equal.
  all: heap_ext.
Qed.

Lemma rotateRight_then_rotateLeft h q z ctx a c r k v b cb bl bk bv br :
  Repr (mkState h q z) (plug ctx (Br a c (Br b cb bl bk bv br) k v r)) →
  wp (rotateRight (Some a) ;; rotateLeft (Some b)) (mkState h q z)
     (λ _ s', s' = mkState h q z).
Proof.
  rewrite Repr_unfold. simpl. intros ((Ha & (Hb & Hbl & Hbr) & Hr) & Hctx & Hroot & Hnd).
  unfold rotateLeft, rotateRight.
  destruct br as [|x xc xl xk xv xr]; simpl in *;
    (destruct ctx as [|[[] g gc gk gv u] ctx]; simpl in *);
    unfold frame_node in *; simpl in *; destruct_and?; wp_steps.
  all: subst; f_equal.
  all: heap_ext.
Qed.

Lemma wp_seq_inv {A B} (m1 : Comp (State V) A) (m2 : Comp (State V) B) s (s2 : State V) :
  wp (m1 ;; m2) s (λ _ s', s' = s2) →
  ∃ x s1 y, m1 s = Ok (x, s1) ∧ m2 s1 = Ok (y, s2).
Proof.
  intros (y & s' & Heq & ->). unfold bind in Heq.
  destruct (m1 s) as [[x s1]| |] eqn:E; [|done..]. by exists x, s1, y.
Qed.

(** X13. A rotation and the opposite rotation at the node that came up
    restore the memory exactly: [rotateRight] at the former right child
    undoes [rotateLeft], and [rotateLeft] at the former left child undoes
    [rotateRight]. *)
Theorem X13_rotations_inverse (d : dir) s t a (n : Node V) b :
  Repr s t → reachable s a → heap s !! a = Some n →
  match d with DL => Right n | DR => Left n end = Some b →
  ∃ s1,
    match d with DL => rotateLeft | DR => rotateRight end (Some a) s = Ok (tt, s1)
    ∧ match d with DL => rotateRight | DR => rotateLeft end (Some b) s1 = Ok (tt, s).
Proof.
  intros H Hreach Hn Hb.
  apply (reachable_addrs s t a H) in Hreach.
  destruct (addrs_focus t a Hreach) as (ctx & c & l & k & v & r & ->).
  rewrite (Repr_lookup _ _ _ _ _ _ _ _ H) in Hn. injection Hn as <-. cbn [Left Right] in Hb.
  destruct s as [h q z]. destruct d.
  - destruct r as [|b' rc rl rk rv rr]; [done|]. injection Hb as ->.
    destruct (wp_seq_inv _ _ _ _ (rotateLeft_then_rotateRight _ _ _ _ _ _ _ _ _ _ _ _ _ _ _ H))
      as ([] & s1 & [] & H1 & H2).
    by exists s1.
  - destruct l as [|b' lc ll lk lv lr]; [done|]. injection Hb as ->.
    destruct (wp_seq_inv _ _ _ _ (rotateRight_then_rotateLeft _ _ _ _ _ _ _ _ _ _ _ _ _ _ _ H))
      as ([] & s1 & [] & H1 & H2).
    by exists s1.
Qed.

End RotationInverse.

(** * The guard of Case 2 in the left branch of the insert fixup *)

Section Case2.

Context {V : Type}.
Implicit Types (s : State V) (t : @tree V).

(** X14. In a well-linked tree no node is the right child of its
    grandparent: the test [node == node.Parent.Parent.Right] of
    [insertFixup] is false at every node that has a grandparent, so the
    rotation it guards is never made. *)
Theorem X14_case2_test_false s t a (n m : Node V) p g :
  Repr s t → reachable s a →
  heap s !! a = Some n → Parent n = Some p →
  heap s !! p = Some m → Parent m = Some g →
  case2_test (Some a) s = Ok (false, s).
Proof.
  intros H Hreach Hn Hp Hm Hg.
  apply (reachable_addrs s t a H) in Hreach.
  destruct (addrs_focus t a Hreach) as (ctx & c & l & k & v & r & ->).
  rewrite (Repr_lookup _ _ _ _ _ _ _ _ H) in Hn. injection Hn as <-. cbn [Parent] in Hp.
  destruct ctx as [|[d1 p' pc pk pv sb] ctx]; [done|]. injection Hp as ->.
  assert (Parent m = ctx_parent ctx) as Hpm.
  { destruct d1; cbn [plug fill fdir faddr fcolor fkey fval fsib] in H;
      rewrite (Repr_lookup _ _ _ _ _ _ _ _ H) in Hm; by injection Hm as <-. }
  rewrite Hpm in Hg.
  destruct ctx as [|[d2 g' gc gk gv u] rest]; [done|]. injection Hg as ->.
  enough (wp (case2_test (Some a)) s (λ b s', b = false ∧ s' = s)) as (b & s' & Heq & -> & ->);
    [done|].
  unfold case2_test.
  pose proof H as Hnd. apply Repr_unfold in Hnd.
  destruct Hnd as (_ & _ & _ & Hnd); simpl in Hnd.
  destruct d1, d2; cbn [plug fill fdir faddr fcolor fkey fval fsib] in H; tsteps H.
  all: split; [|done].
  all: ptr_simpl; done.
Qed.

End Case2.

(** * The leftmost node *)

Section Minimum.

Context {V : Type}.
Implicit Types (s : State V) (t u : @tree V) (ctx : list (@frame V)).

(** X15. [minimum] from a node of a search tree returns, without changing
    anything, the node of the subtree that has no left child; its key is the
    least key of the subtree.  The walk takes at most as many steps as the
    subtree is high. *)
Theorem X15_minimum_least_key s ctx u (fuel : nat) :
  Repr s (plug ctx u) → sorted_keys (plug ctx u) → u ≠ Leaf → (height u ≤ fuel)%nat →
  ∃ m nm,
    minimum fuel (rootp u) s = Ok (Some m, s)
    ∧ m ∈ addrs u
    ∧ heap s !! m = Some nm ∧ Left nm = None
    ∧ Key nm ∈ keys u
    ∧ ∀ k, k ∈ keys u → k = Key nm ∨ str_lt (Key nm) k.
Proof.
  intros H Hs Hne Hfuel.
  destruct (min_ctx_shape [] u Hne) as (sa & sc & sk & sv & sr & Hsh).
  pose proof (min_ctx_plug [] u) as Hp. rewrite Hsh in Hp.
  change (plug [] u) with u in Hp.
  pose proof (min_ctx_before u) as Hbef.
  destruct (min_ctx [] u) as [sctx x] eqn:Hm. cbn [fst snd] in *. subst x.
  destruct (minimum_spec u fuel ctx s (λ r s', r = Some sa ∧ s' = s) Hne Hfuel H)
    as (r & s' & Heq & -> & ->).
  { by rewrite min_ctx_app, Hm. }
  assert (Hku : keys u = sk :: keys sr ++ (ctx_after sctx).*1).
  { rewrite <- Hp, keys_plug, Hbef, keys_Br. done. }
  assert (Hsu : StronglySorted str_lt (keys u)).
  { unfold sorted_keys in Hs. rewrite keys_plug in Hs.
    apply sorted_app in Hs as (_ & Hs & _). by apply sorted_app in Hs as (Hs & _). }
  exists sa. eexists. split_and!.
  - done.
  - rewrite <- Hp, addrs_plug. simpl. apply list_elem_of_here.
  - rewrite <- Hp, <- plug_app in H. by apply (Repr_lookup _ _ _ _ _ _ _ _ H).
  - done.
  - cbn [Key]. rewrite Hku. apply list_elem_of_here.
  - cbn [Key]. intros k Hk. rewrite Hku in Hk, Hsu.
    apply elem_of_cons in Hk as [->|Hk]; [by left|right].
    apply sorted_cons in Hsu as [_ Hall]. by apply Hall.
Qed.

End Minimum.

(** * The height of a red-black tree *)

Section Height.

Context {V : Type}.
Implicit Types (s : State V) (t : @tree V).

Lemma bh_size t : balanced t → (2 ^ bh t ≤ length (addrs t) + 1)%nat.
Proof.
  induction t as [|a c l IHl k v r IHr]; simpl; [lia|].
  intros (Heq & Hl & Hr). specialize (IHl Hl). specialize (IHr Hr).
  rewrite length_app. rewrite <- Heq in IHr. destruct c.
  - rewrite Nat.add_0_r. lia.
  - rewrite Nat.add_1_r, Nat.pow_succ_r'. lia.
Qed.

Lemma height_bh t :
  noRedRed t → balanced t → (height t ≤ 2 * bh t + (if color_of t then 1 else 0))%nat.
Proof.
  induction t as [|a c l IHl k v r IHr]; simpl; [lia|].
  intros (Hc & Hrl & Hrr) (Heq & Hl & Hr).
  specialize (IHl Hrl Hl). specialize (IHr Hrr Hr). rewrite <- Heq in IHr.
  destruct c.
  - destruct (Hc eq_refl) as [Hcl Hcr]. rewrite Hcl in IHl. rewrite Hcr in IHr.
    unfold black in *. lia.
  - destruct (color_of l), (color_of r); lia.
Qed.

Lemma rb_height t :
  rb_tree t → (height t ≤ 2 * Nat.log2 (length (keys t) + 1))%nat.
Proof.
  intros Hrb. apply rb_tree_shape in Hrb as [(Hc & Hrr & Hb) _].
  pose proof (height_bh t Hrr Hb) as Hh. rewrite Hc in Hh. unfold black in Hh.
  pose proof (bh_size t Hb) as Hs.
  unfold keys. rewrite length_fmap, <- length_addrs_elems.
  assert (bh t ≤ Nat.log2 (length (addrs t) + 1))%nat.
  { rewrite <- (Nat.log2_pow2 (bh t)) by lia. by apply Nat.log2_le_mono. }
  lia.
Qed.

(** X16. A red-black tree of n keys is at most 2·log2(n+1) high, and the
    loop of [Search] ends within 2·log2(n+1)+1 tests of [cur != nil]: with
    that many iterations allowed it returns what [Search] returns. *)
Theorem X16_search_logarithmic s t (key : string) (fuel : nat) :
  Repr s t → rb_tree t →
  (2 * Nat.log2 (length (keys t) + 1) < fuel)%nat →
  (height t ≤ 2 * Nat.log2 (length (keys t) + 1))%nat
  ∧ ∃ p, Search key s = Ok (p, s) ∧ search_loop fuel key (root s) s = Ok (p, s).
Proof.
  intros H Hrb Hfuel. pose proof (rb_height t Hrb) as Hh. split; [done|].
  exists (rootp (descend key [] t).2). split; [by apply Search_eq|].
  destruct (search_loop_spec key t fuel [] s
              (λ r s', r = rootp (descend key [] t).2 ∧ s' = s))
    as (r & s' & Heq & -> & ->); [lia|done|done|].
  destruct H as (_ & -> & _). done.
Qed.

End Height.

(** * What [Print] writes *)

Section Printing.

Context {V : Type}.
Implicit Types (s : State V) (t : @tree V).

Lemma string_app_assoc (a b c : string) : ((a ++ b) ++ c = a ++ (b ++ c))%string.
Proof.
  induction a as [|x a IH]; [done|].
  change (String x ((a ++ b) ++ c) = String x (a ++ (b ++ c)))%string. by f_equal.
Qed.

Lemma string_app_nil_r (a : string) : (a ++ "" = a)%string.
Proof.
  induction a as [|x a IH]; [done|].
  change (String x (a ++ "") = String x a)%string. by f_equal.
Qed.

Lemma render_app (show : V → string) l1 l2 :
  render show (l1 ++ l2) = (render show l1 ++ render show l2)%string.
Proof.
  induction l1 as [|[[[d c] k] v] l1 IH]; [done|].
  rewrite <- app_comm_cons. cbn [render]. by rewrite IH, string_app_assoc.
Qed.

Lemma printNode_out (show : V → string) (h : gmap positive (Node V)) t :
  ∀ fuel pp depth out,
  (height t < fuel)%nat →
  repr h t pp →
  printNode show fuel h (rootp t) depth out = Ok (out ++ render show (rows t depth))%string.
Proof.
  induction t as [|a c l IHl k v r IHr]; intros fuel pp depth out Hf Hr;
    (destruct fuel as [|fuel]; [simpl in Hf; lia|]); simpl.
  { by rewrite string_app_nil_r. }
  destruct Hr as (Ha & Hl & Hr). rewrite Ha. simpl in Hf |- *.
  rewrite (IHr fuel (Some a) (S depth) out) by (lia || done).
  rewrite (IHl fuel (Some a)) by (lia || done).
  f_equal. rewrite render_app. cbn [render].
  unfold print_line. by rewrite !string_app_assoc.
Qed.

Lemma rows_keys t depth : (rows t depth).*1.*2 = reverse (keys t).
Proof.
  revert depth. induction t as [|a c l IHl k v r IHr]; intros depth; simpl; [done|].
  rewrite keys_Br, !fmap_app, !fmap_cons, IHl, IHr. simpl.
  by rewrite reverse_app, reverse_cons, <- app_assoc.
Qed.

(** X17. [Print] adds to what the writer holds one line per node, from the
    largest key to the smallest, each line indented by two spaces per level
    below the root and showing the color, the key and the value; on the
    empty tree it adds the line "(empty)". *)
Theorem X17_print_output (show : V → string) (out : string) s t :
  Repr s t →
  Print show out s =
    Ok (out ++ match t with
               | Leaf => "(empty)" ++ String (ascii_of_nat 10) ""
               | Br _ _ _ _ _ _ => render show (rows t 0)
               end)%string
  ∧ (rows t 0).*1.*2 = reverse (keys t)
  ∧ length (rows t 0) = length (addrs t).
Proof.
  intros H. pose proof (Repr_fuel _ _ H) as Hfuel.
  split_and!.
  - destruct H as (Hr & Hroot & _). unfold Print. rewrite Hroot.
    destruct t as [|a c l k v r]; [done|]. cbn [rootp].
    apply (printNode_out show _ (Br a c l k v r) _ None); [lia|done].
  - apply rows_keys.
  - rewrite <- (length_fmap fst), <- (length_fmap snd), rows_keys, length_reverse.
    unfold keys. by rewrite length_fmap, length_addrs_elems.
Qed.

End Printing.

(** * The statements above at concrete trees *)

Lemma deep_state_run :
  run [OpInsert "b" 2; OpInsert "a" 1; OpInsert "c" 3; OpInsert "d" 4] New = Ok deep_state.
Proof. vm_compute. reflexivity. Qed.

Lemma deep_Repr : Repr deep_state deep_tree.
Proof.
  split_and!.
  - simpl. split_and!; done.
  - reflexivity.
  - simpl. repeat constructor; set_solver.
Qed.

(** X13 at the tree of "a", "b", "c": a left rotation at the root "b" and a
    right rotation at "c". *)
Lemma X13_rotations_inverse_witness :
  ∃ s1,
    rotateLeft (Some 1%positive) demo_state = Ok (tt, s1)
    ∧ rotateRight (Some 3%positive) s1 = Ok (tt, demo_state).
Proof.
  apply (X13_rotations_inverse DL demo_state demo_tree 1
           (mkNode "b" 2 black None (Some 2%positive) (Some 3%positive)) 3); solve_demo.
Defined.

(** X14 at the tree of "a", "b", "c", "d": the node "d", its parent "c" and
    its grandparent "b". *)
Lemma X14_case2_test_false_witness :
  case2_test (Some 4%positive) deep_state = Ok (false, deep_state).
Proof.
  apply (X14_case2_test_false deep_state deep_tree 4
           (mkNode "d" 4 red (Some 3%positive) None None)
           (mkNode "c" 3 black (Some 1%positive) None (Some 4%positive)) 3 1).
  - exact deep_Repr.
  - eapply reach_right; [eapply reach_right; [by apply reach_root|reflexivity|reflexivity]
                        |reflexivity|reflexivity].
  - reflexivity.
  - reflexivity.
  - reflexivity.
  - reflexivity.
Defined.

(** X15 at the tree of "a", "b", "c": the least key below the root is
    "a". *)
Lemma X15_minimum_least_key_witness :
  ∃ m nm,
    minimum 2 (Some 1%positive) demo_state = Ok (Some m, demo_state)
    ∧ m ∈ addrs demo_tree
    ∧ heap demo_state !! m = Some nm ∧ Left nm = None
    ∧ Key nm ∈ keys demo_tree
    ∧ ∀ k, k ∈ keys demo_tree → k = Key nm ∨ str_lt (Key nm) k.
Proof.
  apply (X15_minimum_least_key demo_state [] demo_tree 2).
  - exact demo_Repr.
  - apply demo_rb.
  - discriminate.
  - simpl. lia.
Defined.

(** X16 at the tree of "a", "b", "c": five iterations are enough. *)
Lemma X16_search_logarithmic_witness :
  (height demo_tree ≤ 2 * Nat.log2 (length (keys demo_tree) + 1))%nat
  ∧ ∃ p, Search "c" demo_state = Ok (p, demo_state)
         ∧ search_loop 5 "c" (root demo_state) demo_state = Ok (p, demo_state).
Proof.
  apply (X16_search_logarithmic demo_state demo_tree "c" 5).
  - exact demo_Repr.
  - exact demo_rb.
  - vm_compute. lia.
Defined.

(** X17 at the tree of "a", "b", "c". *)
Lemma X17_print_output_witness :
  Print (λ _ : Z, ""%string) ""%string demo_state =
    Ok ("" ++ render (λ _ : Z, ""%string) (rows demo_tree 0))%string
  ∧ (rows demo_tree 0).*1.*2 = reverse (keys demo_tree)
  ∧ length (rows demo_tree 0) = length (addrs demo_tree).
Proof.
  apply (X17_print_output (λ _ : Z, ""%string) ""%string demo_state demo_tree).
  exact demo_Repr.
Defined.

(** * The count, the order of operations, and missing children *)

Section More.

Context {V : Type}.
Implicit Types (s : State V) (t : @tree V) (l : list (string * V)).

Lemma length_list_put key value l : (length (list_put key value l) ≤ S (length l))%nat.
Proof.
  induction l as [|[k v] l IH]; simpl; [lia|].
  destruct (key_lt key k); [simpl; lia|]. destruct (key_lt k key); simpl; lia.
Qed.

Lemma length_model (ops : list (op V)) : (length (model ops) ≤ length ops)%nat.
Proof.
  induction ops as [|o ops IH] using rev_ind; [done|].
  rewrite model_snoc, length_app. simpl. destruct o as [k v|k]; simpl.
  - pose proof (length_list_put k v (model ops)). lia.
  - unfold list_remove. pose proof (length_filter (λ kv : string * V, kv.1 ≠ k) (model ops)). lia.
Qed.

(** X18. As long as fewer than 2^63 operations were made, the count kept by
    the tree has not wrapped around: after any sequence of Insert and
    Delete from the empty tree, [Size] is exactly the number of pairs that
    [InOrder] visits, and lies between 0 and the number of operations. *)
Theorem X18_size_exact (ops : list (op V)) :
  Z.of_nat (length ops) < 2 ^ 63 →
  ∃ s l,
    run ops New = Ok s
    ∧ InOrder log_visit [] s = Ok l
    ∧ Size s = Ok (Z.of_nat (length l), s)
    ∧ 0 ≤ size s ≤ Z.of_nat (length ops).
Proof.
  intros Hlen.
  destruct (run_spec ops) as (s & t & Hrun & H & Hrb & Hel & Hsz).
  pose proof (length_model ops) as Hm. rewrite <- Hel in Hm.
  rewrite wrap_int_small in Hsz by lia.
  exists s, (elems t). split_and!; [done|by apply InOrder_log| |lia|lia].
  unfold Size, getSize. by rewrite Hsz.
Qed.

(** X19. The helpers dereference without a nil check: [rotateLeft] at a
    node without right child, [rotateRight] at a node without left child,
    and [rotateLeft], [rotateRight], [minimum] and [transplant] at nil all
    panic. *)
Theorem X19_missing_child_panics s a (n : Node V) (fuel : nat) (v : ptr) :
  heap s !! a = Some n →
  (Right n = None → rotateLeft (Some a) s = Panic)
  ∧ (Left n = None → rotateRight (Some a) s = Panic)
  ∧ rotateLeft None s = Panic
  ∧ rotateRight None s = Panic
  ∧ minimum (S fuel) None s = Panic
  ∧ transplant None v s = Panic.
Proof.
  intros Hn. split_and!; try reflexivity.
  - intros Hr. unfold rotateLeft. unfold bind at 1.
    assert (get Right (Some a) s = Ok (None, s)) as ->; [|done].
    cbv [get bind load ret]. by rewrite Hn, Hr.
  - intros Hl. unfold rotateRight. unfold bind at 1.
    assert (get Left (Some a) s = Ok (None, s)) as ->; [|done].
    cbv [get bind load ret]. by rewrite Hn, Hl.
Qed.

Lemma sorted_fst_pairs l :
  StronglySorted str_lt l.*1 → StronglySorted (λ x y : string * V, str_lt x.1 y.1) l.
Proof.
  induction l as [|[k v] l IH]; intros Hs; [constructor|].
  rewrite fmap_cons in Hs. apply StronglySorted_inv in Hs as [Hs Hall].
  constructor; [by apply IH|]. rewrite Forall_fmap in Hall.
  eapply Forall_impl; [exact Hall|]. by intros [k' v'].
Qed.

(** Two lists sorted by key that hold the same pairs are equal. *)
Lemma sorted_pairs_ext l l' :
  StronglySorted str_lt l.*1 → StronglySorted str_lt l'.*1 →
  (∀ kv, kv ∈ l ↔ kv ∈ l') → l = l'.
Proof.
  intros Hs Hs' Hiff.
  assert (AntiSymm (=) (λ x y : string * V, str_lt x.1 y.1)) as Hanti.
  { intros x y Hxy Hyx. exfalso. apply str_lt_asym in Hxy. unfold str_lt in Hyx. congruence. }
  eapply (StronglySorted_unique (λ x y : string * V, str_lt x.1 y.1));
    [by apply sorted_fst_pairs..|].
  apply NoDup_Permutation; [| |done].
  - eapply NoDup_fmap_1, sorted_NoDup, Hs.
  - eapply NoDup_fmap_1, sorted_NoDup, Hs'.
Qed.

(** X20. What [InOrder] visits depends only on the last binding of each
    key, not on the order in which the operations were made: two sequences
    of operations that leave every key with the same last binding give the
    same traversal. *)
Theorem X20_order_independent (ops1 ops2 : list (op V)) :
  (∀ k, last_binding ops1 k = last_binding ops2 k) →
  ∃ s1 s2 l,
    run ops1 New = Ok s1 ∧ run ops2 New = Ok s2
    ∧ InOrder log_visit [] s1 = Ok l ∧ InOrder log_visit [] s2 = Ok l.
Proof.
  intros Hsame.
  destruct (run_spec ops1) as (s1 & t1 & Hrun1 & H1 & Hrb1 & Hel1 & _).
  destruct (run_spec ops2) as (s2 & t2 & Hrun2 & H2 & Hrb2 & Hel2 & _).
  exists s1, s2, (elems t1). split_and!; [done|done|by apply InOrder_log|].
  rewrite (InOrder_log s2 t2 H2). f_equal. rewrite Hel1, Hel2.
  apply sorted_pairs_ext; [apply model_sorted..|].
  intros [k v]. by rewrite !model_last_binding, Hsame.
Qed.

(** X21. [transplant] of a node by its only child (or by nil, when it has
    none) takes the node out of the tree: the traversal afterwards is the
    traversal before without the pair of the node, and the cell of the node
    itself is left as it was. *)
Theorem X21_transplant_only_child (d : dir) s t u (n : Node V) :
  Repr s t → reachable s u → heap s !! u = Some n →
  match d with DL => Right n | DR => Left n end = None →
  ∃ s' l1 l2,
    transplant (Some u) (match d with DL => Left n | DR => Right n end) s = Ok (tt, s')
    ∧ InOrder log_visit [] s = Ok (l1 ++ (Key n, Value n) :: l2)
    ∧ InOrder log_visit [] s' = Ok (l1 ++ l2)
    ∧ heap s' !! u = Some n
    ∧ ¬ reachable s' u.
Proof.
  intros H Hreach Hn Hnone.
  apply (reachable_addrs s t u H) in Hreach.
  destruct (addrs_focus t u Hreach) as (ctx & c & l & k & v & r & ->).
  pose proof (Repr_lookup _ _ _ _ _ _ _ _ H) as Hu.
  rewrite Hu in Hn. injection Hn as <-. cbn [Left Right Key Value] in *.
  destruct s as [h q z]. cbn [heap] in Hu.
  pose proof H as Hnd. apply Repr_unfold in Hnd. destruct Hnd as (_ & _ & _ & Hnd).
  destruct d.
  - apply rootp_None in Hnone as ->.
    destruct (transplant_left_spec h q z ctx u c l k v Leaf
                (λ _ s', Repr s' (plug ctx l) ∧ heap s' !! u = h !! u) H)
      as ([] & s' & Heq & H' & Hu'); [by intros|].
    exists s', (ctx_before ctx ++ elems l), (ctx_after ctx). split_and!.
    + done.
    + rewrite (InOrder_log _ _ H), elems_plug. simpl. by rewrite <- !app_assoc.
    + rewrite (InOrder_log _ _ H'), elems_plug. by rewrite <- !app_assoc.
    + by rewrite Hu', Hu.
    + intros Hc. apply (reachable_addrs _ _ _ H') in Hc.
      rewrite addrs_plug in Hc. simpl in Hnd. apply NoDup_cons in Hnd as [Hnd _].
      apply Hnd. rewrite ?app_nil_r. rewrite !elem_of_app in Hc |- *. tauto.
  - apply rootp_None in Hnone as ->.
    destruct (transplant_right_spec h q z ctx u c Leaf k v r
                (λ _ s', Repr s' (plug ctx r) ∧ heap s' !! u = h !! u) H)
      as ([] & s' & Heq & H' & Hu'); [by intros|].
    exists s', (ctx_before ctx), (elems r ++ ctx_after ctx). split_and!.
    + done.
    + by rewrite (InOrder_log _ _ H), elems_plug.
    + by rewrite (InOrder_log _ _ H'), elems_plug.
    + by rewrite Hu', Hu.
    + intros Hc. apply (reachable_addrs _ _ _ H') in Hc.
      rewrite addrs_plug in Hc. simpl in Hnd. apply NoDup_cons in Hnd as [Hnd _].
      apply Hnd. rewrite !elem_of_app in Hc |- *. tauto.
Qed.

End More.

(** X18 at Insert "a", Delete "a", Insert "a". *)
Lemma X18_size_exact_witness :
  ∃ s l,
    run reinsert_ops New = Ok s
    ∧ InOrder log_visit [] s = Ok l
    ∧ Size s = Ok (Z.of_nat (length l), s)
    ∧ 0 ≤ size s ≤ Z.of_nat (length reinsert_ops).
Proof.
  apply (X18_size_exact reinsert_ops). reflexivity.
Defined.

(** X19 at the node "a" of the tree of "a", "b", "c", which has no
    child. *)
Lemma X19_missing_child_panics_witness :
  (Right (mkNode "a" 1 red (Some 1%positive) None None) = None →
   rotateLeft (Some 2%positive) demo_state = Panic)
  ∧ (Left (mkNode "a" 1 red (Some 1%positive) None None) = None →
     rotateRight (Some 2%positive) demo_state = Panic)
  ∧ rotateLeft None demo_state = Panic
  ∧ rotateRight None demo_state = Panic
  ∧ minimum 1 None demo_state = Panic
  ∧ transplant None None demo_state = Panic.
Proof.
  apply (X19_missing_child_panics demo_state 2
           (mkNode "a" 1 red (Some 1%positive) None None) 0 None).
  reflexivity.
Defined.

(** X20 at two insertions made in either order. *)
Lemma X20_order_independent_witness :
  ∃ s1 s2 l,
    run [OpInsert "a" 1; OpInsert "b" 2] New = Ok s1
    ∧ run [OpInsert "b" 2; OpInsert "a" 1] New = Ok s2
    ∧ InOrder log_visit [] s1 = Ok l ∧ InOrder log_visit [] s2 = Ok l.
Proof.
  apply (X20_order_independent [OpInsert "a" 1; OpInsert "b" 2]
                               [OpInsert "b" 2; OpInsert "a" 1]).
  intros k. unfold last_binding. simpl.
  destruct (bool_decide ("a"%string = k)) eqn:Ea, (bool_decide ("b"%string = k)) eqn:Eb;
    try reflexivity.
  apply bool_decide_eq_true in Ea, Eb. congruence.
Defined.

(** X21 at the node "a" of the tree of "a", "b", "c": it is replaced by
    nil. *)
Lemma X21_transplant_only_child_witness :
  ∃ s' l1 l2,
    transplant (Some 2%positive) None demo_state = Ok (tt, s')
    ∧ InOrder log_visit [] demo_state = Ok (l1 ++ ("a"%string, 1) :: l2)
    ∧ InOrder log_visit [] s' = Ok (l1 ++ l2)
    ∧ heap s' !! 2%positive = Some (mkNode "a" 1 red (Some 1%positive) None None)
    ∧ ¬ reachable s' 2%positive.
Proof.
  apply (X21_transplant_only_child DL demo_state demo_tree 2
           (mkNode "a" 1 red (Some 1%positive) None None)).
  - exact demo_Repr.
  - eapply reach_left; [by apply reach_root|reflexivity|reflexivity].
  - reflexivity.
  - reflexivity.
Defined.

(** * One operation on any red-black tree *)

Section OneStep.

Context {V : Type}.
Implicit Types (s : State V) (t : @tree V).

(** X22. On every state that holds a red-black tree, however it was built,
    [Insert] and [Delete] return and leave a red-black tree with consistent
    parent links. *)
Theorem X22_step_preserves_invariants (o : op V) s t :
  Repr s t → rb_tree t →
  ∃ s' t',
    step o s = Ok s' ∧ Repr s' t'
    ∧ color_of t' = black ∧ noRedRed t' ∧ (∃ n, black_paths t' n)
    ∧ StronglySorted str_lt (keys t')
    ∧ parent_links s'.
Proof.
  intros H Hrb.
  destruct (step_spec o s t H Hrb) as (s' & t' & Heq & H' & Hrb' & _).
  exists s', t'. destruct Hrb' as (? & ? & ? & ?).
  split_and!; try done. by eapply Repr_parent_links.
Qed.

(** X23. After [Delete] nothing in the tree refers to the node that was
    removed: it is not the root, and no node of the tree has it as parent,
    left child or right child. *)
Theorem X23_delete_leaves_no_reference s t (k : string) (a : positive) :
  Repr s t → rb_tree t →
  Search k s = Ok (Some a, s) →
  ∃ s',
    Delete k s = Ok (true, s')
    ∧ root s' ≠ Some a
    ∧ ∀ b m, reachable s' b → heap s' !! b = Some m →
        Parent m ≠ Some a ∧ Left m ≠ Some a ∧ Right m ≠ Some a.
Proof.
  intros H Hrb Hsearch. pose proof Hrb as (_ & _ & _ & Hs).
  assert (Hk : k ∈ keys t).
  { destruct (decide (k ∈ keys t)) as [|Hn]; [done|].
    rewrite (Search_absent _ _ _ H Hs Hn) in Hsearch. done. }
  destruct (Delete_cells s t k H Hrb)
    as (s' & t' & Heq & H' & Hrb' & Hel & Hinv & _).
  rewrite bool_decide_eq_true_2 in Heq by done.
  exists s'. split; [done|].
  pose proof Hinv as (_ & Hpay & _).
  apply list_elem_of_fmap in Hk as ([k0 v] & -> & Hin). cbn [fst] in *.
  destruct (Search_found _ _ _ _ H Hs Hin) as (ak & nk & Hsk & Hnk & Hkk & _ & Hak).
  rewrite Hsk in Hsearch. injection Hsearch as ->.
  assert (Hnotin : a ∉ addrs t').
  { intros Ha'. destruct (Hpay a nk Hnk) as (n' & Hn' & Hk' & _).
    pose proof (Repr_key_in s' t' a n' H' Ha' Hn') as Hc.
    rewrite Hk', Hkk in Hc. unfold keys in Hc. rewrite Hel in Hc.
    by apply list_remove_notin in Hc. }
  destruct (frame_inv_init s' t' H') as (_ & _ & Hroot & Hcl).
  assert (∀ p, inP (list_to_set (addrs t')) p → p ≠ Some a) as Hne.
  { intros p Hp ->. cbn [inP] in Hp. by apply elem_of_list_to_set in Hp. }
  split; [by apply Hne|].
  intros b m Hb Hm. apply (reachable_addrs _ _ _ H') in Hb.
  destruct (Hcl b m) as (H1 & H2 & H3); [by apply elem_of_list_to_set|done|].
  split_and!; by apply Hne.
Qed.

(** X24. [insertFixup] repairs a red node below a red parent: on a tree
    that is red-black but for the red [node], which may have a red parent or
    be the root, it returns a red-black tree with the same in-order
    sequence; the count is not touched. *)
Theorem X24_insertFixup_repairs s ctx t (n : positive) (fuel : nat) :
  Repr s (plug ctx t) → rootp t = Some n → ins_inv ctx t →
  (fix_measure ctx < fuel)%nat →
  ∃ s' T',
    insertFixup fuel (Some n) s = Ok (tt, s') ∧ Repr s' T'
    ∧ color_of T' = black ∧ noRedRed T' ∧ (∃ m, black_paths T' m)
    ∧ elems T' = elems (plug ctx t)
    ∧ size s' = size s.
Proof.
  intros H Hn Hinv Hfuel. destruct s as [h q z].
  destruct (insertFixup_spec fuel ctx t n h q z
              (λ _ s', ∃ T', Repr s' T' ∧ color_of T' = black ∧ noRedRed T'
                             ∧ balanced T' ∧ elems T' = elems (plug ctx t)
                             ∧ size s' = z))
    as ([] & s' & Heq & T' & H' & Hc & Hrr & Hb & Hel & Hsz); try done.
  { intros h' q' T' HT ? ? ? ?. exists T'. by split_and!. }
  exists s', T'. split_and!; try done. by apply balanced_black_paths.
Qed.

(** X25. [deleteFixup] repairs a missing black node: on a tree that is
    red-black but for the subtree [x], whose paths hold one black node less
    than the paths beside it (and whose root may be red below a red parent),
    it returns a red-black tree with the same in-order sequence; the count
    is not touched. *)
Theorem X25_deleteFixup_repairs s ctx (x : @tree V) (fuel : nat) :
  Repr s (plug ctx x) → del_inv ctx x →
  (del_measure ctx x < fuel)%nat →
  ∃ s' T',
    deleteFixup fuel (rootp x) (ctx_parent ctx) s = Ok (tt, s') ∧ Repr s' T'
    ∧ color_of T' = black ∧ noRedRed T' ∧ (∃ m, black_paths T' m)
    ∧ elems T' = elems (plug ctx x)
    ∧ size s' = size s.
Proof.
  intros H Hinv Hfuel. destruct s as [h q z].
  destruct (deleteFixup_spec fuel ctx x h q z
              (λ _ s', ∃ T', Repr s' T' ∧ color_of T' = black ∧ noRedRed T'
                             ∧ balanced T' ∧ elems T' = elems (plug ctx x)
                             ∧ size s' = z))
    as ([] & s' & Heq & T' & H' & Hc & Hrr & Hb & Hel & Hsz); try done.
  { intros h' q' T' HT ? ? ? ?. exists T'. by split_and!. }
  exists s', T'. split_and!; try done. by apply balanced_black_paths.
Qed.

End OneStep.

(** X22 at the tree of "a", "b", "c": "b" is deleted. *)
Lemma X22_step_preserves_invariants_witness :
  ∃ s' t',
    step (OpDelete "b") demo_state = Ok s' ∧ Repr s' t'
    ∧ color_of t' = black ∧ noRedRed t' ∧ (∃ n, black_paths t' n)
    ∧ StronglySorted str_lt (keys t')
    ∧ parent_links s'.
Proof.
  apply (X22_step_preserves_invariants (OpDelete "b") demo_state demo_tree); solve_demo.
Defined.

(** X23 at the tree of "a", "b", "c": the root "b" is deleted. *)
Lemma X23_delete_leaves_no_reference_witness :
  ∃ s',
    Delete "b" demo_state = Ok (true, s')
    ∧ root s' ≠ Some 1%positive
    ∧ ∀ b m, reachable s' b → heap s' !! b = Some m →
        Parent m ≠ Some 1%positive ∧ Left m ≠ Some 1%positive ∧ Right m ≠ Some 1%positive.
Proof.
  apply (X23_delete_leaves_no_reference demo_state demo_tree "b" 1); solve_demo.
Defined.

(** X24 at the tree of "c", "b", "a" with "a" and "b" red. *)
Lemma X24_insertFixup_repairs_witness :
  ∃ s' T',
    insertFixup 5 (Some 3%positive) red_red_state = Ok (tt, s') ∧ Repr s' T'
    ∧ color_of T' = black ∧ noRedRed T' ∧ (∃ m, black_paths T' m)
    ∧ elems T' = elems (plug red_red_ctx red_red_node)
    ∧ size s' = size red_red_state.
Proof.
  apply (X24_insertFixup_repairs red_red_state red_red_ctx red_red_node 3 5).
  - split_and!; [simpl; split_and!; done|reflexivity|simpl; repeat constructor; set_solver].
  - reflexivity.
  - unfold ins_inv, red, black. simpl. split_and!; done.
  - vm_compute. lia.
Defined.

(** X25 at the tree of "b" with the black right child "c" and nothing on
    the left. *)
Lemma X25_deleteFixup_repairs_witness :
  ∃ s' T',
    deleteFixup 4 None (Some 1%positive) short_state = Ok (tt, s') ∧ Repr s' T'
    ∧ color_of T' = black ∧ noRedRed T' ∧ (∃ m, black_paths T' m)
    ∧ elems T' = elems (plug short_ctx Leaf)
    ∧ size s' = size short_state.
Proof.
  apply (X25_deleteFixup_repairs short_state short_ctx Leaf 4).
  - split_and!; [simpl; split_and!; done|reflexivity|simpl; repeat constructor; set_solver].
  - unfold del_inv, red, black. simpl. split_and!; done.
  - vm_compute. lia.
Defined.
